(** * colab-vscode: authorization-code acquisition and the multi-step input controller

    A shallow embedding of
    - [src/common/multi-step-quickpick.ts] (MultiStepInput, showInputBox,
      showQuickPick),
    - [src/auth/flows/proxied.ts] (ProxiedRedirectFlow),
    - [src/auth/provider.ts] (GoogleAuthProvider and its methods),
    - [src/auth/storage.ts] (AuthStorage and its Zod schema),
    - the fake of [vscode.authentication] the test-suite runs the
      provider on,
    with the properties of the design document proved over it, and
    further properties of the code.

    JavaScript promises are modelled at the granularity of the event loop:
    one transition per host event (a widget event, a timer tick, a settled
    host promise); everything that runs synchronously or in micro-tasks
    after the event belongs to the same transition. *)

From stdpp Require Import gmap strings list pretty.
From Stdlib Require Import ZArith Sorting.Sorted.


(* ===================================================================== *)
(** * src/common/multi-step-quickpick.ts *)
(* ===================================================================== *)

Module MultiStep.

(** A value raised with [throw].  The two sentinels are the static members
    [InputFlowAction.back] and [InputFlowAction.cancel]; the [switch] of
    the run loop compares by identity, so any other thrown value (a
    different [Error], also a different [InputFlowAction] object) is
    [OtherError]. *)
Inductive Thrown :=
| InputFlowAction_back
| InputFlowAction_cancel
| OtherError (message : string).

#[global] Instance Thrown_eq_dec : EqDecision Thrown.
Proof. solve_decision. Defined.

(** [vscode.QuickInputButton]: the predefined [QuickInputButtons.Back] or
    a button of the caller. *)
Inductive QuickInputButton :=
| QuickInputButtons_Back
| CustomButton (tooltip : string).

#[global] Instance QuickInputButton_eq_dec : EqDecision QuickInputButton.
Proof. solve_decision. Defined.

(** The part of a [vscode.QuickInput] / [vscode.InputBox] object the code
    reads or writes.  [disposeCalls] counts the calls of [dispose()]. *)
Record QuickInput := {
  title : string;
  stepNo : option nat;
  totalSteps : option nat;
  value : string;
  prompt : string;
  placeholder : option string;
  buttons : list QuickInputButton;
  validationMessage : option string;
  enabled : bool;
  busy : bool;
  visible : bool;
  disposeCalls : nat;
}.

(** What [vs.window.createInputBox()] returns. *)
Definition createInputBox : QuickInput :=
  {| title := ""; stepNo := None; totalSteps := None; value := "";
     prompt := ""; placeholder := None; buttons := [];
     validationMessage := None; enabled := true; busy := false;
     visible := false; disposeCalls := 0 |}.

Definition set_enabled_busy (e b : bool) (w : QuickInput) : QuickInput :=
  {| title := title w; stepNo := stepNo w; totalSteps := totalSteps w;
     value := value w; prompt := prompt w; placeholder := placeholder w;
     buttons := buttons w; validationMessage := validationMessage w;
     enabled := e; busy := b;
     visible := visible w; disposeCalls := disposeCalls w |}.

Definition set_value (v : string) (w : QuickInput) : QuickInput :=
  {| title := title w; stepNo := stepNo w; totalSteps := totalSteps w;
     value := v; prompt := prompt w; placeholder := placeholder w;
     buttons := buttons w; validationMessage := validationMessage w;
     enabled := enabled w; busy := busy w;
     visible := visible w; disposeCalls := disposeCalls w |}.

Definition set_validationMessage (m : option string) (w : QuickInput)
  : QuickInput :=
  {| title := title w; stepNo := stepNo w; totalSteps := totalSteps w;
     value := value w; prompt := prompt w; placeholder := placeholder w;
     buttons := buttons w; validationMessage := m;
     enabled := enabled w; busy := busy w;
     visible := visible w; disposeCalls := disposeCalls w |}.

(** [input.show()] *)
Definition show (w : QuickInput) : QuickInput :=
  {| title := title w; stepNo := stepNo w; totalSteps := totalSteps w;
     value := value w; prompt := prompt w; placeholder := placeholder w;
     buttons := buttons w; validationMessage := validationMessage w;
     enabled := enabled w; busy := busy w;
     visible := true; disposeCalls := disposeCalls w |}.

(** [input.dispose()]: the widget leaves the screen. *)
Definition dispose (w : QuickInput) : QuickInput :=
  {| title := title w; stepNo := stepNo w; totalSteps := totalSteps w;
     value := value w; prompt := prompt w; placeholder := placeholder w;
     buttons := buttons w; validationMessage := validationMessage w;
     enabled := enabled w; busy := busy w;
     visible := false; disposeCalls := S (disposeCalls w) |}.

(** An [InputStep] is a closure; the controller only stores, compares and
    calls it, so a step is named by a number. *)
Definition InputStep := nat.

(** The controller object.  [steps] is the JS array (push and pop at the
    end), [current] points into [widgets], the heap of widget objects
    created so far.  [invoked] is not a field of the class: it logs the
    step calls in order, as the test-suite's [sinon.assert.callOrder]. *)
Record MultiStepInput := {
  steps : list InputStep;
  current : option nat;
  widgets : list QuickInput;
  invoked : list InputStep;
}.

(** [new MultiStepInput(vs)] *)
Definition new_MultiStepInput : MultiStepInput :=
  {| steps := []; current := None; widgets := []; invoked := [] |}.

Definition with_steps (s : list InputStep) (this : MultiStepInput) :=
  {| steps := s; current := current this; widgets := widgets this;
     invoked := invoked this |}.

Definition with_widgets (ws : list QuickInput) (this : MultiStepInput) :=
  {| steps := steps this; current := current this; widgets := ws;
     invoked := invoked this |}.

(** [f(this.current)] when [this.current] is set. *)
Definition on_current (f : QuickInput -> QuickInput) (this : MultiStepInput)
  : MultiStepInput :=
  match current this with
  | Some i => with_widgets (alter f i (widgets this)) this
  | None => this
  end.

(** The tail of [showQuickPick] / [showInputBox]:
    [this.current?.dispose(); this.current = input; this.current.show()]. *)
Definition make_current (input : QuickInput) (this : MultiStepInput)
  : MultiStepInput :=
  let this1 := on_current dispose this in
  {| steps := steps this1;
     current := Some (length (widgets this1));
     widgets := widgets this1 ++ [show input];
     invoked := invoked this1 |}.

(** How one call of a step ended. *)
Inductive StepOutcome :=
| Return (next : option InputStep)
| Throw (e : Thrown).

#[global] Instance StepOutcome_eq_dec : EqDecision StepOutcome.
Proof. solve_decision. Defined.

(** One call of a step, as the controller sees it: the widgets the step
    showed through [input.showQuickPick] / [input.showInputBox], in order,
    and how the call ended. *)
Record StepRun := {
  shown : list QuickInput;
  outcome : StepOutcome;
}.

(** The steps' code and the user in front of them: what the call of a step
    does, given the calls made before it. *)
Definition Behaviour := list InputStep -> InputStep -> StepRun.

(** [this.steps.push(step); if (this.current) { enabled = false;
    busy = true }] *)
Definition enter (s : InputStep) (this : MultiStepInput) : MultiStepInput :=
  on_current (set_enabled_busy false true) (with_steps (steps this ++ [s]) this).

(** [step(this)] up to its settlement. *)
Definition call (s : InputStep) (r : StepRun) (this : MultiStepInput)
  : MultiStepInput :=
  let this1 := foldl (fun acc w => make_current w acc) this (shown r) in
  {| steps := steps this1; current := current this1;
     widgets := widgets this1; invoked := invoked this1 ++ [s] |}.

(** [this.steps.pop()] *)
Definition pop (this : MultiStepInput) : option InputStep * MultiStepInput :=
  (last (steps this), with_steps (removelast (steps this)) this).

Inductive LoopCtl :=
| Continue (next : option InputStep)
| Exit (e : Thrown).

(** The body of the loop after [await step(this)] has settled: the
    assignment on success, the [catch] with its [switch] otherwise. *)
Definition settled (o : StepOutcome) (this : MultiStepInput)
  : LoopCtl * MultiStepInput :=
  match o with
  | Return next => (Continue next, this)
  | Throw InputFlowAction_back =>
      let this1 := snd (pop this) in
      if Nat.eqb (length (steps this1)) 0 then (Exit InputFlowAction_back, this1)
      else let '(prev, this2) := pop this1 in (Continue prev, this2)
  | Throw InputFlowAction_cancel => (Continue None, this)
  | Throw e => (Exit e, this)
  end.

(** The [finally] of [step]. *)
Definition finally (this : MultiStepInput) : MultiStepInput :=
  on_current dispose this.

(** How the promise of [run] stands: [Running] when the loop has not ended
    within the given number of iterations. *)
Inductive Completion :=
| Fulfilled
| Rejected (e : Thrown)
| Running.

(** [while (step) { ... }] *)
Fixpoint step_loop (B : Behaviour) (fuel : nat) (step : option InputStep)
    (this : MultiStepInput) : Completion * MultiStepInput :=
  match step with
  | None => (Fulfilled, this)
  | Some s =>
      match fuel with
      | O => (Running, this)
      | S fuel' =>
          let r := B (invoked this) s in
          let this2 := call s r (enter s this) in
          match settled (outcome r) this2 with
          | (Continue next, this3) => step_loop B fuel' next this3
          | (Exit e, this3) => (Rejected e, this3)
          end
      end
  end.

(** [private async step(start)] *)
Definition step (B : Behaviour) (fuel : nat) (start : InputStep)
    (this : MultiStepInput) : Completion * MultiStepInput :=
  match step_loop B fuel (Some start) this with
  | (Running, this') => (Running, this')
  | (c, this') => (c, finally this')
  end.

(** [static async run(vs, start)] *)
Definition run (B : Behaviour) (fuel : nat) (start : InputStep)
  : Completion * MultiStepInput :=
  step B fuel start new_MultiStepInput.

(** ** showInputBox *)

Record InputBoxOptions := {
  o_title : string;
  o_step : option nat;
  o_totalSteps : option nat;
  o_buttons : option (list QuickInputButton);
  o_value : string;
  o_prompt : string;
  o_validate : string -> option string;
  o_placeholder : option string;
}.

(** JS truthiness of a [string | undefined]: [undefined] and the empty
    string are falsy. *)
Definition truthy (m : option string) : bool :=
  match m with
  | Some s => negb (String.eqb s "")
  | None => false
  end.

(** The widget as configured by the executor of the promise, before
    [show()].  [opts.value || ""] is [opts.value]. *)
Definition configure (opts : InputBoxOptions) : QuickInput :=
  {| title := o_title opts; stepNo := o_step opts;
     totalSteps := o_totalSteps opts;
     value := if truthy (Some (o_value opts)) then o_value opts else "";
     prompt := o_prompt opts; placeholder := o_placeholder opts;
     buttons := match o_buttons opts with Some bs => bs | None => [] end;
     validationMessage := None; enabled := true; busy := false;
     visible := false; disposeCalls := 0 |}.

(** The events the host fires on the widget.  On a change of the text the
    host has stored the text in [input.value] before it calls the
    listeners. *)
Inductive InputEvent :=
| DidChangeValue (text : string)
| DidAccept
| DidHide
| DidTriggerButton (b : QuickInputButton).

(** The promise a caller awaits. *)
Inductive Promise (A : Type) :=
| Pending
| Resolved (a : A)
| Failed (e : Thrown).
Arguments Pending {A}.
Arguments Resolved {A} a.
Arguments Failed {A} e.

(** [configureNavigation]: what its two listeners reject the promise
    with on an event, if they do. *)
Definition configureNavigation (ev : InputEvent) : option Thrown :=
  match ev with
  | DidTriggerButton e =>
      if decide (e = QuickInputButtons_Back) then Some InputFlowAction_back
      else None
  | DidHide => Some InputFlowAction_cancel
  | _ => None
  end.

(** The listeners of [showInputBox], run on one event while its promise
    is pending: those of [configureNavigation], [onDidAccept] and
    [onDidChangeValue]. *)
Definition listeners (opts : InputBoxOptions) (ev : InputEvent)
    (input : QuickInput) : QuickInput * Promise string :=
  match configureNavigation ev with
  | Some e => (input, Failed e)
  | None =>
      match ev with
      | DidAccept =>
          let v := value input in
          let input1 := set_enabled_busy false true input in
          let validationMessage := o_validate opts v in
          let p := if truthy validationMessage then Pending else Resolved v in
          (set_enabled_busy true false input1, p)
      | DidChangeValue text =>
          (set_validationMessage (o_validate opts text) (set_value text input),
           Pending)
      | _ => (input, Pending)
      end
  end.

(** One event on a shown input box.  Once the promise is settled the
    [finally] has disposed every listener, and events reach nobody. *)
Definition input_event (opts : InputBoxOptions) (ev : InputEvent)
    (st : QuickInput * Promise string) : QuickInput * Promise string :=
  match snd st with
  | Pending => listeners opts ev (fst st)
  | _ =>
      match ev with
      | DidChangeValue text => (set_value text (fst st), snd st)
      | _ => st
      end
  end.

(** [showInputBox(opts)] followed through a sequence of events: the box,
    from its creation, and the promise the caller awaits. *)
Definition showInputBox (opts : InputBoxOptions) (evs : list InputEvent)
  : QuickInput * Promise string :=
  foldl (fun st ev => input_event opts ev st) (show (configure opts), Pending) evs.

End MultiStep.

(* ===================================================================== *)
(** * src/auth/code-manager.ts (the nonce to pending-request registry) *)
(* ===================================================================== *)

Module CodeManager.

(** Modelled from the spec: the conditions a wait is rejected with, of
    the class [CodeManager] of [src/auth/code-manager.ts].  That file is
    missing from the sources at hand; everything in this module follows
    section 4.1 (NonceCodeRegistry) of the design document. *)
Inductive Failure :=
| Cancelled
| Timeout
| DuplicateNonce.

#[global] Instance Failure_eq_dec : EqDecision Failure.
Proof. solve_decision. Defined.

(** Modelled from the spec: how the promise of [CodeManager.waitForCode]
    (missing) settles. *)
Inductive Settlement :=
| Code (code : string)
| Fail (e : Failure).

(** Modelled from the spec: a PendingRequest of the missing [CodeManager]
    (the nonce is its key in the table).  [promise] names the promise
    whose [resolve] and [reject] the entry holds, [cancellation] the token
    it observes, [deadline] the time its timeout handle fires. *)
Record PendingRequest := {
  promise : nat;
  cancellation : nat;
  deadline : Z;
}.

(** Modelled from the spec: the fixed ceiling of a wait of the missing
    [CodeManager], in milliseconds (section 6: 60 seconds). *)
Definition TIMEOUT_MS : Z := 60000.

(** Modelled from the spec: the state of the missing class [CodeManager],
    a table from nonce to pending request.  [settlements] holds the
    promises handed out that are settled (a promise absent from it is
    pending) and [next] the next promise to hand out; [resolveCalls] logs
    the calls of [resolveCode]. *)
Record t := {
  table : gmap string PendingRequest;
  settlements : gmap nat Settlement;
  next : nat;
  resolveCalls : list (string * string);
}.

(** Modelled from the spec: [new CodeManager()] of the missing
    [code-manager.ts], a registry with nothing pending. *)
Definition empty : t :=
  {| table := ∅; settlements := ∅; next := 0; resolveCalls := [] |}.

(** Modelled from the spec: the missing [CodeManager.waitForCode].
    [waitForCode(nonce, token)] at time [now] registers a pending request
    with the 60 s ceiling and returns its promise; with a request already
    pending for the nonce the promise fails with [DuplicateNonce] and the
    table is left as it was. *)
Definition waitForCode (now : Z) (nonce : string) (token : nat) (cm : t)
  : nat * t :=
  let p := next cm in
  match table cm !! nonce with
  | Some _ =>
      (p, {| table := table cm;
             settlements := <[p := Fail DuplicateNonce]> (settlements cm);
             next := S p; resolveCalls := resolveCalls cm |})
  | None =>
      (p, {| table := <[nonce := {| promise := p; cancellation := token;
                                    deadline := (now + TIMEOUT_MS)%Z |}]>
                        (table cm);
             settlements := settlements cm;
             next := S p; resolveCalls := resolveCalls cm |})
  end.

(** Modelled from the spec: the missing [CodeManager.resolveCode].
    [resolveCode(nonce, code)] resolves the pending request of the nonce
    and removes it (its timeout with it); without a pending request it
    does nothing. *)
Definition resolveCode (nonce code : string) (cm : t) : t :=
  match table cm !! nonce with
  | Some pr =>
      {| table := delete nonce (table cm);
         settlements := <[promise pr := Code code]> (settlements cm);
         next := next cm;
         resolveCalls := resolveCalls cm ++ [(nonce, code)] |}
  | None =>
      {| table := table cm; settlements := settlements cm; next := next cm;
         resolveCalls := resolveCalls cm ++ [(nonce, code)] |}
  end.

(** Modelled from the spec: what the cancellation listener and the
    timeout callback of the missing [CodeManager] do.  Reject, with [e],
    every pending request that [due] selects, and remove it from the
    table. *)
Definition reject_due (due : PendingRequest -> bool) (e : Failure) (cm : t)
  : t :=
  {| table := filter (fun kv => due (snd kv) = false) (table cm);
     settlements :=
       map_fold (fun _ pr acc =>
                   if due pr then <[promise pr := Fail e]> acc else acc)
                (settlements cm) (table cm);
     next := next cm; resolveCalls := resolveCalls cm |}.

(** Modelled from the spec: the cancellation listener of the missing
    [CodeManager].  The cancellation signal [token] fires; the requests
    that observe it are rejected with [Cancelled]. *)
Definition cancellationRequested (token : nat) (cm : t) : t :=
  reject_due (fun pr => Nat.eqb (cancellation pr) token) Cancelled cm.

(** Modelled from the spec: the timeout callback of the missing
    [CodeManager].  The callbacks due at time [now] run; their requests
    are rejected with [Timeout]. *)
Definition timersFire (now : Z) (cm : t) : t :=
  reject_due (fun pr => Z.leb (deadline pr) now) Timeout cm.

(** The operations on a registry, for sequences of them. *)
Inductive Op :=
| WaitForCode (nonce : string) (token : nat)
| ResolveCode (nonce code : string)
| CancellationRequested (token : nat)
| Elapse (ms : Z).

(** A registry with its clock. *)
Definition apply (op : Op) (st : Z * t) : Z * t :=
  let '(now, cm) := st in
  match op with
  | WaitForCode nonce token => (now, snd (waitForCode now nonce token cm))
  | ResolveCode nonce code => (now, resolveCode nonce code cm)
  | CancellationRequested token => (now, cancellationRequested token cm)
  | Elapse ms =>
      let now' := (now + Z.max 0 ms)%Z in (now', timersFire now' cm)
  end.

Definition apply_all (ops : list Op) (st : Z * t) : Z * t :=
  foldl (fun st op => apply op st) st ops.

(** Time that passes in a sequence of operations. *)
Definition elapsed (ops : list Op) : Z :=
  foldr (fun op acc =>
           match op with Elapse ms => (Z.max 0 ms + acc)%Z | _ => acc end)
        0%Z ops.

(** An operation that neither delivers a code for [nonce] nor cancels
    [token].  Other parties may register (a second registration of
    [nonce] fails while the first is pending) and time may pass. *)
Definition leaves_alone (nonce : string) (token : nat) (op : Op) : Prop :=
  match op with
  | WaitForCode _ _ => True
  | ResolveCode n _ => n <> nonce
  | CancellationRequested tk => tk <> token
  | Elapse _ => True
  end.

(** ** Invariants of the registry *)

(** Promises are handed out in increasing order: every promise in the
    table or settled is below [next]. *)
Definition wf (cm : t) : Prop :=
  (forall n pr, table cm !! n = Some pr -> promise pr < next cm) /\
  (forall q s, settlements cm !! q = Some s -> q < next cm).

(** The entry of a wait registered at time [now]. *)
Definition entry (p token : nat) (now : Z) : PendingRequest :=
  {| promise := p; cancellation := token; deadline := (now + TIMEOUT_MS)%Z |}.

(** The promise [p] handed out for [nonce]: as long as it is pending the
    table holds its entry [mine] under [nonce], and no other entry ever
    holds it. *)
Definition owns (nonce : string) (p : nat) (mine : PendingRequest) (cm : t)
  : Prop :=
  promise mine = p
  /\ p < next cm
  /\ (forall n pr, table cm !! n = Some pr -> promise pr = p ->
       n = nonce /\ pr = mine /\ settlements cm !! p = None)
  /\ (settlements cm !! p = None -> table cm !! nonce = Some mine).

(** A settled promise stays as it is; a pending one becomes [s]. *)
Definition settles_to (p : nat) (s : option Settlement) (cm cm' : t) : Prop :=
  settlements cm' !! p
  = match settlements cm !! p with Some s0 => Some s0 | None => s end.

(** [c] is the code of the first call [resolveCode(nonce, _)] made after
    the calls [before]. *)
Definition first_delivery (nonce : string) (before : list (string * string))
    (c : string) (calls : list (string * string)) : Prop :=
  exists pre post,
    calls = before ++ pre ++ (nonce, c) :: post
    /\ forall c', (nonce, c') ∉ pre.

(** What the registry has been told for [nonce] since the calls [before]:
    nothing while [p] is pending, and the code [p] is resolved with is the
    one of the first call for [nonce]. *)
Definition heard (nonce : string) (p : nat) (before : list (string * string))
    (cm : t) : Prop :=
  exists new,
    resolveCalls cm = before ++ new /\
    match settlements cm !! p with
    | None => forall c', (nonce, c') ∉ new
    | Some (Code c) => first_delivery nonce before c (resolveCalls cm)
    | Some (Fail _) => True
    end.

(** The state of the wait [p], registered at [now] for [nonce] on [token],
    [d] milliseconds after its registration. *)
Definition waiting (now : Z) (nonce : string) (token p : nat) (d : Z)
    (st : Z * t) : Prop :=
  fst st = (now + d)%Z
  /\ p < next (snd st)
  /\ (forall n pr, table (snd st) !! n = Some pr -> promise pr = p ->
       n = nonce /\ (d < TIMEOUT_MS)%Z)
  /\ ((d < TIMEOUT_MS)%Z ->
      settlements (snd st) !! p = None
      /\ table (snd st) !! nonce = Some (entry p token now))
  /\ ((TIMEOUT_MS <= d)%Z -> settlements (snd st) !! p = Some (Fail Timeout)).

(** What every operation does to a wait: the registry goes on owning it,
    the log stays true, and a settled wait stays as it is. *)
Definition advances (nonce : string) (p : nat) (mine : PendingRequest)
    (before : list (string * string)) (cm cm' : t) : Prop :=
  owns nonce p mine cm'
  /\ heard nonce p before cm'
  /\ (forall s, settlements cm !! p = Some s -> settlements cm' !! p = Some s).

Definition duration (op : Op) : Z :=
  match op with Elapse ms => Z.max 0 ms | _ => 0%Z end.

End CodeManager.

(* ===================================================================== *)
(** * src/auth/flows/proxied.ts *)
(* ===================================================================== *)

Module Proxied.
Import MultiStep.

(** A value of the options object passed to [generateAuthUrl]. *)
Inductive AuthUrlValue :=
| One (s : string)
| Many (l : list string).

(** What the module reads from outside: [CONFIG.ColabApiDomain] of
    [colab-config] and [DEFAULT_AUTH_URL_OPTS] of [./flows] (neither is in
    the sources at hand, both are constants), and the [extensionUri] the
    flow is constructed with. *)
Record Config := {
  ColabApiDomain : string;
  DEFAULT_AUTH_URL_OPTS : gmap string AuthUrlValue;
  extensionUri : string;
}.

Definition PROXIED_REDIRECT_URI (cfg : Config) : string :=
  ColabApiDomain cfg +:+ "/vscode/redirect".

(** [OAuth2TriggerOptions] without its [cancel] token, whose firing is the
    event [CallerCancels]. *)
Record OAuth2TriggerOptions := {
  nonce : string;
  scopes : list string;
  pkceChallenge : string;
}.

Record FlowResult := {
  code : string;
  redirectUri : string;
}.

(** What the promise of [trigger] is rejected with: a failure of the wait
    or an error of a host call. *)
Inductive Rejection :=
| Wait (e : CodeManager.Failure)
| Host (message : string).

(** [vscode.CancellationTokenSource].  [token] names its token. *)
Record CancellationTokenSource := {
  token : nat;
  isCancellationRequested : bool;
  isDisposed : bool;
}.

(** Where the body of [trigger] is suspended. *)
Inductive Phase :=
| AwaitingExternalUri
| AwaitingOpenExternal
| AwaitingCode
| Done.

#[global] Instance Phase_eq_dec : EqDecision Phase.
Proof. solve_decision. Defined.

(** The manual-entry wizard started by [promptForAuthorizationCode]: its
    controller, the promise of [input.showInputBox] and the promise of
    [MultiStepInput.run]. *)
Record Prompt := {
  input : MultiStepInput;
  pastedCode : Promise string;
  wizard : Completion;
}.

(** One invocation of [trigger] together with the flow object it runs on
    and the clock. *)
Record Invocation := {
  clock : Z;
  codeManager : CodeManager.t;
  cancelTokenSource : CancellationTokenSource;
  codePromise : nat;
  phase : Phase;
  opened : list (gmap string AuthUrlValue);
  prompt : option Prompt;
  outcome : option (FlowResult + Rejection);
}.

Definition with_registry (now : Z) (cm : CodeManager.t) (i : Invocation) :=
  {| clock := now; codeManager := cm;
     cancelTokenSource := cancelTokenSource i; codePromise := codePromise i;
     phase := phase i; opened := opened i; prompt := prompt i;
     outcome := outcome i |}.

Definition with_source (c : CancellationTokenSource) (i : Invocation) :=
  {| clock := clock i; codeManager := codeManager i;
     cancelTokenSource := c; codePromise := codePromise i;
     phase := phase i; opened := opened i; prompt := prompt i;
     outcome := outcome i |}.

Definition with_phase (ph : Phase) (i : Invocation) :=
  {| clock := clock i; codeManager := codeManager i;
     cancelTokenSource := cancelTokenSource i; codePromise := codePromise i;
     phase := ph; opened := opened i; prompt := prompt i;
     outcome := outcome i |}.

Definition with_prompt (pr : Prompt) (i : Invocation) :=
  {| clock := clock i; codeManager := codeManager i;
     cancelTokenSource := cancelTokenSource i; codePromise := codePromise i;
     phase := phase i; opened := opened i; prompt := Some pr;
     outcome := outcome i |}.

(** The options [trigger] passes to [oAuth2Client.generateAuthUrl]. *)
Definition authUrlOptions (cfg : Config) (options : OAuth2TriggerOptions)
    (externalProxiedRedirectUri : string) : gmap string AuthUrlValue :=
  <["code_challenge" := One (pkceChallenge options)]>
    (<["scope" := Many (scopes options)]>
       (<["state" := One externalProxiedRedirectUri]>
          (<["redirect_uri" := One (PROXIED_REDIRECT_URI cfg)]>
             (DEFAULT_AUTH_URL_OPTS cfg)))).

(** The options of the input box of [promptForAuthorizationCode].  The
    call also passes [ignoreFocusOut] and [password], which [showInputBox]
    does not read. *)
Definition AUTHORIZATION_CODE_BOX : InputBoxOptions :=
  {| o_title := "Sign in to Google"; o_step := None; o_totalSteps := None;
     o_buttons := None; o_value := "";
     o_prompt := "Enter your authorization code";
     o_validate := fun value =>
       if Nat.eqb (String.length value) 0
       then Some "Authorization code cannot be empty" else None;
     o_placeholder := None |}.

(** The one step of the wizard. *)
Definition authorizationCodeStep : InputStep := 0.

(** [cancelTokenSource.cancel()]: the first call on a source that is not
    disposed fires the token, and the registry hears it. *)
Definition cancel (i : Invocation) : Invocation :=
  let c := cancelTokenSource i in
  if isCancellationRequested c then i
  else
    let i1 := with_source {| token := token c; isCancellationRequested := true;
                             isDisposed := isDisposed c |} i in
    if isDisposed c then i1
    else with_registry (clock i1)
           (CodeManager.cancellationRequested (token c) (codeManager i1)) i1.

(** The end of [trigger]: its promise settles and the [finally] disposes
    the token source. *)
Definition finish (r : FlowResult + Rejection) (i : Invocation) : Invocation :=
  let c := cancelTokenSource i in
  {| clock := clock i; codeManager := codeManager i;
     cancelTokenSource :=
       {| token := token c;
          isCancellationRequested := isCancellationRequested c;
          isDisposed := true |};
     codePromise := codePromise i; phase := Done; opened := opened i;
     prompt := prompt i; outcome := Some r |}.

(** [return { code: await code, redirectUri: PROXIED_REDIRECT_URI }]:
    nothing happens while the promise of the wait is pending. *)
Definition await_code (cfg : Config) (i : Invocation) : Invocation :=
  match phase i with
  | AwaitingCode =>
      match CodeManager.settlements (codeManager i) !! codePromise i with
      | Some (CodeManager.Code c) =>
          finish (inl {| code := c; redirectUri := PROXIED_REDIRECT_URI cfg |}) i
      | Some (CodeManager.Fail e) => finish (inr (Wait e)) i
      | None => i
      end
  | _ => i
  end.

(** [promptForAuthorizationCode], up to the [await] of the input box:
    [MultiStepInput.run] pushes the step and calls it, and
    [input.showInputBox] creates, configures and shows the box. *)
Definition promptForAuthorizationCode (i : Invocation) : Invocation :=
  with_prompt
    {| input :=
         call authorizationCodeStep
           {| shown := [configure AUTHORIZATION_CODE_BOX];
              MultiStep.outcome := Return None |}
           (enter authorizationCodeStep new_MultiStepInput);
       pastedCode := Pending;
       wizard := Running |}
    i.

(** The rest of the wizard once its step has settled with [o]: the loop
    of [MultiStepInput.step] takes [o] and the [finally] disposes the
    current widget. *)
Definition leave_step (o : StepOutcome) (p : Promise string)
    (this : MultiStepInput) : Prompt :=
  match settled o this with
  | (Continue None, this') =>
      {| input := finally this'; pastedCode := p; wizard := Fulfilled |}
  | (Continue (Some _), this') =>
      {| input := this'; pastedCode := p; wizard := Running |}
  | (Exit e, this') =>
      {| input := finally this'; pastedCode := p; wizard := Rejected e |}
  end.

(** An event of the input box.  The listeners run while the promise of
    [showInputBox] is pending; when it settles, the step goes on:
    [resolveCode(nonce, pastedCode)] on a value, [cancelTokenSource.cancel()]
    on [InputFlowAction.cancel], a rethrow otherwise. *)
Definition on_input (options : OAuth2TriggerOptions) (ev : InputEvent)
    (i : Invocation) : Invocation :=
  match prompt i with
  | Some pr =>
      match pastedCode pr with
      | Pending =>
          let this :=
            on_current (fun w => fst (listeners AUTHORIZATION_CODE_BOX ev w))
                       (input pr) in
          let box := default createInputBox
                       (current (input pr) ≫= fun k => widgets (input pr) !! k) in
          match snd (listeners AUTHORIZATION_CODE_BOX ev box) with
          | Pending =>
              with_prompt {| input := this; pastedCode := Pending;
                             wizard := Running |} i
          | Resolved pasted =>
              let i1 := with_registry (clock i)
                          (CodeManager.resolveCode (nonce options) pasted
                             (codeManager i)) i in
              with_prompt (leave_step (Return None) (Resolved pasted) this) i1
          | Failed InputFlowAction_cancel =>
              with_prompt
                (leave_step (Return None) (Failed InputFlowAction_cancel) this)
                (cancel i)
          | Failed e =>
              with_prompt (leave_step (Throw e) (Failed e) this) i
          end
      | _ => i
      end
  | None => i
  end.

(** What happens to an invocation, one turn of the event loop each. *)
Inductive Event :=
| AsExternalUriResolved (uri : string)
| AsExternalUriRejected (message : string)
| OpenExternalResolved (success : bool)
| OpenExternalRejected (message : string)
| Input (ev : InputEvent)
| CallerCancels
| Registry (op : CodeManager.Op).

(** The registry is shared by the invocations on one flow object, so other
    parties register, deliver codes and cancel, and time passes.  The token
    of this invocation is private to its source: nobody else fires it. *)
Definition on_registry (op : CodeManager.Op) (i : Invocation) : Invocation :=
  match op with
  | CodeManager.CancellationRequested tk =>
      if Nat.eqb tk (token (cancelTokenSource i)) then i
      else with_registry (clock i)
             (CodeManager.cancellationRequested tk (codeManager i)) i
  | _ =>
      let '(now, cm) := CodeManager.apply op (clock i, codeManager i) in
      with_registry now cm i
  end.

Definition handle (cfg : Config) (options : OAuth2TriggerOptions)
    (ev : Event) (i : Invocation) : Invocation :=
  match ev with
  | AsExternalUriResolved uri =>
      match phase i with
      | AwaitingExternalUri =>
          {| clock := clock i; codeManager := codeManager i;
             cancelTokenSource := cancelTokenSource i;
             codePromise := codePromise i; phase := AwaitingOpenExternal;
             opened := opened i ++ [authUrlOptions cfg options uri];
             prompt := prompt i; outcome := outcome i |}
      | _ => i
      end
  | AsExternalUriRejected message =>
      match phase i with
      | AwaitingExternalUri => finish (inr (Host message)) i
      | _ => i
      end
  | OpenExternalResolved _ =>
      match phase i with
      | AwaitingOpenExternal =>
          await_code cfg (with_phase AwaitingCode (promptForAuthorizationCode i))
      | _ => i
      end
  | OpenExternalRejected message =>
      match phase i with
      | AwaitingOpenExternal => finish (inr (Host message)) i
      | _ => i
      end
  | Input ev => await_code cfg (on_input options ev i)
  | CallerCancels => await_code cfg (cancel i)
  | Registry op => await_code cfg (on_registry op i)
  end.

(** [trigger(options)] up to its first [await], at time [now] on a flow
    object whose registry is [cm]; [tk] names the token of the new
    [CancellationTokenSource]. *)
Definition trigger (options : OAuth2TriggerOptions) (tk : nat) (now : Z)
    (cm : CodeManager.t) : Invocation :=
  let '(p, cm') := CodeManager.waitForCode now (nonce options) tk cm in
  {| clock := now; codeManager := cm';
     cancelTokenSource := {| token := tk; isCancellationRequested := false;
                             isDisposed := false |};
     codePromise := p; phase := AwaitingExternalUri; opened := [];
     prompt := None; outcome := None |}.

(** An invocation followed through a sequence of events. *)
Definition after (cfg : Config) (options : OAuth2TriggerOptions)
    (evs : list Event) (i : Invocation) : Invocation :=
  foldl (fun i ev => handle cfg options ev i) i evs.

(** The input box of the wizard, when there is one. *)
Definition inputBox (i : Invocation) : option QuickInput :=
  pr ← prompt i; k ← current (input pr); widgets (input pr) !! k.

(** ** Invariants of an invocation *)

(** How the promise of the wait stands: [None] while it is pending. *)
Definition settledCode (i : Invocation) : option CodeManager.Settlement :=
  CodeManager.settlements (codeManager i) !! codePromise i.

(** The wizard holds one box.  While the promise of the box is pending the
    wizard runs and the box is on screen; once it is settled the wizard
    has ended and the box has been disposed, once. *)
Definition prompt_ok (pr : Prompt) : Prop :=
  exists w,
    current (input pr) = Some 0
    /\ widgets (input pr) = [w]
    /\ invoked (input pr) = [authorizationCodeStep]
    /\ match pastedCode pr with
       | Pending =>
           wizard pr = Running /\ steps (input pr) = [authorizationCodeStep]
           /\ visible w = true /\ disposeCalls w = 0
       | _ =>
           wizard pr <> Running /\ visible w = false /\ disposeCalls w = 1
       end.

Definition prompted (i : Invocation) : Prop :=
  (phase i = AwaitingCode -> prompt i <> None)
  /\ (prompt i <> None -> phase i = AwaitingCode \/ phase i = Done)
  /\ (forall pr, prompt i = Some pr -> prompt_ok pr).

(** The registry owns the promise of the wait, and the state of the
    invocation agrees with it, except that a settled wait may not have
    been taken up yet. *)
Definition loose (cfg : Config) (options : OAuth2TriggerOptions) (tk : nat)
    (start : Z) (before : list (string * string)) (p : nat) (i : Invocation)
  : Prop :=
  codePromise i = p
  /\ token (cancelTokenSource i) = tk
  /\ CodeManager.owns (nonce options) p (CodeManager.entry p tk start)
       (codeManager i)
  /\ CodeManager.heard (nonce options) p before (codeManager i)
  /\ (phase i = Done <-> outcome i <> None)
  /\ (isDisposed (cancelTokenSource i) = true <-> phase i = Done)
  /\ (isCancellationRequested (cancelTokenSource i) = true ->
      phase i = Done \/ settledCode i <> None)
  /\ (forall r, outcome i = Some (inl r) ->
       redirectUri r = PROXIED_REDIRECT_URI cfg
       /\ settledCode i = Some (CodeManager.Code (code r)))
  /\ (forall e, outcome i = Some (inr (Wait e)) ->
       settledCode i = Some (CodeManager.Fail e)).

(** The invariant between two turns of the event loop: an invocation
    suspended at [await code] has a pending wait. *)
Definition consistent (cfg : Config) (options : OAuth2TriggerOptions)
    (tk : nat) (start : Z) (before : list (string * string)) (p : nat)
    (i : Invocation) : Prop :=
  loose cfg options tk start before p i
  /\ (phase i = AwaitingCode -> settledCode i = None).

End Proxied.

(* ===================================================================== *)
(** * JS strings *)
(* ===================================================================== *)

Module JS.

(** A JS string: the sequence of its UTF-16 code units, each a number
    below 65536. *)
Definition t : Type := list N.

(** The JS string of a text whose characters are below 256: every
    character is one code unit. *)
Fixpoint of_string (s : string) : t :=
  match s with
  | EmptyString => []
  | String c s' => Ascii.N_of_ascii c :: of_string s'
  end.

End JS.

(* ===================================================================== *)
(** * JSON.stringify and JSON.parse *)
(* ===================================================================== *)

(** The two built-ins [storage.ts] calls.  A text is read in two steps:
    it is cut into tokens, with the insignificant white space between
    them dropped, and the tokens are read as a value.  A number is kept
    as the literal that denotes it: the code looks at the type of a
    value, never at a number, and hands no number to [stringify]. *)
Module JSON.

#[local] Unset Elimination Schemes.
Inductive value :=
| Null
| Bool (b : bool)
| Num (literal : JS.t)
| Str (s : JS.t)
| Arr (elements : list value)
| Obj (members : list (JS.t * value)).
#[local] Set Elimination Schemes.

Inductive token :=
| LBracket
| RBracket
| LBrace
| RBrace
| Comma
| Colon
| TStr (s : JS.t)
| TNum (literal : JS.t)
| TTrue
| TFalse
| TNull.

(** Code units with a role in the grammar. *)
Definition QUOTE : N := 34.
Definition BACKSLASH : N := 92.
Definition COMMA : N := 44.
Definition COLON : N := 58.
Definition LBRACKET : N := 91.
Definition RBRACKET : N := 93.
Definition LBRACE : N := 123.
Definition RBRACE : N := 125.

(** ** stringify *)

(** A lower-case hexadecimal digit. *)
Definition hex (d : N) : N := (if d <? 10 then 48 + d else 87 + d)%N.

(** The escape [\uXXXX] of a code unit, in front of [k]. *)
Definition escape (n : N) (k : JS.t) : JS.t :=
  BACKSLASH :: 117%N
    :: hex (n / 16 / 16 / 16) :: hex ((n / 16 / 16) mod 16)
    :: hex ((n / 16) mod 16) :: hex (n mod 16) :: k.

(** The two halves of a surrogate pair. *)
Definition is_high (n : N) : bool := ((55296 <=? n) && (n <=? 56319))%N.
Definition is_low (n : N) : bool := ((56320 <=? n) && (n <=? 57343))%N.

(** QuoteJSONString, one code unit that is not part of a surrogate pair:
    the quotation mark and the backslash are escaped, the control
    characters are written as their short escape or as a [\u00XX]
    escape, a lone surrogate as its [\uXXXX] escape, everything else as
    it is. *)
Definition write_unit (n : N) (k : JS.t) : JS.t :=
  if (n =? QUOTE)%N then BACKSLASH :: QUOTE :: k
  else if (n =? BACKSLASH)%N then BACKSLASH :: BACKSLASH :: k
  else if (n =? 8)%N then BACKSLASH :: 98%N :: k
  else if (n =? 12)%N then BACKSLASH :: 102%N :: k
  else if (n =? 10)%N then BACKSLASH :: 110%N :: k
  else if (n =? 13)%N then BACKSLASH :: 114%N :: k
  else if (n =? 9)%N then BACKSLASH :: 116%N :: k
  else if (n <? 32)%N then escape n k
  else if is_high n || is_low n then escape n k
  else n :: k.

(** The code units of a string; a surrogate pair is written as it is. *)
Fixpoint write_chars (s : JS.t) (k : JS.t) : JS.t :=
  match s with
  | [] => k
  | n :: s' =>
      match s' with
      | m :: s'' =>
          if is_high n && is_low m then n :: m :: write_chars s'' k
          else write_unit n (write_chars s' k)
      | [] => write_unit n k
      end
  end.

Definition write_string (s : JS.t) (k : JS.t) : JS.t :=
  QUOTE :: write_chars s (QUOTE :: k).

(** The text of a token, in front of [k]. *)
Definition render (t : token) (k : JS.t) : JS.t :=
  match t with
  | LBracket => LBRACKET :: k
  | RBracket => RBRACKET :: k
  | LBrace => LBRACE :: k
  | RBrace => RBRACE :: k
  | Comma => COMMA :: k
  | Colon => COLON :: k
  | TStr s => write_string s k
  | TNum literal => literal ++ k
  | TTrue => JS.of_string "true" ++ k
  | TFalse => JS.of_string "false" ++ k
  | TNull => JS.of_string "null" ++ k
  end.

(** The tokens of a value, in front of [k].  The properties of an object
    come in the order of the list, which is the order of the object's
    properties. *)
Fixpoint tokens (v : value) (k : list token) : list token :=
  match v with
  | Null => TNull :: k
  | Bool true => TTrue :: k
  | Bool false => TFalse :: k
  | Num literal => TNum literal :: k
  | Str s => TStr s :: k
  | Arr l =>
      LBracket ::
        match l with
        | [] => RBracket :: k
        | x :: l' =>
            tokens x
              ((fix rest (l : list value) : list token :=
                  match l with
                  | [] => RBracket :: k
                  | y :: l'' => Comma :: tokens y (rest l'')
                  end) l')
        end
  | Obj ms =>
      LBrace ::
        match ms with
        | [] => RBrace :: k
        | (key, x) :: ms' =>
            TStr key :: Colon ::
              tokens x
                ((fix rest (ms : list (JS.t * value)) : list token :=
                    match ms with
                    | [] => RBrace :: k
                    | (key', y) :: ms'' =>
                        Comma :: TStr key' :: Colon :: tokens y (rest ms'')
                    end) ms')
        end
  end.

(** The tokens [toks] with the text [gap i] in front of the [i]-th of
    them, counting from [i], and after the last. *)
Fixpoint spaced (gap : nat -> JS.t) (i : nat) (toks : list token) : JS.t :=
  match toks with
  | [] => gap i
  | t :: toks' => gap i ++ render t (spaced gap (S i) toks')
  end.

(** [JSON.stringify(v)]: the tokens with nothing between them. *)
Definition stringify (v : value) : JS.t := spaced (fun _ => []) 0 (tokens v []).

(** ** parse *)

(** Insignificant white space: space, tab, line feed, carriage return. *)
Definition is_ws (c : N) : bool :=
  ((c =? 32) || (c =? 9) || (c =? 10) || (c =? 13))%N.

Fixpoint skip_ws (s : JS.t) : JS.t :=
  match s with
  | c :: r => if is_ws c then skip_ws r else s
  | [] => []
  end.

Definition is_digit (c : N) : bool := ((48 <=? c) && (c <=? 57))%N.

(** The digits in front of a text, and the text that follows. *)
Fixpoint digits (s : JS.t) : JS.t * JS.t :=
  match s with
  | c :: r =>
      if is_digit c then let '(ds, r') := digits r in (c :: ds, r')
      else ([], s)
  | [] => ([], [])
  end.

(** One or more digits. *)
Definition digits1 (s : JS.t) : option (JS.t * JS.t) :=
  match digits s with
  | ([], _) => None
  | (ds, r) => Some (ds, r)
  end.

(** A number in front of a text: its literal and the text that follows.
    The literal is an optional minus sign, then a zero or a digit from 1
    to 9 followed by any digits, then optionally a point with one or
    more digits, then optionally an [e] or [E] with an optional sign and
    one or more digits. *)
Definition number (s : JS.t) : option (JS.t * JS.t) :=
  let '(sign, s1) :=
    match s with
    | c :: r => if (c =? 45)%N then ([c], r) else ([], s)
    | [] => ([], s)
    end in
  '(int, s2) ←
    match s1 with
    | c :: r =>
        if (c =? 48)%N then Some ([c], r)
        else if is_digit c then let '(ds, r') := digits r in Some (c :: ds, r')
        else None
    | [] => None
    end;
  '(frac, s3) ←
    match s2 with
    | c :: r =>
        if (c =? 46)%N then '(ds, r') ← digits1 r; Some (c :: ds, r')
        else Some ([], s2)
    | [] => Some ([], s2)
    end;
  '(exp, s4) ←
    match s3 with
    | c :: r =>
        if ((c =? 101) || (c =? 69))%N then
          let '(esign, r1) :=
            match r with
            | d :: r' => if ((d =? 43) || (d =? 45))%N then ([d], r') else ([], r)
            | [] => ([], r)
            end in
          '(ds, r') ← digits1 r1; Some (c :: esign ++ ds, r')
        else Some ([], s3)
    | [] => Some ([], s3)
    end;
  Some (sign ++ int ++ frac ++ exp, s4).

Definition hexval (c : N) : option N :=
  if ((48 <=? c) && (c <=? 57))%N then Some (c - 48)%N
  else if ((97 <=? c) && (c <=? 102))%N then Some (c - 87)%N
  else if ((65 <=? c) && (c <=? 70))%N then Some (c - 55)%N
  else None.

Definition push (c : N) (o : option (JS.t * JS.t)) : option (JS.t * JS.t) :=
  match o with
  | Some (s, r) => Some (c :: s, r)
  | None => None
  end.

(** The characters of a string literal after its opening quotation mark,
    up to the closing one: the string and the text that follows. *)
Fixpoint read_chars (s : JS.t) : option (JS.t * JS.t) :=
  match s with
  | [] => None
  | n :: r =>
      if (n =? QUOTE)%N then Some ([], r)
      else if (n =? BACKSLASH)%N then
        match r with
        | [] => None
        | e :: r1 =>
            if (e =? QUOTE)%N then push QUOTE (read_chars r1)
            else if (e =? BACKSLASH)%N then push BACKSLASH (read_chars r1)
            else if (e =? 47)%N then push 47%N (read_chars r1)
            else if (e =? 98)%N then push 8%N (read_chars r1)
            else if (e =? 102)%N then push 12%N (read_chars r1)
            else if (e =? 110)%N then push 10%N (read_chars r1)
            else if (e =? 114)%N then push 13%N (read_chars r1)
            else if (e =? 116)%N then push 9%N (read_chars r1)
            else if (e =? 117)%N then
              match r1 with
              | h1 :: h2 :: h3 :: h4 :: r2 =>
                  match hexval h1, hexval h2, hexval h3, hexval h4 with
                  | Some a, Some b, Some c, Some d =>
                      push (((a * 16 + b) * 16 + c) * 16 + d)%N (read_chars r2)
                  | _, _, _, _ => None
                  end
              | _ => None
              end
            else None
        end
      else if (n <? 32)%N then None
      else push n (read_chars r)
  end.

(** The literal [word] in front of a text. *)
Fixpoint expect (word : JS.t) (s : JS.t) : option JS.t :=
  match word, s with
  | [], _ => Some s
  | w :: word', c :: r => if (w =? c)%N then expect word' r else None
  | _ :: _, [] => None
  end.

(** The token in front of a text that starts with no white space. *)
Definition scan (s : JS.t) : option (token * JS.t) :=
  match s with
  | [] => None
  | c :: r =>
      if (c =? LBRACKET)%N then Some (LBracket, r)
      else if (c =? RBRACKET)%N then Some (RBracket, r)
      else if (c =? LBRACE)%N then Some (LBrace, r)
      else if (c =? RBRACE)%N then Some (RBrace, r)
      else if (c =? COMMA)%N then Some (Comma, r)
      else if (c =? COLON)%N then Some (Colon, r)
      else if (c =? QUOTE)%N then
        '(str, r') ← read_chars r; Some (TStr str, r')
      else if (c =? 116)%N then
        r' ← expect (JS.of_string "rue") r; Some (TTrue, r')
      else if (c =? 102)%N then
        r' ← expect (JS.of_string "alse") r; Some (TFalse, r')
      else if (c =? 110)%N then
        r' ← expect (JS.of_string "ull") r; Some (TNull, r')
      else if (c =? 45)%N || is_digit c then
        '(literal, r') ← number s; Some (TNum literal, r')
      else None
  end.

(** The tokens of a text. *)
Fixpoint lex (fuel : nat) (s : JS.t) : option (list token) :=
  match fuel with
  | O => None
  | S fuel' =>
      match skip_ws s with
      | [] => Some []
      | c :: r =>
          '(t, r') ← scan (c :: r);
          ts ← lex fuel' r';
          Some (t :: ts)
      end
  end.

(** A value in front of the tokens: the value and the tokens that
    follow.  [read_elements] and [read_members] read what follows an
    element of an array, a member of an object. *)
Fixpoint read (fuel : nat) (ts : list token) : option (value * list token) :=
  match fuel with
  | O => None
  | S fuel' =>
      match ts with
      | TNull :: r => Some (Null, r)
      | TTrue :: r => Some (Bool true, r)
      | TFalse :: r => Some (Bool false, r)
      | TNum literal :: r => Some (Num literal, r)
      | TStr s :: r => Some (Str s, r)
      | LBracket :: RBracket :: r => Some (Arr [], r)
      | LBracket :: r =>
          '(x, r1) ← read fuel' r;
          '(xs, r2) ← read_elements fuel' r1;
          Some (Arr (x :: xs), r2)
      | LBrace :: RBrace :: r => Some (Obj [], r)
      | LBrace :: TStr key :: Colon :: r =>
          '(x, r1) ← read fuel' r;
          '(ms, r2) ← read_members fuel' r1;
          Some (Obj ((key, x) :: ms), r2)
      | _ => None
      end
  end
with read_elements (fuel : nat) (ts : list token)
  : option (list value * list token) :=
  match fuel with
  | O => None
  | S fuel' =>
      match ts with
      | RBracket :: r => Some ([], r)
      | Comma :: r =>
          '(x, r1) ← read fuel' r;
          '(xs, r2) ← read_elements fuel' r1;
          Some (x :: xs, r2)
      | _ => None
      end
  end
with read_members (fuel : nat) (ts : list token)
  : option (list (JS.t * value) * list token) :=
  match fuel with
  | O => None
  | S fuel' =>
      match ts with
      | RBrace :: r => Some ([], r)
      | Comma :: TStr key :: Colon :: r =>
          '(x, r1) ← read fuel' r;
          '(ms, r2) ← read_members fuel' r1;
          Some ((key, x) :: ms, r2)
      | _ => None
      end
  end.

(** [JSON.parse(text)]: [None] for the [SyntaxError].  A text has no
    more tokens than code units, and a value is no deeper than it has
    tokens. *)
Definition parse (text : JS.t) : option value :=
  ts ← lex (S (length text)) text;
  match read (S (length ts)) ts with
  | Some (v, []) => Some v
  | _ => None
  end.

(** The number of calls of [read], [read_elements] and [read_members]
    nested in reading a value. *)
Fixpoint depth (v : value) : nat :=
  match v with
  | Arr l =>
      S ((fix go (l : list value) : nat :=
            match l with
            | [] => 0
            | x :: l' => S (depth x + go l')
            end) l)
  | Obj ms =>
      S ((fix go (ms : list (JS.t * value)) : nat :=
            match ms with
            | [] => 0
            | (_, x) :: ms' => S (depth x + go ms')
            end) ms)
  | _ => 1
  end.

(** What [tokens] puts after the first element of an array, the first
    member of an object, and the part of [depth] that goes with it. *)
Definition tokens_elements (l : list value) (k : list token) : list token :=
  (fix rest (l : list value) : list token :=
     match l with
     | [] => RBracket :: k
     | y :: l'' => Comma :: tokens y (rest l'')
     end) l.

Definition tokens_members (ms : list (JS.t * value)) (k : list token)
  : list token :=
  (fix rest (ms : list (JS.t * value)) : list token :=
     match ms with
     | [] => RBrace :: k
     | (key', y) :: ms'' =>
         Comma :: TStr key' :: Colon :: tokens y (rest ms'')
     end) ms.

Definition depth_elements (l : list value) : nat :=
  (fix go (l : list value) : nat :=
     match l with
     | [] => 0
     | x :: l' => S (depth x + go l')
     end) l.

Definition depth_members (ms : list (JS.t * value)) : nat :=
  (fix go (ms : list (JS.t * value)) : nat :=
     match ms with
     | [] => 0
     | (_, x) :: ms' => S (depth x + go ms')
     end) ms.

(** A token other than a number. *)
Definition plain (t : token) : bool :=
  match t with
  | TNum _ => false
  | _ => true
  end.

(** A value without numbers. *)
Fixpoint numberless (v : value) : bool :=
  match v with
  | Num _ => false
  | Arr l => forallb numberless l
  | Obj ms => forallb (fun m => numberless (snd m)) ms
  | _ => true
  end.

(** [o[key]] on a parsed object: the last member of that name. *)
Fixpoint get (key : JS.t) (members : list (JS.t * value)) : option value :=
  match members with
  | [] => None
  | (k, v) :: members' =>
      match get key members' with
      | Some v' => Some v'
      | None => if bool_decide (k = key) then Some v else None
      end
  end.

End JSON.

(* ===================================================================== *)
(** * src/auth/storage.ts *)
(* ===================================================================== *)

Module Storage.

(** [vscode.AuthenticationSessionAccountInformation] *)
Module Account.
Record t := {
  id : JS.t;
  label : JS.t;
}.
End Account.

(** [vscode.AuthenticationSession], by what its properties hold. *)
Record AuthenticationSession := {
  id : JS.t;
  accessToken : JS.t;
  account : Account.t;
  scopes : list JS.t;
}.

(** [PROVIDER_ID] comes from [config/constants], which is not in the
    sources at hand: the functions take it as [provider]. *)
Definition SESSIONS_KEY (provider : string) : string := provider +:+ ".sessions".

(** A call on the [vscode.SecretStorage]. *)
Inductive Call :=
| Get (key : string)
| Store (key : string) (value : JS.t)
| Delete (key : string).

(** The secret storage: what it holds, and the calls made on it. *)
Record SecretStorage := {
  secrets : gmap string JS.t;
  calls : list Call;
}.

Inductive Error :=
| SyntaxError
| ZodError
| UnexpectedNumberOfSessions (n : nat).

(** A computation on the secret storage that returns or throws. *)
Definition M (A : Type) : Type := SecretStorage -> (Error + A) * SecretStorage.

Definition ret {A} (a : A) : M A := fun st => (inr a, st).
Definition throw {A} (e : Error) : M A := fun st => (inl e, st).
Definition bind {A B} (m : M A) (k : A -> M B) : M B := fun st =>
  match m st with
  | (inr a, st') => k a st'
  | (inl e, st') => (inl e, st')
  end.

Notation "'let!' x ':=' m 'in' k" := (bind m (fun x => k))
  (at level 10, x name, m at level 100, k at level 200).

Definition secrets_get (key : string) : M (option JS.t) := fun st =>
  (inr (secrets st !! key),
   {| secrets := secrets st; calls := calls st ++ [Get key] |}).

Definition secrets_store (key : string) (value : JS.t) : M unit := fun st =>
  (inr tt,
   {| secrets := <[key := value]> (secrets st);
      calls := calls st ++ [Store key value] |}).

Definition secrets_delete (key : string) : M unit := fun st =>
  (inr tt,
   {| secrets := delete key (secrets st); calls := calls st ++ [Delete key] |}).

(** ** The Zod schemas *)

(** [z.string()] *)
Definition z_string (v : JSON.value) : option JS.t :=
  match v with
  | JSON.Str s => Some s
  | _ => None
  end.

(** [z.array(item)] *)
Definition z_array {A} (item : JSON.value -> option A) (v : JSON.value)
  : option (list A) :=
  match v with
  | JSON.Arr l => mapM item l
  | _ => None
  end.

(** The property [key] of an object, parsed with [item]: a missing
    property fails as any ill-typed one. *)
Definition z_property {A} (key : string) (item : JSON.value -> option A)
    (members : list (JS.t * JSON.value)) : option A :=
  JSON.get (JS.of_string key) members ≫= item.

(** [AuthenticationSessionAccountInformationSchema]; unknown keys are
    stripped. *)
Definition AuthenticationSessionAccountInformationSchema (v : JSON.value)
  : option Account.t :=
  match v with
  | JSON.Obj members =>
      i ← z_property "id" z_string members;
      l ← z_property "label" z_string members;
      Some {| Account.id := i; Account.label := l |}
  | _ => None
  end.

(** The element schema of [AuthenticationSessionsSchema]. *)
Definition AuthenticationSessionSchema (v : JSON.value)
  : option AuthenticationSession :=
  match v with
  | JSON.Obj members =>
      i ← z_property "id" z_string members;
      tok ← z_property "accessToken" z_string members;
      acc ← z_property "account"
              AuthenticationSessionAccountInformationSchema members;
      sc ← z_property "scopes" (z_array z_string) members;
      Some {| id := i; accessToken := tok; account := acc; scopes := sc |}
  | _ => None
  end.

(** [AuthenticationSessionsSchema.parse]: an array of sessions of length
    one; [None] for the [ZodError]. *)
Definition AuthenticationSessionsSchema (v : JSON.value)
  : option (list AuthenticationSession) :=
  l ← z_array AuthenticationSessionSchema v;
  if Nat.eqb (length l) 1 then Some l else None.

(** ** A session as [JSON.stringify] sees it *)

(** The properties of a session object and of its account. *)
Inductive Property := P_id | P_accessToken | P_account | P_scopes.
Inductive AccountProperty := P_account_id | P_account_label.

#[global] Instance Property_eq_dec : EqDecision Property.
Proof. solve_decision. Defined.
#[global] Instance AccountProperty_eq_dec : EqDecision AccountProperty.
Proof. solve_decision. Defined.

Definition PROPERTIES : list Property :=
  [P_id; P_accessToken; P_account; P_scopes].
Definition ACCOUNT_PROPERTIES : list AccountProperty :=
  [P_account_id; P_account_label].

Definition account_member (a : Account.t) (p : AccountProperty)
  : JS.t * JSON.value :=
  match p with
  | P_account_id => (JS.of_string "id", JSON.Str (Account.id a))
  | P_account_label => (JS.of_string "label", JSON.Str (Account.label a))
  end.

Definition member (account_order : list AccountProperty)
    (s : AuthenticationSession) (p : Property) : JS.t * JSON.value :=
  match p with
  | P_id => (JS.of_string "id", JSON.Str (id s))
  | P_accessToken => (JS.of_string "accessToken", JSON.Str (accessToken s))
  | P_account =>
      (JS.of_string "account",
       JSON.Obj (account_member (account s) <$> account_order))
  | P_scopes => (JS.of_string "scopes", JSON.Arr (JSON.Str <$> scopes s))
  end.

(** The object of a session whose properties were set in the order
    [order], those of its account in the order [account_order]:
    [JSON.stringify] writes the properties of an object in the order in
    which they were set. *)
Definition object (order : list Property)
    (account_order : list AccountProperty) (s : AuthenticationSession)
  : JSON.value :=
  JSON.Obj (member account_order s <$> order).

(** [o] is an object of the session [s]: it has the four properties of
    [s], and its account the two of the account, each once and in any
    order. *)
Definition is_session (o : JSON.value) (s : AuthenticationSession) : Prop :=
  exists order account_order,
    order ≡ₚ PROPERTIES /\ account_order ≡ₚ ACCOUNT_PROPERTIES
    /\ o = object order account_order s.

(** ** AuthStorage *)

Definition parseAuthenticationSessions (sessionsJson : JS.t)
  : M (list AuthenticationSession) :=
  match JSON.parse sessionsJson with
  | None => throw SyntaxError
  | Some sessions =>
      match AuthenticationSessionsSchema sessions with
      | None => throw ZodError
      | Some l => ret l
      end
  end.

Definition getSession (provider : string) : M (option AuthenticationSession) :=
  let! sessionJson := secrets_get (SESSIONS_KEY provider) in
  match sessionJson with
  | None => ret None
  | Some [] => ret None
  | Some text =>
      let! sessions := parseAuthenticationSessions text in
      if negb (Nat.eqb (length sessions) 1)
      then throw (UnexpectedNumberOfSessions (length sessions))
      else ret (head sessions)
  end.

(** [storeSession(session)], for the object [session] as it is given. *)
Definition storeSession (provider : string) (session : JSON.value) : M unit :=
  secrets_store (SESSIONS_KEY provider)
    (JSON.stringify (JSON.Arr [session])).

Definition removeSession (provider : string) (sessionId : JS.t)
  : M (option AuthenticationSession) :=
  let! session := getSession provider in
  match session with
  | None => ret None
  | Some session =>
      if negb (bool_decide (id session = sessionId)) then ret None
      else
        let! _ := secrets_delete (SESSIONS_KEY provider) in
        ret (Some session)
  end.

(** The storage holds the object [session]: the text under the key is
    the one [storeSession] writes for it. *)
Definition holds (provider : string) (session : JSON.value)
    (st : SecretStorage) : Prop :=
  secrets st !! SESSIONS_KEY provider
  = Some (JSON.stringify (JSON.Arr [session])).

End Storage.

(** Fixtures of [storage.unit.test.ts]. *)
Module StorageTests.
Import Storage.

Definition PROVIDER_ID : string := "google".

(** [DEFAULT_SESSION], by what it holds and as the object literal. *)
Definition DEFAULT_SESSION : AuthenticationSession :=
  {| id := JS.of_string "1"; accessToken := JS.of_string "42";
     account := {| Account.id := JS.of_string "foo";
                   Account.label := JS.of_string "bar" |};
     scopes := [JS.of_string "baz"] |}.

Definition DEFAULT_SESSION_OBJECT : JSON.value :=
  object [P_id; P_accessToken; P_account; P_scopes]
    [P_account_id; P_account_label] DEFAULT_SESSION.

(** A JSON text, written with an apostrophe for each quotation mark. *)
Definition text (s : string) : JS.t :=
  (fun c => if (c =? 39)%N then 34%N else c) <$> JS.of_string s.

(** [{ ...DEFAULT_SESSION, account: "shouldn't be a string" }], with the
    apostrophe left out of the text. *)
Definition MALFORMED_SESSION_OBJECT : JSON.value :=
  JSON.Obj [(JS.of_string "id", JSON.Str (JS.of_string "1"));
            (JS.of_string "accessToken", JSON.Str (JS.of_string "42"));
            (JS.of_string "account",
             JSON.Str (JS.of_string "should not be a string"));
            (JS.of_string "scopes", JSON.Arr [JSON.Str (JS.of_string "baz")])].

(** [new SecretStorageFake()] *)
Definition emptyStorage : SecretStorage := {| secrets := ∅; calls := [] |}.

End StorageTests.

(* ===================================================================== *)
(** * src/auth/provider.ts *)
(* ===================================================================== *)

Module Provider.

Definition REQUIRED_SCOPES : list string := ["profile"; "email"].

(** [Array.from(new Set(l))]: the elements of [l] in the order of their
    first occurrence. *)
Definition Array_from_Set (l : list string) : list string :=
  foldl (fun acc x => if bool_decide (x ∈ acc) then acc else acc ++ [x]) [] l.

(** [Array.prototype.sort()] without a comparator orders strings by their
    code units; on a list without duplicates every sorting algorithm gives
    the list below. *)
Fixpoint insert (x : string) (l : list string) : list string :=
  match l with
  | [] => [x]
  | y :: l' => if String.leb x y then x :: y :: l' else y :: insert x l'
  end.

Definition sort (l : list string) : list string := foldr insert [] l.

(** [sortedScopes] of [createSession]. *)
Definition sortedScopes (scopes : list string) : list string :=
  sort (Array_from_Set (scopes ++ REQUIRED_SCOPES)).

(** The options [login] passes to [oAuth2Client.generateAuthUrl];
    [CodeChallengeMethod.S256] is the string "S256". *)
Definition authorizeUrlOptions (scopes callbackUri codeChallenge : string)
  : list (string * string) :=
  [("response_type", "code");
   ("scope", scopes);
   ("state", callbackUri);
   ("prompt", "login");
   ("code_challenge_method", "S256");
   ("code_challenge", codeChallenge)].

(** The URL [login] opens, for the [generateAuthUrl] of the client. *)
Definition authorizeUrl {Url : Type}
    (generateAuthUrl : list (string * string) -> Url)
    (scopes callbackUri codeChallenge : string) : Url :=
  generateAuthUrl (authorizeUrlOptions scopes callbackUri codeChallenge).


(** Strictly increasing in the order of [sort]: sorted, and without
    duplicates. *)
Definition increasing (l : list string) : Prop :=
  StronglySorted (fun a b => String.ltb a b = true) l.

End Provider.

(** Fixtures of [provider.unit.test.ts]. *)
Module ProviderTests.

(** A client whose URLs are their query: it adds its [client_id] and
    [redirect_uri] to the options. *)
Definition generateAuthUrl (opts : list (string * string))
  : list (string * string) :=
  opts ++ [("client_id", "testClientId");
           ("redirect_uri", "https://localhost:8888/vscode/redirect")].

End ProviderTests.

(** Fixtures of [proxied.unit.test.ts]. *)
Module ProxiedTests.
Import MultiStep Proxied.

Definition NONCE : string := "nonce".
Definition CODE : string := "42".
Definition EXTERNAL_CALLBACK_URI : string :=
  "vscode://google.colab?nonce=nonce&windowId=1".

(** The value of [CONFIG.ColabApiDomain] is not in the sources at hand;
    the tests only need some domain. *)
Definition TEST_CONFIG : Config :=
  {| ColabApiDomain := "https://colab.example";
     DEFAULT_AUTH_URL_OPTS := ∅;
     extensionUri := "vscode://google.colab" |}.

Definition defaultTriggerOpts : OAuth2TriggerOptions :=
  {| nonce := NONCE; scopes := ["foo"]; pkceChallenge := "1 + 1 = ?" |}.

(** [flow.trigger(defaultTriggerOpts)] on a new flow. *)
Definition triggered : Invocation :=
  trigger defaultTriggerOpts 0 0 CodeManager.empty.

(** The host calls of [trigger] succeed and the box is shown. *)
Definition shows_the_box : list Event :=
  [AsExternalUriResolved EXTERNAL_CALLBACK_URI; OpenExternalResolved true].

(** "triggers and resolves the authentication flow" *)
Definition pastes_the_code : list Event :=
  shows_the_box ++ [Input (DidChangeValue CODE); Input DidAccept].

(** "cancels auth when the user dismisses the input box" *)
Definition dismisses_the_box : list Event :=
  shows_the_box ++ [Input DidHide].

(** "throws an error when the code exchange times out", with the box on
    screen before the clock is advanced. *)
Definition waits_too_long : list Event :=
  shows_the_box ++ [Registry (CodeManager.Elapse 60000)].

End ProxiedTests.

(** Fixtures of [multi-step-quickpick.unit.test.ts]. *)
Module MultiStepTests.
Import MultiStep.

Definition first : InputStep := 1.
Definition second : InputStep := 2.

(** "goes back a step when one past the first": [first] always chains
    [second]; [second] throws [back] on its first call and completes on
    its second. *)
Definition goes_back_once : Behaviour := fun calls s =>
  {| shown := [];
     outcome :=
       if Nat.eqb s first then Return (Some second)
       else if bool_decide (s ∈ calls) then Return None
       else Throw InputFlowAction_back |}.

(** "validates the input as it changes" *)
Definition needFoo : string := "Nope, need 'foo'".

Definition ENTER_FOO : InputBoxOptions :=
  {| o_title := "Got a value?"; o_step := Some 1; o_totalSteps := Some 1;
     o_buttons := None; o_value := ""; o_prompt := "Enter a value";
     o_validate := fun text => if String.eqb text "foo" then None else Some needFoo;
     o_placeholder := None |}.

End MultiStepTests.

(* ===================================================================== *)
(** * src/common/multi-step-quickpick.ts: showQuickPick, and whole runs *)
(* ===================================================================== *)

Module QuickPick.
Import MultiStep.

Record QuickPickOptions (T : Type) := {
  q_title : string;
  q_step : option nat;
  q_totalSteps : option nat;
  q_buttons : option (list QuickInputButton);
  q_items : list T;
  q_placeholder : option string;
  q_activeItem : option T;
}.
Arguments q_title {T} _.
Arguments q_step {T} _.
Arguments q_totalSteps {T} _.
Arguments q_buttons {T} _.
Arguments q_items {T} _.
Arguments q_placeholder {T} _.
Arguments q_activeItem {T} _.

(** A [vscode.QuickPick<T>]: its [QuickInput] part and the two lists the
    code writes. *)
Record QuickPick (T : Type) := {
  quickInput : QuickInput;
  items : list T;
  activeItems : list T;
}.
Arguments quickInput {T} _.
Arguments items {T} _.
Arguments activeItems {T} _.

(** What [vs.window.createQuickPick()] returns. *)
Definition createQuickPick {T} : QuickPick T :=
  {| quickInput := createInputBox; items := []; activeItems := [] |}.

(** The widget as configured by the executor of the promise, before
    [show()]. *)
Definition configure {T} (opts : QuickPickOptions T) : QuickPick T :=
  let input := quickInput (@createQuickPick T) in
  {| quickInput :=
       {| title := q_title opts; stepNo := q_step opts;
          totalSteps := q_totalSteps opts; value := value input;
          prompt := prompt input; placeholder := q_placeholder opts;
          buttons := match q_buttons opts with
                     | Some bs => bs
                     | None => buttons input
                     end;
          validationMessage := validationMessage input;
          enabled := enabled input; busy := busy input;
          visible := visible input; disposeCalls := disposeCalls input |};
     items := q_items opts;
     activeItems := match q_activeItem opts with
                    | Some item => [item]
                    | None => activeItems (@createQuickPick T)
                    end |}.

(** The events the host fires on the widget: a change of the selection,
    or one of the events every quick input has. *)
Inductive PickEvent (T : Type) :=
| DidChangeSelection (selectedItems : list T)
| OnQuickInput (ev : InputEvent).
Arguments DidChangeSelection {T} selectedItems.
Arguments OnQuickInput {T} ev.

(** The listeners of [showQuickPick], run on one event while its promise
    is pending: [resolve(selectedItems[0])], which is [undefined] for an
    empty selection, and the two of [configureNavigation]. *)
Definition listeners {T} (ev : PickEvent T) : Promise (option T) :=
  match ev with
  | DidChangeSelection selectedItems => Resolved (head selectedItems)
  | OnQuickInput ev =>
      match configureNavigation ev with
      | Some e => Failed e
      | None => Pending
      end
  end.

(** One event on a shown quick pick; a settled promise stays as it is. *)
Definition pick_event {T} (ev : PickEvent T) (p : Promise (option T))
  : Promise (option T) :=
  match p with
  | Pending => listeners ev
  | _ => p
  end.

(** [showQuickPick(opts)] followed through a sequence of events: the
    widget as shown, and the promise the caller awaits. *)
Definition showQuickPick {T} (opts : QuickPickOptions T)
    (evs : list (PickEvent T)) : QuickPick T * Promise (option T) :=
  ({| quickInput := show (quickInput (configure opts));
      items := items (configure opts);
      activeItems := activeItems (configure opts) |},
   foldl (fun p ev => pick_event ev p) Pending evs).

(** An event that settles nothing: an accept, a change of the filter
    text, a button other than Back. *)
Definition quiet {T} (ev : PickEvent T) : bool :=
  match ev with
  | DidChangeSelection _ => false
  | OnQuickInput DidHide => false
  | OnQuickInput (DidTriggerButton b) =>
      negb (bool_decide (b = QuickInputButtons_Back))
  | OnQuickInput _ => true
  end.

End QuickPick.

Module MultiStepRuns.
Import MultiStep.

(** A widget on screen is the current one. *)
Definition exclusive (this : MultiStepInput) : Prop :=
  forall k w, widgets this !! k = Some w -> visible w = true ->
              current this = Some k.

(** No widget is on screen. *)
Definition cleared (this : MultiStepInput) : Prop :=
  Forall (fun w => visible w = false) (widgets this).

(** From the calls [calls] on, step [s] and then the steps [rest] follow
    each other: each returns the next, the last returns [undefined]. *)
Fixpoint follows (B : Behaviour) (calls : list InputStep) (s : InputStep)
    (rest : list InputStep) : Prop :=
  match rest with
  | [] => outcome (B calls s) = Return None
  | s' :: rest' =>
      outcome (B calls s) = Return (Some s') /\ follows B (calls ++ [s]) s' rest'
  end.

(** The box shows what [validate] says of its text, or nothing yet. *)
Definition message_is_current (opts : InputBoxOptions) (input : QuickInput)
  : Prop :=
  validationMessage input = None
  \/ validationMessage input = o_validate opts (value input).

(** "runs multiple steps": [first] returns [second], [second] returns
    [undefined]. *)
Definition runs_multiple_steps : Behaviour := fun _ s =>
  {| shown := [];
     outcome := if Nat.eqb s MultiStepTests.first
                then Return (Some MultiStepTests.second)
                else Return None |}.

(** A step that shows one input box and fails. *)
Definition shows_a_box_and_fails : Behaviour := fun _ _ =>
  {| shown := [configure MultiStepTests.ENTER_FOO];
     outcome := Throw (OtherError "unexpected") |}.

(** The quick pick of the test-suite, its items named by their labels. *)
Definition ONLY_FOO : QuickPick.QuickPickOptions string :=
  {| QuickPick.q_title := "Select foo"; QuickPick.q_step := Some 1;
     QuickPick.q_totalSteps := Some 1; QuickPick.q_buttons := None;
     QuickPick.q_items := ["foo"]; QuickPick.q_placeholder := None;
     QuickPick.q_activeItem := None |}.

End MultiStepRuns.

(* ===================================================================== *)
(** * src/auth/flows/proxied.ts: what an invocation does on the way *)
(* ===================================================================== *)

Module ProxiedRuns.
Import MultiStep Proxied.

(** An event in which somebody other than the prompt calls
    [resolveCode]. *)
Definition delivers (ev : Event) : bool :=
  match ev with
  | Registry (CodeManager.ResolveCode _ _) => true
  | _ => false
  end.

(** The code the input box was accepted with, if it was. *)
Definition acceptedCode (i : Invocation) : option string :=
  pr ← prompt i;
  match pastedCode pr with
  | Resolved pasted => Some pasted
  | _ => None
  end.

(** The calls of [resolveCode] since [before] are those of the prompt:
    none, or one with the accepted code, which is not empty. *)
Definition pasted (options : OAuth2TriggerOptions)
    (before : list (string * string)) (i : Invocation) : Prop :=
  match acceptedCode i with
  | Some c =>
      c <> ""
      /\ CodeManager.resolveCalls (codeManager i)
         = before ++ [(nonce options, c)]
  | None => CodeManager.resolveCalls (codeManager i) = before
  end.

(** The options of an authorization URL as [trigger] builds them for
    [uri]: its four properties, and the defaults everywhere else. *)
Definition built_for (cfg : Config) (options : OAuth2TriggerOptions)
    (uri : string) (o : gmap string AuthUrlValue) : Prop :=
  o !! "redirect_uri" = Some (One (PROXIED_REDIRECT_URI cfg))
  /\ o !! "state" = Some (One uri)
  /\ o !! "scope" = Some (Many (scopes options))
  /\ o !! "code_challenge" = Some (One (pkceChallenge options))
  /\ forall key,
       key ∉ ["redirect_uri"; "state"; "scope"; "code_challenge"] ->
       o !! key = DEFAULT_AUTH_URL_OPTS cfg !! key.

(** What the browser has been opened with after the events [evs]:
    nothing, and then there is no prompt, or one URL built for a URI
    [asExternalUri] resolved with. *)
Definition browser (cfg : Config) (options : OAuth2TriggerOptions)
    (evs : list Event) (i : Invocation) : Prop :=
  (opened i = [] /\ prompt i = None
   /\ (phase i = AwaitingExternalUri \/ phase i = Done))
  \/ (exists uri,
        AsExternalUriResolved uri ∈ evs
        /\ opened i = [authUrlOptions cfg options uri]
        /\ phase i <> AwaitingExternalUri).

(** A failure of a host call has ended the invocation: no prompt, and
    the registry as it was. *)
Definition failed_on_host (message : string) (cm : CodeManager.t)
    (i : Invocation) : Prop :=
  outcome i = Some (inr (Host message))
  /\ phase i = Done
  /\ isDisposed (cancelTokenSource i) = true
  /\ prompt i = None
  /\ codeManager i = cm.

(** The promise of [trigger] is pending exactly while its body runs. *)
Definition running (i : Invocation) : Prop :=
  (outcome i = None /\ phase i <> Done)
  \/ (outcome i <> None /\ phase i = Done).

(** The events of [ProxiedTests.pastes_the_code], followed by a hide of
    the box, a cancellation by the caller and a minute. *)
Definition goes_on_after_the_code : list Event :=
  [Input DidHide; CallerCancels; Registry (CodeManager.Elapse 60000)].

End ProxiedRuns.

(* ===================================================================== *)
(** * src/auth/provider.ts: the methods of GoogleAuthProvider *)
(* ===================================================================== *)

Module GoogleAuthProvider.

Definition PROVIDER_ID : string := "google".
Definition PROVIDER_LABEL : string := "Google".

(** A thrown value, as the [catch] of [createSession] tells them apart:
    an [Error], by its message, or anything else. *)
Inductive Thrown :=
| Error (message : string)
| NotAnError.

#[global] Instance Thrown_eq_dec : EqDecision Thrown.
Proof. solve_decision. Defined.

(** [vscode.AuthenticationProviderAuthenticationSessionsChangeEvent] *)
Record ChangeEvent := {
  added : list Storage.AuthenticationSession;
  removed : list Storage.AuthenticationSession;
  changed : list Storage.AuthenticationSession;
}.

(** What [login] reads of a [GetTokenResponse]: [res?.status] and
    [tokens.access_token]. *)
Record GetTokenResponse := {
  res_status : option nat;
  tokens_access_token : option string;
}.

(** What [getUserInfo] reads of the [Response] of [fetch]; [text] and
    [json] are how the promises of [text()] and [json()] settle. *)
Record Response := {
  ok : bool;
  statusText : string;
  text : Thrown + string;
  json : Thrown + JSON.value;
}.

(** The world around the provider, by its answers: the host ([vs.env]),
    the package info, [uuid()], the code provider, the OAuth2 client and
    [fetch].  A promise is given by how it settles.  A URL is named by
    the options [generateAuthUrl] built it from.  The messages of the
    errors of [JSON.parse] and of Zod are worded by their libraries. *)
Record Env := {
  uriScheme : string;
  publisher : string;
  name : string;
  uuid : nat -> string;
  waitForCode : string -> Thrown + (Thrown + string);
  asExternalUri : string -> Thrown + string;
  generateCodeVerifierAsync : Thrown + (string * string);
  openExternal : list (string * string) -> Thrown + bool;
  getToken : string -> string -> Thrown + GetTokenResponse;
  fetch : string -> string -> Thrown + Response;
  syntaxErrorMessage : string;
  zodErrorMessage : string;
}.

(** What the provider acts on: the secret storage behind its
    [AuthStorage], the events fired on its emitter, the messages shown in
    the window, the calls of [uuid()] so far and the URLs opened. *)
Record State := {
  storage : Storage.SecretStorage;
  fired : list ChangeEvent;
  errorMessages : list string;
  informationMessages : list string;
  uuids : nat;
  opened : list (list (string * string));
}.

(** A method of the provider: it returns or throws, and acts on the
    state. *)
Definition PM (A : Type) : Type := State -> (Thrown + A) * State.

Definition ret {A} (a : A) : PM A := fun st => (inr a, st).
Definition throw {A} (e : Thrown) : PM A := fun st => (inl e, st).
Definition bind {A B} (m : PM A) (k : A -> PM B) : PM B := fun st =>
  match m st with
  | (inr a, st') => k a st'
  | (inl e, st') => (inl e, st')
  end.

Notation "'let*' x ':=' m 'in' k" := (bind m (fun x => k))
  (at level 10, x name, m at level 100, k at level 200).

(** [await promise], for a promise given by how it settles. *)
Definition await {A} (settled : Thrown + A) : PM A := fun st => (settled, st).

(** [err.message] of an error of [AuthStorage]. *)
Definition message_of (env : Env) (e : Storage.Error) : string :=
  match e with
  | Storage.SyntaxError => syntaxErrorMessage env
  | Storage.ZodError => zodErrorMessage env
  | Storage.UnexpectedNumberOfSessions n =>
      "Unexpected number of sessions: " +:+ pretty n
  end.

(** A method of [this.storage]. *)
Definition on_storage {A} (env : Env) (m : Storage.M A) : PM A := fun st =>
  let '(r, s) := m (storage st) in
  (match r with
   | inr a => inr a
   | inl e => inl (Error (message_of env e))
   end,
   {| storage := s; fired := fired st; errorMessages := errorMessages st;
      informationMessages := informationMessages st; uuids := uuids st;
      opened := opened st |}).

(** [this.emitter.fire(e)] *)
Definition fire (e : ChangeEvent) : PM unit := fun st =>
  (inr tt,
   {| storage := storage st; fired := fired st ++ [e];
      errorMessages := errorMessages st;
      informationMessages := informationMessages st; uuids := uuids st;
      opened := opened st |}).

(** [this.vs.window.showErrorMessage(message)] *)
Definition showErrorMessage (message : string) (st : State) : State :=
  {| storage := storage st; fired := fired st;
     errorMessages := errorMessages st ++ [message];
     informationMessages := informationMessages st; uuids := uuids st;
     opened := opened st |}.

(** [this.vs.window.showInformationMessage(message)] *)
Definition showInformationMessage (message : string) : PM unit := fun st =>
  (inr tt,
   {| storage := storage st; fired := fired st;
      errorMessages := errorMessages st;
      informationMessages := informationMessages st ++ [message];
      uuids := uuids st; opened := opened st |}).

(** [uuid()] *)
Definition uuid_v4 (env : Env) : PM string := fun st =>
  (inr (uuid env (uuids st)),
   {| storage := storage st; fired := fired st;
      errorMessages := errorMessages st;
      informationMessages := informationMessages st; uuids := S (uuids st);
      opened := opened st |}).

(** [await this.vs.env.openExternal(this.vs.Uri.parse(authorizeUrl))] *)
Definition open_external (env : Env) (authorizeUrl : list (string * string))
  : PM bool := fun st =>
  (openExternal env authorizeUrl,
   {| storage := storage st; fired := fired st;
      errorMessages := errorMessages st;
      informationMessages := informationMessages st; uuids := uuids st;
      opened := opened st ++ [authorizeUrl] |}).

(** [UserInfoSchema.parse]; unknown keys are stripped, [None] for the
    [ZodError]. *)
Definition UserInfoSchema (v : JSON.value) : option (JS.t * JS.t) :=
  match v with
  | JSON.Obj members =>
      n ← Storage.z_property "name" Storage.z_string members;
      e ← Storage.z_property "email" Storage.z_string members;
      Some (n, e)
  | _ => None
  end.

Definition getSessions (env : Env) (_scopes : option (list string))
  : PM (list Storage.AuthenticationSession) :=
  let* session := on_storage env (Storage.getSession PROVIDER_ID) in
  ret (match session with
       | Some session => [session]
       | None => []
       end).

Definition getCallbackUri (env : Env) (nonce : string) : PM string :=
  let uri := uriScheme env +:+ "://" +:+ publisher env +:+ "." +:+ name env
             +:+ "?nonce=" +:+ nonce in
  await (asExternalUri env uri).

(** [login]; [withProgress] hands on the promise of its task. *)
Definition login (env : Env) (scopes : string) : PM string :=
  let* token :=
    (let* nonce := uuid_v4 env in
     let* promisedCode := await (waitForCode env nonce) in
     let* callbackUri := getCallbackUri env nonce in
     let* pkce := await (generateCodeVerifierAsync env) in
     let authorizeUrl :=
       Provider.authorizeUrlOptions scopes callbackUri (snd pkce) in
     let* _ := open_external env authorizeUrl in
     let* code := await promisedCode in
     let* tokenResponse := await (getToken env code (fst pkce)) in
     if negb (bool_decide (res_status tokenResponse = Some 200))
        || negb (MultiStep.truthy (tokens_access_token tokenResponse))
     then throw (Error "No access token returned")
     else ret (default "" (tokens_access_token tokenResponse))) in
  let* _ := showInformationMessage "Signed in to Google!" in
  ret token.

(** [getUserInfo]: the name and the e-mail address. *)
Definition getUserInfo (env : Env) (token : string) : PM (JS.t * JS.t) :=
  let url := "https://www.googleapis.com/oauth2/v2/userinfo" in
  let* response := await (fetch env url ("Bearer " +:+ token)) in
  if negb (ok response) then
    let* errorText := await (text response) in
    throw (Error ("Failed to fetch user info: " +:+ statusText response
                  +:+ ". Response: " +:+ errorText))
  else
    let* json := await (json response) in
    match UserInfoSchema json with
    | Some user => ret user
    | None => throw (Error (zodErrorMessage env))
    end.

(** The object literal of [createSession], for what it holds: the
    properties [id], [accessToken], [account] and [scopes] in this
    order, the account with [label] before [id]. *)
Definition session_object (session : Storage.AuthenticationSession)
  : JSON.value :=
  Storage.object
    [Storage.P_id; Storage.P_accessToken; Storage.P_account; Storage.P_scopes]
    [Storage.P_account_label; Storage.P_account_id] session.

(** The [try] block of [createSession]. *)
Definition createSession_try (env : Env) (scopes : list string)
  : PM Storage.AuthenticationSession :=
  let sortedScopes := Provider.sortedScopes scopes in
  let* token := login env (String.concat " " sortedScopes) in
  if String.eqb token "" then throw (Error "Google login failed")
  else
    let* user := getUserInfo env token in
    let* id := uuid_v4 env in
    let session :=
      {| Storage.id := JS.of_string id;
         Storage.accessToken := JS.of_string token;
         Storage.account := {| Storage.Account.label := fst user;
                               Storage.Account.id := snd user |};
         Storage.scopes := JS.of_string <$> sortedScopes |} in
    let* _ :=
      on_storage env
        (Storage.storeSession PROVIDER_ID (session_object session)) in
    let* _ := fire {| added := [session]; removed := []; changed := [] |} in
    ret session.

(** [reason] of the [catch] of [createSession]. *)
Definition reason (err : Thrown) : string :=
  match err with
  | Error message => message
  | NotAnError => "unknown error"
  end.

Definition createSession (env : Env) (scopes : list string)
  : PM Storage.AuthenticationSession := fun st =>
  match createSession_try env scopes st with
  | (inr session, st') => (inr session, st')
  | (inl err, st') =>
      (inl err, showErrorMessage ("Sign in failed: " +:+ reason err) st')
  end.

Definition removeSession (env : Env) (sessionId : JS.t) : PM unit :=
  let* removedSession :=
    on_storage env (Storage.removeSession PROVIDER_ID sessionId) in
  match removedSession with
  | Some removedSession =>
      fire {| added := []; removed := [removedSession]; changed := [] |}
  | None => ret tt
  end.

End GoogleAuthProvider.

(* ===================================================================== *)
(** * The fake of [vscode.authentication] of the test-suite *)
(* ===================================================================== *)

Module FakeAuthenticationProviderManager.
Import GoogleAuthProvider.

(** The two methods of a [vscode.AuthenticationProvider] the fake
    calls. *)
Record AuthenticationProvider := {
  provider_getSessions :
    list string -> PM (list Storage.AuthenticationSession);
  provider_createSession : list string -> PM Storage.AuthenticationSession;
}.

(** The two maps of the fake.  A disposable is a closure over the id it
    was registered for, and is named by it. *)
Record t := {
  providers : gmap string AuthenticationProvider;
  disposables : gmap string string;
}.

(** [new FakeAuthenticationProviderManager()] *)
Definition empty : t := {| providers := ∅; disposables := ∅ |}.

Definition quote : string := String (Ascii.ascii_of_N 34) EmptyString.

Definition registerAuthenticationProvider (id _label : string)
    (provider : AuthenticationProvider) (this : t) : Thrown + (string * t) :=
  if bool_decide (is_Some (providers this !! id)) then
    inl (Error ("An authentication provider with id " +:+ quote +:+ id
                +:+ quote +:+ " is already registered."))
  else
    let disposable := id in
    inr (disposable,
         {| providers := <[id := provider]> (providers this);
            disposables := <[id := disposable]> (disposables this) |}).

(** [disposable.dispose()] *)
Definition dispose (disposable : string) (this : t) : t :=
  {| providers := delete disposable (providers this);
     disposables := delete disposable (disposables this) |}.

Definition getSession (this : t) (providerId : string) (scopes : list string)
  : PM Storage.AuthenticationSession :=
  match providers this !! providerId with
  | None => throw (Error ("No provider registered for id: " +:+ providerId))
  | Some provider =>
      let* sessions := provider_getSessions provider scopes in
      let* sessions :=
        (if Nat.eqb (length sessions) 0 then
           let* _ := provider_createSession provider scopes in
           provider_getSessions provider scopes
         else ret sessions) in
      if Nat.ltb 1 (length sessions) then
        throw (Error "The fake implementation for getSession does not support multiple sessions")
      else if negb (Nat.eqb (length sessions) 1) then
        throw (Error "The provider failed to create a session for the requested scopes")
      else
        match sessions with
        | session :: _ => ret session
        | [] =>
            throw (Error "The provider failed to create a session for the requested scopes")
        end
  end.

(** ** GoogleAuthProvider on the fake *)

(** The provider object, as the fake calls it. *)
Definition GoogleAuthProvider (env : Env) : AuthenticationProvider :=
  {| provider_getSessions := fun scopes => getSessions env (Some scopes);
     provider_createSession := createSession env |}.

(** [new GoogleAuthProvider(vs, ...)] registers the provider; the
    disposable is its [authProvider]. *)
Definition new_GoogleAuthProvider (env : Env) (this : t)
  : Thrown + (string * t) :=
  registerAuthenticationProvider PROVIDER_ID PROVIDER_LABEL
    (GoogleAuthProvider env) this.

(** The static [GoogleAuthProvider.getSession(vs)]. *)
Definition GoogleAuthProvider_getSession (this : t)
  : PM Storage.AuthenticationSession :=
  getSession this PROVIDER_ID Provider.REQUIRED_SCOPES.

End FakeAuthenticationProviderManager.

(** Fixtures of [provider.unit.test.ts]. *)
Module GoogleAuthProviderTests.
Import GoogleAuthProvider.

Definition NONCE : string := "6f1c2b7e-0d4a-4b1e-9a55-3c1f0e7d2a10".

(** The world of "succeeds". *)
Definition succeeds : Env :=
  {| uriScheme := "vscode"; publisher := "google"; name := "colab";
     uuid := fun n => if Nat.eqb n 0 then NONCE
                      else "9b2d7c1a-5e3f-4c8b-8f6a-1d2e3f4a5b6c";
     waitForCode := fun _ => inr (inr "42");
     asExternalUri := fun _ =>
       inr ("vscode://google.colab?nonce%3D" +:+ NONCE +:+ "%26windowId%3D1");
     generateCodeVerifierAsync := inr ("verifier", "challenge");
     openExternal := fun _ => inr true;
     getToken := fun _ _ =>
       inr {| res_status := Some 200; tokens_access_token := Some "123" |};
     fetch := fun _ _ =>
       inr {| ok := true; statusText := "OK";
              text := inr "";
              json :=
                inr (JSON.Obj
                       [(JS.of_string "id", JSON.Str (JS.of_string "1337"));
                        (JS.of_string "email",
                         JSON.Str (JS.of_string "foo@example.com"));
                        (JS.of_string "verified_email", JSON.Bool true);
                        (JS.of_string "name",
                         JSON.Str (JS.of_string "Foo Bar"))]) |};
     syntaxErrorMessage := "Unexpected token";
     zodErrorMessage := "Invalid input" |}.

(** The world of "warns when login fails": [waitForCode] throws. *)
Definition login_fails : Env :=
  {| uriScheme := uriScheme succeeds; publisher := publisher succeeds;
     name := name succeeds; uuid := uuid succeeds;
     waitForCode := fun _ => inl (Error "Barf");
     asExternalUri := asExternalUri succeeds;
     generateCodeVerifierAsync := generateCodeVerifierAsync succeeds;
     openExternal := openExternal succeeds; getToken := getToken succeeds;
     fetch := fetch succeeds;
     syntaxErrorMessage := syntaxErrorMessage succeeds;
     zodErrorMessage := zodErrorMessage succeeds |}.

(** A world in which the login succeeds and the request for the user
    info is refused. *)
Definition user_info_fails : Env :=
  {| uriScheme := uriScheme succeeds; publisher := publisher succeeds;
     name := name succeeds; uuid := uuid succeeds;
     waitForCode := waitForCode succeeds;
     asExternalUri := asExternalUri succeeds;
     generateCodeVerifierAsync := generateCodeVerifierAsync succeeds;
     openExternal := openExternal succeeds; getToken := getToken succeeds;
     fetch := fun _ _ =>
       inr {| ok := false; statusText := "Unauthorized";
              text := inr "invalid token"; json := inl NotAnError |};
     syntaxErrorMessage := syntaxErrorMessage succeeds;
     zodErrorMessage := zodErrorMessage succeeds |}.

(** A provider that has done nothing yet, on an empty storage. *)
Definition fresh : State :=
  {| storage := StorageTests.emptyStorage; fired := [];
     errorMessages := []; informationMessages := []; uuids := 0;
     opened := [] |}.

Definition DEFAULT_SESSION : Storage.AuthenticationSession :=
  {| Storage.id := JS.of_string "1"; Storage.accessToken := JS.of_string "123";
     Storage.account := {| Storage.Account.id := JS.of_string "foo@example.com";
                           Storage.Account.label := JS.of_string "Foo Bar" |};
     Storage.scopes := [JS.of_string "email"; JS.of_string "profile"] |}.

(** A provider whose storage holds [DEFAULT_SESSION]. *)
Definition signed_in : State :=
  {| storage := snd (Storage.storeSession PROVIDER_ID
                       (session_object DEFAULT_SESSION)
                       StorageTests.emptyStorage);
     fired := []; errorMessages := []; informationMessages := [];
     uuids := 0; opened := [] |}.

End GoogleAuthProviderTests.

(* ===================================================================== *)
(** * Properties *)
(* ===================================================================== *)

Module MultiStepFacts.
Import MultiStep.

Lemma on_current_steps f this : steps (on_current f this) = steps this.
Proof. unfold on_current. by destruct (current this). Qed.

Lemma on_current_invoked f this : invoked (on_current f this) = invoked this.
Proof. unfold on_current. by destruct (current this). Qed.

Lemma shows_frame ws this :
  let this' := foldl (fun acc w => make_current w acc) this ws in
  steps this' = steps this /\ invoked this' = invoked this.
Proof.
  revert this. induction ws as [|w ws IH]; intros this; simpl; [done|].
  destruct (IH (make_current w this)) as [Hs Hi]. simpl in Hs, Hi.
  rewrite Hs, Hi. unfold make_current; simpl.
  by rewrite on_current_steps, on_current_invoked.
Qed.

Lemma call_enter_steps s r this :
  steps (call s r (enter s this)) = steps this ++ [s].
Proof.
  unfold call; simpl.
  destruct (shows_frame (shown r) (enter s this)) as [-> _].
  unfold enter. by rewrite on_current_steps.
Qed.

Lemma call_enter_invoked s r this :
  invoked (call s r (enter s this)) = invoked this ++ [s].
Proof.
  unfold call; simpl.
  destruct (shows_frame (shown r) (enter s this)) as [_ ->].
  unfold enter. by rewrite on_current_invoked.
Qed.

Lemma with_steps_invoked l this : invoked (with_steps l this) = invoked this.
Proof. reflexivity. Qed.

Lemma settled_invoked o this ctl this' :
  settled o this = (ctl, this') -> invoked this' = invoked this.
Proof.
  unfold settled, pop. destruct o as [next|[| |msg]]; simpl.
  - by intros [= _ <-].
  - destruct (_ =? _)%nat; by intros [= _ <-].
  - by intros [= _ <-].
  - by intros [= _ <-].
Qed.

Lemma finally_invoked this : invoked (finally this) = invoked this.
Proof. apply on_current_invoked. Qed.

Lemma finally_steps this : steps (finally this) = steps this.
Proof. apply on_current_steps. Qed.

(** One iteration of the loop. *)
Lemma step_loop_eq B fuel s this :
  step_loop B (S fuel) (Some s) this
  = match settled (outcome (B (invoked this) s))
            (call s (B (invoked this) s) (enter s this)) with
    | (Continue next, this3) => step_loop B fuel next this3
    | (Exit e, this3) => (Rejected e, this3)
    end.
Proof. reflexivity. Qed.

Lemma step_loop_done B fuel this : step_loop B fuel None this = (Fulfilled, this).
Proof. by destruct fuel. Qed.

Lemma settled_back_first this s :
  steps this = [s] ->
  settled (Throw InputFlowAction_back) this
  = (Exit InputFlowAction_back, with_steps [] this).
Proof. intros Hs. unfold settled, pop; simpl. by rewrite Hs. Qed.

Lemma settled_back_prev this pre p s :
  steps this = (pre ++ [p]) ++ [s] ->
  settled (Throw InputFlowAction_back) this
  = (Continue (Some p), with_steps pre this).
Proof.
  intros Hs. unfold settled, pop; simpl.
  rewrite Hs, removelast_last, length_app; simpl.
  replace (length pre + 1 =? 0)%nat with false
    by (symmetry; apply Nat.eqb_neq; lia).
  by rewrite last_snoc, removelast_last.
Qed.

(** The ways an iteration of the loop goes on. *)
Lemma loop_return B fuel s this next :
  outcome (B (invoked this) s) = Return next ->
  step_loop B (S fuel) (Some s) this
  = step_loop B fuel next (call s (B (invoked this) s) (enter s this)).
Proof. intros H. by rewrite step_loop_eq, H. Qed.

Lemma loop_cancel B fuel s this :
  outcome (B (invoked this) s) = Throw InputFlowAction_cancel ->
  step_loop B (S fuel) (Some s) this
  = (Fulfilled, call s (B (invoked this) s) (enter s this)).
Proof. intros H. rewrite step_loop_eq, H. simpl. apply step_loop_done. Qed.

Lemma loop_other B fuel s this msg :
  outcome (B (invoked this) s) = Throw (OtherError msg) ->
  step_loop B (S fuel) (Some s) this
  = (Rejected (OtherError msg), call s (B (invoked this) s) (enter s this)).
Proof. intros H. by rewrite step_loop_eq, H. Qed.

Lemma loop_back_first B fuel s this :
  outcome (B (invoked this) s) = Throw InputFlowAction_back ->
  steps this = [] ->
  step_loop B (S fuel) (Some s) this
  = (Rejected InputFlowAction_back,
     with_steps [] (call s (B (invoked this) s) (enter s this))).
Proof.
  intros H Hs. rewrite step_loop_eq, H.
  rewrite (settled_back_first _ s); [done|].
  by rewrite call_enter_steps, Hs.
Qed.

Lemma loop_back_prev B fuel s this pre p :
  outcome (B (invoked this) s) = Throw InputFlowAction_back ->
  steps this = pre ++ [p] ->
  step_loop B (S fuel) (Some s) this
  = step_loop B fuel (Some p)
      (with_steps pre (call s (B (invoked this) s) (enter s this))).
Proof.
  intros H Hs. rewrite step_loop_eq, H.
  rewrite (settled_back_prev _ pre p s); [done|].
  by rewrite call_enter_steps, Hs.
Qed.

(** C4.  When a step raises [back], the step that just ran is removed from
    the stack.  If the stack is then empty, [back] leaves the run as its
    rejection; otherwise the prior step is popped and invoked again (the
    loop goes on with it, on the stack below it).  A two-step flow whose
    second step raises [back] once and then completes calls the steps in
    the order 1, 2, 1, 2 and fulfils. *)
Theorem back_returns_to_prior_step :
  (forall B fuel s this,
      outcome (B (invoked this) s) = Throw InputFlowAction_back ->
      (steps this = [] ->
       exists this',
         step B (S fuel) s this = (Rejected InputFlowAction_back, this')
         /\ steps this' = [] /\ invoked this' = invoked this ++ [s])
      /\
      (forall pre p, steps this = pre ++ [p] ->
       exists this',
         step_loop B (S fuel) (Some s) this = step_loop B fuel (Some p) this'
         /\ steps this' = pre /\ invoked this' = invoked this ++ [s]))
  /\
  (forall B fuel s1 s2,
      (forall calls, outcome (B calls s1) = Return (Some s2)) ->
      outcome (B [s1] s2) = Throw InputFlowAction_back ->
      outcome (B [s1; s2; s1] s2) = Return None ->
      exists final,
        run B (4 + fuel) s1 = (Fulfilled, final)
        /\ invoked final = [s1; s2; s1; s2]).
Proof.
  split.
  - intros B fuel s this Hback. split.
    + intros Hs. eexists. unfold step.
      rewrite (loop_back_first _ _ _ _ Hback Hs). split; [reflexivity|].
      rewrite finally_steps, finally_invoked, with_steps_invoked.
      split; [done|]. apply call_enter_invoked.
    + intros pre p Hs. eexists.
      split; [apply (loop_back_prev _ _ _ _ _ _ Hback Hs)|].
      split; [done|]. rewrite with_steps_invoked. apply call_enter_invoked.
  - intros B fuel s1 s2 H1 Hb Hd. unfold run, step.
    set (t0 := new_MultiStepInput).
    assert (Hi0 : invoked t0 = []) by done.
    assert (Hs0 : steps t0 = []) by done.
    clearbody t0.
    (* first call of step 1 *)
    replace (4 + fuel)%nat with (S (S (S (S fuel)))) by lia.
    rewrite (loop_return _ _ _ _ _ (H1 _)).
    set (t1 := call s1 _ (enter s1 t0)).
    assert (Hi1 : invoked t1 = [s1])
      by (subst t1; by rewrite call_enter_invoked, Hi0).
    assert (Hs1 : steps t1 = [] ++ [s1])
      by (subst t1; by rewrite call_enter_steps, Hs0).
    clearbody t1.
    (* first call of step 2: back *)
    assert (Hb1 : outcome (B (invoked t1) s2) = Throw InputFlowAction_back)
      by (by rewrite Hi1).
    rewrite (loop_back_prev _ _ _ _ _ _ Hb1 Hs1).
    set (t2 := with_steps [] (call s2 _ (enter s2 t1))).
    assert (Hi2 : invoked t2 = [s1; s2])
      by (subst t2; by rewrite with_steps_invoked, call_enter_invoked, Hi1).
    assert (Hs2 : steps t2 = []) by done.
    clearbody t2.
    (* second call of step 1 *)
    rewrite (loop_return _ _ _ _ _ (H1 _)).
    set (t3 := call s1 _ (enter s1 t2)).
    assert (Hi3 : invoked t3 = [s1; s2; s1])
      by (subst t3; by rewrite call_enter_invoked, Hi2).
    clearbody t3.
    (* second call of step 2: done *)
    assert (Hd3 : outcome (B (invoked t3) s2) = Return None)
      by (by rewrite Hi3).
    rewrite (loop_return _ _ _ _ _ Hd3), step_loop_done.
    eexists; split; [reflexivity|].
    by rewrite finally_invoked, call_enter_invoked, Hi3.
Qed.

Lemma back_returns_to_prior_step_witness :
  (exists this',
      step MultiStepTests.goes_back_once 1 MultiStepTests.second
        {| steps := []; current := None; widgets := [];
           invoked := [MultiStepTests.first] |}
      = (Rejected InputFlowAction_back, this')
      /\ steps this' = []
      /\ invoked this' = [MultiStepTests.first; MultiStepTests.second])
  /\
  (exists final,
      run MultiStepTests.goes_back_once 4 MultiStepTests.first
      = (Fulfilled, final)
      /\ invoked final
         = [MultiStepTests.first; MultiStepTests.second;
            MultiStepTests.first; MultiStepTests.second]).
Proof.
  split.
  - apply (proj1 (proj1 back_returns_to_prior_step
                   MultiStepTests.goes_back_once 0 MultiStepTests.second
                   {| steps := []; current := None; widgets := [];
                      invoked := [MultiStepTests.first] |} eq_refl) eq_refl).
  - apply (proj2 back_returns_to_prior_step
             MultiStepTests.goes_back_once 0 MultiStepTests.first
             MultiStepTests.second (fun _ => eq_refl) eq_refl eq_refl).
Defined.

(** What the calls of one run add to the log: a call that raises [cancel]
    is the last one, and the loop has ended normally. *)
Lemma step_loop_log B fuel :
  forall step this c final,
    step_loop B fuel step this = (c, final) ->
    exists l,
      invoked final = invoked this ++ l /\
      forall k s,
        l !! k = Some s ->
        outcome (B (invoked this ++ take k l) s) = Throw InputFlowAction_cancel ->
        c = Fulfilled /\ length l = S k.
Proof.
  induction fuel as [|fuel IH]; intros [s|] this c final Hrun;
    try (simpl in Hrun; injection Hrun as <- <-; exists []; split;
         [by rewrite app_nil_r | intros k s' Hk; by rewrite lookup_nil in Hk]).
  set (r := B (invoked this) s).
  set (t := call s r (enter s this)).
  assert (Hit : invoked t = invoked this ++ [s]) by apply call_enter_invoked.
  destruct (decide (outcome r = Throw InputFlowAction_cancel)) as [Hc|Hnc].
  - rewrite (loop_cancel _ _ _ _ Hc) in Hrun. injection Hrun as <- <-.
    exists [s]. split; [done|].
    intros [|k] s' Hk _; [done|]. by destruct k.
  - rewrite step_loop_eq in Hrun. fold r t in Hrun.
    destruct (settled (outcome r) t) as [[next|e] t'] eqn:Hset;
      pose proof (settled_invoked _ _ _ _ Hset) as Hit'.
    + destruct (IH _ _ _ _ Hrun) as (l' & Hl' & Hlast).
      exists (s :: l'). split.
      * by rewrite Hl', Hit', Hit, <- app_assoc.
      * intros [|k] s' Hk Hcancel; simpl in Hk, Hcancel.
        { injection Hk as <-. rewrite app_nil_r in Hcancel. done. }
        destruct (Hlast k s' Hk) as [-> Hlen].
        { by rewrite Hit', Hit, <- app_assoc. }
        simpl. by rewrite Hlen.
    + injection Hrun as <- <-. exists [s]. split; [by rewrite Hit', Hit|].
      intros [|k] s' Hk Hcancel; simpl in Hk, Hcancel.
      * injection Hk as <-. rewrite app_nil_r in Hcancel. done.
      * by destruct k.
Qed.

(** C5.  A step call that raises [cancel] ends the loop: the promise of
    [run] fulfils (nothing is thrown to the caller) and no step is invoked
    after it.  Stated for one iteration from any controller state, and
    for whole runs: the [k]-th call of a run that raised [cancel] is its
    last call, and the run fulfilled. *)
Theorem cancel_stops_the_run :
  (forall B fuel s this,
      outcome (B (invoked this) s) = Throw InputFlowAction_cancel ->
      exists final,
        step B (S fuel) s this = (Fulfilled, final)
        /\ invoked final = invoked this ++ [s])
  /\
  (forall B fuel start c final k s,
      run B fuel start = (c, final) ->
      invoked final !! k = Some s ->
      outcome (B (take k (invoked final)) s) = Throw InputFlowAction_cancel ->
      c = Fulfilled /\ length (invoked final) = S k).
Proof.
  split.
  - intros B fuel s this Hc. eexists. unfold step.
    rewrite (loop_cancel _ _ _ _ Hc). split; [reflexivity|].
    by rewrite finally_invoked, call_enter_invoked.
  - intros B fuel start c final k s Hrun Hk Hcancel.
    unfold run, step in Hrun.
    destruct (step_loop B fuel (Some start) new_MultiStepInput)
      as [c0 t] eqn:Hloop.
    destruct (step_loop_log _ _ _ _ _ _ Hloop) as (l & Hl & Hlast).
    simpl in Hl.
    assert (Hfin : invoked final = l /\ (c0 = Fulfilled -> c = Fulfilled)).
    { destruct c0; injection Hrun as <- <-;
        rewrite ?finally_invoked; by split. }
    destruct Hfin as [Hfin Hc]. rewrite Hfin in *.
    destruct (Hlast k s Hk Hcancel) as [-> ->]. by split; [apply Hc|].
Qed.

Lemma cancel_stops_the_run_witness :
  (exists final,
      step (fun _ _ => {| shown := []; outcome := Throw InputFlowAction_cancel |})
        1 MultiStepTests.first new_MultiStepInput
      = (Fulfilled, final)
      /\ invoked final = [MultiStepTests.first])
  /\
  (Fulfilled = Fulfilled /\ length [MultiStepTests.first] = 1).
Proof.
  split.
  - apply (proj1 cancel_stops_the_run
             (fun _ _ => {| shown := []; outcome := Throw InputFlowAction_cancel |})
             0 MultiStepTests.first new_MultiStepInput eq_refl).
  - apply (proj2 cancel_stops_the_run
             (fun _ _ => {| shown := []; outcome := Throw InputFlowAction_cancel |})
             1 MultiStepTests.first Fulfilled
             {| steps := [MultiStepTests.first]; current := None;
                widgets := []; invoked := [MultiStepTests.first] |}
             0 MultiStepTests.first eq_refl eq_refl eq_refl).
Defined.

(** Whatever ends the loop, the [finally] of [step] has disposed the
    current widget. *)
Lemma step_disposes_current B fuel start this c final :
  step B fuel start this = (c, final) -> c <> Running ->
  forall k w, current final = Some k -> widgets final !! k = Some w ->
              visible w = false /\ 0 < disposeCalls w.
Proof.
  unfold step. destruct (step_loop B fuel (Some start) this) as [c' t].
  intros Hstep Hc k w.
  assert (Hfinal : final = finally t).
  { destruct c'; injection Hstep as <- <-; [done|done|by destruct Hc]. }
  rewrite Hfinal. unfold finally, on_current.
  destruct (current t) as [j|] eqn:Hj; simpl; rewrite Hj; [|done].
  intros [= ->]. rewrite list_lookup_alter, decide_True by done.
  destruct (widgets t !! k) as [w'|]; simpl; [|done].
  intros [= <-]. simpl. split; [done|lia].
Qed.

(** ** showInputBox *)

Lemma showInputBox_snoc opts evs ev :
  showInputBox opts (evs ++ [ev])
  = input_event opts ev (showInputBox opts evs).
Proof. unfold showInputBox. by rewrite foldl_app. Qed.

(** A resolved input box resolved with a value its validator accepts. *)
Lemma resolved_is_valid opts evs v :
  snd (showInputBox opts evs) = Resolved v ->
  truthy (o_validate opts v) = false.
Proof.
  revert v. induction evs as [|ev evs IH] using rev_ind; intros v.
  - discriminate.
  - rewrite showInputBox_snoc. unfold input_event.
    destruct (snd (showInputBox opts evs)) as [|v'|e] eqn:Hp.
    + destruct ev as [text| | |b]; unfold listeners; simpl; try discriminate.
      * destruct (truthy (o_validate opts (value _))) eqn:Hv; [discriminate|].
        by intros [= <-].
      * by destruct (decide (b = QuickInputButtons_Back)).
    + destruct ev; simpl; rewrite ?Hp; intros [= <-]; by apply IH.
    + destruct ev; simpl; rewrite ?Hp; discriminate.
Qed.

(** C6.  While the promise of [showInputBox] is pending, every change of
    the text runs [validate] on the new text and stores the result as the
    widget's validation message; an accept resolves the promise with the
    widget's current value exactly when [validate] of that value reports no
    error ([undefined], or the empty string, which JS takes as no message),
    and leaves it pending otherwise.  Hence a resolved input box always
    holds a value that passes validation. *)
Theorem input_box_validates :
  (forall opts evs,
      snd (showInputBox opts evs) = Pending ->
      (forall text,
          let st := showInputBox opts (evs ++ [DidChangeValue text]) in
          validationMessage (fst st) = o_validate opts text
          /\ value (fst st) = text /\ snd st = Pending)
      /\
      (let input := fst (showInputBox opts evs) in
       snd (showInputBox opts (evs ++ [DidAccept]))
       = if truthy (o_validate opts (value input)) then Pending
         else Resolved (value input)))
  /\
  (forall opts evs v,
      snd (showInputBox opts evs) = Resolved v ->
      truthy (o_validate opts v) = false).
Proof.
  split.
  - intros opts evs Hp. split.
    + intros text. simpl. rewrite showInputBox_snoc.
      unfold input_event. by rewrite Hp.
    + simpl. rewrite showInputBox_snoc. unfold input_event. rewrite Hp.
      simpl. by destruct (truthy _).
  - apply resolved_is_valid.
Qed.

Lemma input_box_validates_witness :
  ((forall text,
       let st := showInputBox MultiStepTests.ENTER_FOO
                   ([DidChangeValue "f"; DidChangeValue "fo"]
                    ++ [DidChangeValue text]) in
       validationMessage (fst st) = o_validate MultiStepTests.ENTER_FOO text
       /\ value (fst st) = text /\ snd st = Pending)
   /\
   snd (showInputBox MultiStepTests.ENTER_FOO
          ([DidChangeValue "f"; DidChangeValue "fo"] ++ [DidAccept]))
   = Pending)
  /\
  truthy (o_validate MultiStepTests.ENTER_FOO "foo") = false.
Proof.
  split.
  - apply (proj1 input_box_validates MultiStepTests.ENTER_FOO
             [DidChangeValue "f"; DidChangeValue "fo"] eq_refl).
  - apply (proj2 input_box_validates MultiStepTests.ENTER_FOO
             [DidChangeValue "f"; DidChangeValue "fo"; DidChangeValue "foo";
              DidAccept] "foo" eq_refl).
Defined.

(** The typing sequence of the test-suite: a message for "f" and "fo",
    none for "foo", and only then does an accept resolve. *)
Example typing_foo :
  let run := showInputBox MultiStepTests.ENTER_FOO in
  validationMessage (fst (run [DidChangeValue "f"]))
    = Some MultiStepTests.needFoo
  /\ validationMessage (fst (run [DidChangeValue "f"; DidChangeValue "fo"]))
    = Some MultiStepTests.needFoo
  /\ snd (run [DidChangeValue "f"; DidChangeValue "fo"; DidAccept]) = Pending
  /\ validationMessage
       (fst (run [DidChangeValue "f"; DidChangeValue "fo"; DidChangeValue "foo"]))
    = None
  /\ snd (run [DidChangeValue "f"; DidChangeValue "fo"; DidChangeValue "foo";
               DidAccept]) = Resolved "foo".
Proof. repeat split. Qed.

End MultiStepFacts.

Module CodeManagerFacts.
Import CodeManager.

Lemma wf_empty : wf empty.
Proof. split; intros ? ?; simpl; by rewrite lookup_empty. Qed.

Section reject_due.
Variable due : PendingRequest -> bool.
Variable e : Failure.

Lemma reject_due_table cm n :
  table (reject_due due e cm) !! n
  = match table cm !! n with
    | Some pr => if due pr then None else Some pr
    | None => None
    end.
Proof.
  simpl. rewrite map_lookup_filter.
  destruct (table cm !! n) as [pr|]; simpl; [|done].
  destruct (due pr); by simplify_option_eq.
Qed.

Lemma reject_due_settlements cm :
  (forall q,
      (forall n pr, table cm !! n = Some pr -> due pr = true -> promise pr <> q) ->
      settlements (reject_due due e cm) !! q = settlements cm !! q) /\
  (forall q n pr,
      table cm !! n = Some pr -> due pr = true -> promise pr = q ->
      settlements (reject_due due e cm) !! q = Some (Fail e)).
Proof.
  simpl. generalize (settlements cm). intros base.
  apply (map_fold_weak_ind (fun r m =>
    (forall q,
        (forall n pr, m !! n = Some pr -> due pr = true -> promise pr <> q) ->
        r !! q = base !! q) /\
    (forall q n pr,
        m !! n = Some pr -> due pr = true -> promise pr = q ->
        r !! q = Some (Fail e)))).
  - split; [done|]. intros q n pr Hn. by rewrite lookup_empty in Hn.
  - intros i x m r Hi [IH1 IH2]. split.
    + intros q Hq.
      assert (Hm : forall n pr, m !! n = Some pr -> due pr = true -> promise pr <> q).
      { intros n pr Hn. apply (Hq n). rewrite lookup_insert_ne; [done|].
        intros ->. by rewrite Hi in Hn. }
      destruct (due x) eqn:Hx; [|by apply IH1].
      rewrite lookup_insert_ne; [by apply IH1|].
      apply (Hq i); [by rewrite lookup_insert_eq | done].
    + intros q n pr Hn Hdue Hpr.
      destruct (decide (i = n)) as [->|Hne].
      * rewrite lookup_insert_eq in Hn. injection Hn as ->.
        rewrite Hdue, Hpr. by rewrite lookup_insert_eq.
      * rewrite lookup_insert_ne in Hn by done.
        destruct (due x); [|by eapply IH2].
        destruct (decide (promise x = q)) as [->|Hq].
        { by rewrite lookup_insert_eq. }
        rewrite lookup_insert_ne by done. by eapply IH2.
Qed.

Lemma reject_due_next cm : next (reject_due due e cm) = next cm.
Proof. reflexivity. Qed.
End reject_due.

(** The promise [p] handed out for [nonce]: as long as it is pending the
    table holds its entry [mine] under [nonce], and no other entry ever
    holds it. *)
Section owner.
Variables (nonce : string) (p : nat) (mine : PendingRequest).

Local Abbreviation owns := (CodeManager.owns nonce p mine).
Local Abbreviation settles_to := (CodeManager.settles_to p).

Lemma owns_waitForCode now n tk cm :
  owns cm ->
  owns (snd (waitForCode now n tk cm))
  /\ settles_to None cm (snd (waitForCode now n tk cm)).
Proof.
  intros (Hmine & Hnext & Huniq & Hpend).
  unfold waitForCode, CodeManager.settles_to, CodeManager.owns.
  destruct (table cm !! n) as [pr|] eqn:Hn; simpl.
  - rewrite lookup_insert_ne by lia. split; [|by destruct (_ !! p)].
    split_and!; [done|lia| |done].
    intros n' pr' Hn' Hpr'. by apply Huniq.
  - split; [|by destruct (_ !! p)]. split_and!; [done|lia| |].
    + intros n' pr'. destruct (decide (n = n')) as [->|Hne].
      * rewrite lookup_insert_eq. intros [= <-]; simpl. lia.
      * rewrite lookup_insert_ne by done. apply Huniq.
    + intros Hs. rewrite lookup_insert_ne; [by apply Hpend|].
      intros ->. rewrite (Hpend Hs) in Hn. done.
Qed.

Lemma owns_resolveCode n c cm :
  owns cm ->
  owns (resolveCode n c cm)
  /\ settles_to (if decide (n = nonce) then Some (Code c) else None)
       cm (resolveCode n c cm).
Proof.
  intros (Hmine & Hnext & Huniq & Hpend).
  unfold resolveCode, CodeManager.settles_to, CodeManager.owns.
  destruct (table cm !! n) as [pr|] eqn:Hn; simpl.
  - destruct (decide (promise pr = p)) as [Hpr|Hpr].
    + destruct (Huniq _ _ Hn Hpr) as (-> & -> & Hs).
      rewrite Hmine, lookup_insert_eq, Hs. rewrite decide_True by done.
      split; [|done]. split_and!; [done|done| |done].
      intros n' pr' Hn' Hpr'. apply lookup_delete_Some in Hn' as [Hne Hn'].
      by destruct (Huniq _ _ Hn' Hpr') as (-> & _).
    + rewrite lookup_insert_ne by done.
      assert (Hne : settlements cm !! p = None -> n <> nonce).
      { intros Hs ->. rewrite (Hpend Hs) in Hn. injection Hn as <-. done. }
      split.
      * split_and!; [done|done| |].
        -- intros n' pr' Hn' Hpr'.
           apply lookup_delete_Some in Hn' as [_ Hn'].
           by apply Huniq.
        -- intros Hs. rewrite lookup_delete_ne by (by apply Hne).
           by apply Hpend.
      * destruct (settlements cm !! p) eqn:Hs; [done|].
        by rewrite decide_False by (by apply Hne).
  - split; [done|].
    destruct (settlements cm !! p) eqn:Hs; [done|].
    rewrite decide_False; [done|]. intros ->.
    rewrite (Hpend eq_refl) in Hn. done.
Qed.

Lemma owns_reject_due due e cm :
  owns cm ->
  owns (reject_due due e cm)
  /\ settles_to (if due mine then Some (Fail e) else None)
       cm (reject_due due e cm).
Proof.
  intros (Hmine & Hnext & Huniq & Hpend).
  destruct (reject_due_settlements due e cm) as [Hkeep Hrej].
  assert (Hto : settles_to (if due mine then Some (Fail e) else None)
                  cm (reject_due due e cm)).
  { unfold CodeManager.settles_to.
    destruct (settlements cm !! p) as [s0|] eqn:Hs.
    - rewrite Hkeep; [done|]. intros n pr Hn _ Hpr.
      destruct (Huniq _ _ Hn Hpr) as (_ & _ & Hs'). congruence.
    - destruct (due mine) eqn:Hdue.
      + by apply (Hrej p nonce mine); [apply Hpend| |].
      + rewrite Hkeep; [done|]. intros n pr Hn Hd Hpr.
        destruct (Huniq _ _ Hn Hpr) as (_ & -> & _). congruence. }
  split; [|done]. unfold CodeManager.settles_to in Hto.
  unfold CodeManager.owns.
  split_and!; [done|done| |].
  - intros n pr. rewrite reject_due_table.
    destruct (table cm !! n) as [pr'|] eqn:Hn; [|done].
    destruct (due pr') eqn:Hdue; [done|]. intros [= <-] Hpr.
    destruct (Huniq _ _ Hn Hpr) as (-> & -> & Hs).
    split_and!; [done|done|]. by rewrite Hto, Hs, Hdue.
  - intros Hs'. rewrite Hto in Hs'.
    destruct (settlements cm !! p) eqn:Hs; [done|].
    destruct (due mine) eqn:Hdue; [done|].
    by rewrite reject_due_table, (Hpend eq_refl), Hdue.
Qed.

(** Registering [nonce] on a well-formed registry hands out a promise
    that the registry owns: pending under [nonce], or failed at once
    when the nonce was taken. *)
Lemma owns_registered now tk cm :
  wf cm ->
  p = fst (waitForCode now nonce tk cm) ->
  mine = entry p tk now ->
  owns (snd (waitForCode now nonce tk cm))
  /\ settlements (snd (waitForCode now nonce tk cm)) !! p
     = match table cm !! nonce with
       | Some _ => Some (Fail DuplicateNonce)
       | None => None
       end.
Proof.
  intros [Hwt Hws] Hp Hmine. unfold waitForCode in *.
  assert (Hp' : p = next cm) by (by destruct (table cm !! nonce)).
  assert (Hfresh : settlements cm !! p = None).
  { destruct (settlements cm !! p) eqn:Hs; [|done]. apply Hws in Hs. lia. }
  unfold CodeManager.owns.
  destruct (table cm !! nonce) as [pr|] eqn:Hn; simpl.
  - rewrite <- Hp', lookup_insert_eq. split; [|done].
    split_and!; [by subst mine|lia| |done].
    intros n' pr' Hn' Hpr'. apply Hwt in Hn'. lia.
  - rewrite <- Hp', Hfresh. split; [|done].
    split_and!; [by subst mine|lia| |].
    + intros n' pr'. destruct (decide (nonce = n')) as [<-|Hne].
      * rewrite lookup_insert_eq. by intros [= <-].
      * rewrite lookup_insert_ne by done. intros Hn' Hpr'.
        apply Hwt in Hn'. lia.
    + intros _. by rewrite lookup_insert_eq, Hmine.
Qed.
End owner.

(** What the registry has been told for [nonce] since the calls [before]:
    nothing while [p] is pending, and the code [p] is resolved with is the
    one of the first call for [nonce]. *)
Section deliveries.
Variables (nonce : string) (p : nat) (mine : PendingRequest).
Variable before : list (string * string).

Local Abbreviation heard := (CodeManager.heard nonce p before).

Lemma heard_same cm cm' :
  resolveCalls cm' = resolveCalls cm ->
  settlements cm !! p = settlements cm' !! p
  \/ (settlements cm !! p = None /\ exists e, settlements cm' !! p = Some (Fail e)) ->
  heard cm -> heard cm'.
Proof.
  intros Hcalls Hs (new & Hnew & H). exists new. rewrite Hcalls.
  split; [done|]. destruct Hs as [<-|(Hs & e & ->)]; done.
Qed.

Lemma heard_waitForCode now n tk cm :
  owns nonce p mine cm -> heard cm -> heard (snd (waitForCode now n tk cm)).
Proof.
  intros Ho. destruct (owns_waitForCode nonce p mine now n tk cm Ho) as [_ Hto].
  apply heard_same.
  - unfold waitForCode. by destruct (_ !! _).
  - left. unfold settles_to in Hto. rewrite Hto.
    by destruct (settlements cm !! p).
Qed.

Lemma heard_reject_due due e cm :
  owns nonce p mine cm -> heard cm -> heard (reject_due due e cm).
Proof.
  intros Ho. destruct (owns_reject_due nonce p mine due e cm Ho) as [_ Hto].
  apply heard_same; [done|]. unfold settles_to in Hto. rewrite Hto.
  destruct (settlements cm !! p); [by left|]. destruct (due mine); eauto.
Qed.

Lemma resolveCode_calls n c cm :
  resolveCalls (resolveCode n c cm) = resolveCalls cm ++ [(n, c)].
Proof. unfold resolveCode. by destruct (_ !! _). Qed.

Lemma heard_resolveCode n c cm :
  owns nonce p mine cm -> heard cm -> heard (resolveCode n c cm).
Proof.
  intros Ho (new & Hnew & H).
  destruct (owns_resolveCode nonce p mine n c cm Ho) as [_ Hto].
  unfold settles_to in Hto.
  exists (new ++ [(n, c)]). rewrite resolveCode_calls, Hnew, Hto.
  split; [by rewrite app_assoc|].
  destruct (settlements cm !! p) as [[c0|e0]|]; [| done |].
  - destruct H as (pre & post & Heq & Hpre).
    exists pre, (post ++ [(n, c)]). split; [|done].
    rewrite <- Hnew, Heq. by rewrite <- !app_assoc.
  - destruct (decide (n = nonce)) as [->|Hne].
    + exists new, []. split; [by rewrite <- app_assoc | done].
    + intros c'. rewrite elem_of_app, list_elem_of_singleton.
      intros [Hin|[= ? ?]]; [by eapply H|done].
Qed.
End deliveries.

(** One registration, followed through operations that leave it alone. *)
Section one_wait.
Variables (now : Z) (nonce : string) (token p : nat).

Local Abbreviation mine := (entry p token now).
Local Abbreviation waiting := (CodeManager.waiting now nonce token p).

Lemma waiting_apply op d st :
  leaves_alone nonce token op -> (0 <= d)%Z ->
  waiting d st -> waiting (d + duration op) (apply op st).
Proof.
  destruct st as [clock cm]. unfold CodeManager.waiting; simpl.
  intros Hop Hd (-> & Hnext & Huniq & Hearly & Hlate).
  destruct op as [n tk|n c|tk|ms];
    cbn [apply duration fst snd leaves_alone] in *; rewrite ?Z.add_0_r.
  - (* another registration *)
    unfold waitForCode. destruct (table cm !! n) as [pr|] eqn:Hn; simpl.
    + split_and!; [done|lia|done| |].
      * intros Hlt. rewrite lookup_insert_ne by lia. by apply Hearly.
      * intros Hge. rewrite lookup_insert_ne by lia. by apply Hlate.
    + split; [done|]. split; [lia|]. split; [|split].
      * intros n' pr'. destruct (decide (n = n')) as [->|Hne].
        { rewrite lookup_insert_eq. intros [= <-]; simpl. lia. }
        rewrite lookup_insert_ne by done. apply Huniq.
      * intros Hlt. destruct (Hearly Hlt) as [Hs Ht]. split; [done|].
        rewrite lookup_insert_ne; [done|]. intros ->. by rewrite Hn in Ht.
      * done.
  - (* a code for another nonce *)
    unfold resolveCode. destruct (table cm !! n) as [pr|] eqn:Hn; simpl.
    + assert (Hpr : promise pr <> p).
      { intros Hpr. by destruct (Huniq _ _ Hn Hpr). }
      split; [done|]. split; [done|]. split; [|split].
      * intros n' pr' Hn'. apply (Huniq n').
        by apply lookup_delete_Some in Hn' as [_ ?].
      * intros Hlt. rewrite lookup_insert_ne by done.
        rewrite lookup_delete_ne by done. by apply Hearly.
      * intros Hge. rewrite lookup_insert_ne by done. by apply Hlate.
    + done.
  - (* another token is cancelled *)
    set (due := fun pr => cancellation pr =? tk).
    destruct (reject_due_settlements due Cancelled cm) as [Hkeep _].
    assert (Hp : settlements (cancellationRequested tk cm) !! p
                 = settlements cm !! p).
    { apply Hkeep. intros n pr Hn Hdue Hpr.
      destruct (Huniq _ _ Hn Hpr) as [-> Hlt].
      destruct (Hearly Hlt) as [_ Hmine]. rewrite Hmine in Hn.
      injection Hn as <-. unfold due in Hdue; simpl in Hdue.
      apply Nat.eqb_eq in Hdue. done. }
    split; [done|]. split; [done|]. split; [|split].
    + intros n pr. unfold cancellationRequested.
      rewrite reject_due_table.
      destruct (table cm !! n) as [pr'|] eqn:Hn; [|done].
      destruct (_ =? _); [done|]. intros [= <-]. by apply Huniq.
    + intros Hlt. unfold cancellationRequested in *. rewrite Hp.
      destruct (Hearly Hlt) as [Hs Hmine]. split; [done|].
      rewrite reject_due_table, Hmine. simpl.
      by destruct (Nat.eqb_spec token tk).
    + intros Hge. unfold cancellationRequested in *. rewrite Hp.
      by apply Hlate.
  - (* time passes *)
    set (clock' := (now + d + Z.max 0 ms)%Z).
    set (due := fun pr => (deadline pr <=? clock')%Z).
    destruct (reject_due_settlements due Timeout cm) as [Hkeep Hrej].
    split; [lia|]. split; [done|]. split; [|split].
    + intros n pr. unfold timersFire. rewrite reject_due_table.
      destruct (table cm !! n) as [pr'|] eqn:Hn; [|done].
      destruct (_ <=? _)%Z eqn:Hdue; [done|]. intros [= <-] Hpr.
      destruct (Huniq _ _ Hn Hpr) as [-> Hlt]. split; [done|].
      destruct (Hearly Hlt) as [_ Hmine]. rewrite Hmine in Hn.
      injection Hn as <-. simpl in Hdue. unfold clock' in Hdue. lia.
    + intros Hlt. assert (Hlt' : (d < TIMEOUT_MS)%Z) by lia.
      destruct (Hearly Hlt') as [Hs Hmine]. unfold timersFire. split.
      * rewrite Hkeep; [done|]. intros n pr Hn Hdue Hpr.
        destruct (Huniq _ _ Hn Hpr) as [-> _]. rewrite Hmine in Hn.
        injection Hn as <-. unfold due, clock' in Hdue; simpl in Hdue. lia.
      * rewrite reject_due_table, Hmine. simpl.
        destruct (_ <=? _)%Z eqn:Hdue; [|done]. unfold clock' in Hdue. lia.
    + intros Hge. unfold timersFire.
      destruct (Z.lt_ge_cases d TIMEOUT_MS) as [Hlt|Hlate'].
      * destruct (Hearly Hlt) as [_ Hmine].
        apply (Hrej p nonce mine); [done| |done].
        unfold due, clock'; simpl. lia.
      * rewrite Hkeep; [by apply Hlate|]. intros n pr Hn _ Hpr.
        destruct (Huniq _ _ Hn Hpr) as [_ Hlt]. lia.
Qed.

Lemma duration_nonneg op : (0 <= duration op)%Z.
Proof. destruct op; simpl; lia. Qed.

Lemma elapsed_cons op ops : elapsed (op :: ops) = (duration op + elapsed ops)%Z.
Proof. by destruct op. Qed.

Lemma elapsed_nonneg ops : (0 <= elapsed ops)%Z.
Proof.
  induction ops as [|op ops IH]; [done|].
  rewrite elapsed_cons. pose proof (duration_nonneg op). lia.
Qed.

Lemma waiting_apply_all ops :
  Forall (leaves_alone nonce token) ops ->
  forall d st, (0 <= d)%Z -> waiting d st ->
  waiting (d + elapsed ops) (apply_all ops st).
Proof.
  induction 1 as [|op ops Hop Hops IH]; intros d st Hd Hw.
  - simpl. by rewrite Z.add_0_r.
  - rewrite elapsed_cons, Z.add_assoc. apply IH.
    + pose proof (duration_nonneg op). lia.
    + by apply waiting_apply.
Qed.

Lemma waiting_registered cm :
  wf cm -> table cm !! nonce = None -> p = next cm ->
  waiting 0 (now, snd (waitForCode now nonce token cm)).
Proof.
  intros [Hwt Hws] Hfree Hp. unfold waitForCode, CodeManager.waiting.
  rewrite Hfree; simpl. rewrite <- Hp.
  split; [lia|]. split; [lia|]. split; [|split].
  - intros n pr. destruct (decide (nonce = n)) as [->|Hne].
    + by rewrite lookup_insert_eq.
    + rewrite lookup_insert_ne by done. intros Hn Hpr.
      apply Hwt in Hn. lia.
  - intros _. split; [|by rewrite lookup_insert_eq].
    destruct (settlements cm !! p) eqn:Hs; [|done].
    apply Hws in Hs. lia.
  - unfold TIMEOUT_MS. lia.
Qed.
End one_wait.

(** C3.  A wait registered at time [now] with a free nonce, followed by
    operations among which none delivers a code for the nonce and none
    cancels its token, is pending as long as less than 60 000 ms have
    passed, and from 60 000 ms on it is rejected with [Timeout] and no
    entry of the table holds its promise any more. *)
Theorem wait_times_out_at_60s now nonce token cm ops :
  wf cm -> table cm !! nonce = None ->
  Forall (leaves_alone nonce token) ops ->
  let p := fst (waitForCode now nonce token cm) in
  let st := apply_all ops (now, snd (waitForCode now nonce token cm)) in
  fst st = (now + elapsed ops)%Z
  /\ ((elapsed ops < 60000)%Z ->
      settlements (snd st) !! p = None
      /\ table (snd st) !! nonce
         = Some {| promise := p; cancellation := token;
                   deadline := (now + 60000)%Z |})
  /\ ((60000 <= elapsed ops)%Z ->
      settlements (snd st) !! p = Some (Fail Timeout)
      /\ forall n pr, table (snd st) !! n = Some pr -> promise pr <> p).
Proof.
  intros Hwf Hfree Hops p st.
  assert (Hp : p = next cm) by (unfold p, waitForCode; by destruct (_ !! _)).
  pose proof (waiting_registered now nonce token p cm Hwf Hfree Hp) as H0.
  pose proof (waiting_apply_all now nonce token p ops Hops 0
                (now, snd (waitForCode now nonce token cm)) (Z.le_refl 0) H0)
    as (Hclock & _ & Huniq & Hearly & Hlate).
  rewrite Z.add_0_l in *. fold st in Hclock, Huniq, Hearly, Hlate.
  split; [done|]. split; [done|].
  intros Hge. split; [by apply Hlate|].
  intros n pr Hn Hpr. destruct (Huniq _ _ Hn Hpr) as [_ Hlt].
  unfold TIMEOUT_MS in Hlt. lia.
Qed.

Lemma wait_times_out_at_60s_witness :
  let p := fst (waitForCode 0 "nonce" 0 empty) in
  let st := apply_all [Elapse 59999; ResolveCode "other" "42"; Elapse 2]
              (0%Z, snd (waitForCode 0 "nonce" 0 empty)) in
  fst st = (0 + 60001)%Z
  /\ ((60001 < 60000)%Z ->
      settlements (snd st) !! p = None
      /\ table (snd st) !! "nonce"
         = Some {| promise := p; cancellation := 0; deadline := (0 + 60000)%Z |})
  /\ ((60000 <= 60001)%Z ->
      settlements (snd st) !! p = Some (Fail Timeout)
      /\ forall n pr, table (snd st) !! n = Some pr -> promise pr <> p).
Proof.
  apply (wait_times_out_at_60s 0 "nonce" 0 empty
           [Elapse 59999; ResolveCode "other" "42"; Elapse 2]).
  - apply wf_empty.
  - reflexivity.
  - repeat constructor; simpl; discriminate.
Defined.

End CodeManagerFacts.

Module ProxiedFacts.
Import MultiStep Proxied.
Import CodeManagerFacts.

(** ** The registry under the events *)

Section registry_steps.
Variables (nonce : string) (p : nat) (mine : CodeManager.PendingRequest).
Variable before : list (string * string).
Variable cm : CodeManager.t.
Hypothesis Ho : CodeManager.owns nonce p mine cm.
Hypothesis Hh : CodeManager.heard nonce p before cm.

Lemma settles_to_mono s cm' :
  CodeManager.settles_to p s cm cm' ->
  forall s0, CodeManager.settlements cm !! p = Some s0 ->
             CodeManager.settlements cm' !! p = Some s0.
Proof. unfold CodeManager.settles_to. intros -> s0 ->. done. Qed.

Lemma advances_resolveCode n c :
  CodeManager.advances nonce p mine before cm (CodeManager.resolveCode n c cm).
Proof.
  destruct (owns_resolveCode nonce p mine n c cm Ho) as [Ho' Hto].
  split_and!; [done| |by eapply settles_to_mono].
  by eapply heard_resolveCode.
Qed.

Lemma advances_reject_due due e :
  CodeManager.advances nonce p mine before cm (CodeManager.reject_due due e cm).
Proof.
  destruct (owns_reject_due nonce p mine due e cm Ho) as [Ho' Hto].
  split_and!; [done| |by eapply settles_to_mono].
  by eapply heard_reject_due.
Qed.

Lemma advances_waitForCode now n tk :
  CodeManager.advances nonce p mine before cm (snd (CodeManager.waitForCode now n tk cm)).
Proof.
  destruct (owns_waitForCode nonce p mine now n tk cm Ho) as [Ho' Hto].
  split_and!; [done| |by eapply settles_to_mono].
  by eapply heard_waitForCode.
Qed.

Lemma advances_apply op now :
  CodeManager.advances nonce p mine before cm (snd (CodeManager.apply op (now, cm))).
Proof.
  destruct op; simpl.
  - apply advances_waitForCode.
  - apply advances_resolveCode.
  - apply advances_reject_due.
  - apply advances_reject_due.
Qed.
End registry_steps.

(** ** The invocation under the events *)

(** Reads the fields of an updated invocation, leaving the registry's
    operations folded. *)
Ltac fields :=
  cbn [with_registry with_source with_phase with_prompt finish
       clock codeManager cancelTokenSource codePromise phase opened prompt
       outcome token isCancellationRequested isDisposed] in *.

Section invocation.
Variables (cfg : Config) (options : OAuth2TriggerOptions).
Variables (tk : nat) (start : Z) (before : list (string * string)) (p : nat).

Local Abbreviation loose := (Proxied.loose cfg options tk start before p).
Local Abbreviation consistent :=
  (Proxied.consistent cfg options tk start before p).
Local Abbreviation advances :=
  (CodeManager.advances (nonce options) p (CodeManager.entry p tk start) before).

Lemma loose_with_registry i now cm' :
  loose i -> advances (codeManager i) cm' -> loose (with_registry now cm' i).
Proof.
  intros (Hp & Htk & Ho & Hh & Hdone & Hdisp & Hcanc & Hok & Herr)
         (Ho' & Hh' & Hmono).
  unfold Proxied.loose, settledCode in *; simpl. rewrite Hp in *.
  split_and!; try done.
  - intros Hc. destruct (Hcanc Hc) as [?|Hs]; [by left|right].
    destruct (CodeManager.settlements (codeManager i) !! p) eqn:E; [|done].
    by rewrite (Hmono _ eq_refl).
  - intros r Hr. destruct (Hok r Hr) as [? Hs]. split; [done|].
    by apply Hmono.
  - intros e He. by apply Hmono, Herr.
Qed.

Lemma loose_with_prompt i pr : loose i -> loose (with_prompt pr i).
Proof. done. Qed.

Lemma loose_with_phase i ph :
  loose i -> phase i <> Done -> ph <> Done -> loose (with_phase ph i).
Proof.
  intros (Hp & Htk & Ho & Hh & Hdone & Hdisp & Hcanc & Hok & Herr) Hph Hph'.
  unfold Proxied.loose, settledCode in *; simpl.
  split_and!; try done.
  - split; [done|]. intros Hout. by apply Hdone in Hout.
  - split; [|done]. intros Hd. by apply Hdisp in Hd.
  - intros Hc. destruct (Hcanc Hc) as [?|?]; [done|by right].
Qed.

(** [cancelTokenSource.cancel()]: on a live source with a pending wait,
    the wait is rejected with [Cancelled] and its entry leaves the table. *)
Lemma loose_cancel i :
  loose i ->
  loose (cancel i)
  /\ isCancellationRequested (cancelTokenSource (cancel i)) = true
  /\ phase (cancel i) = phase i
  /\ outcome (cancel i) = outcome i
  /\ prompt (cancel i) = prompt i
  /\ (isCancellationRequested (cancelTokenSource i) = false ->
      isDisposed (cancelTokenSource i) = false ->
      settledCode i = None ->
      settledCode (cancel i) = Some (CodeManager.Fail CodeManager.Cancelled)
      /\ CodeManager.table (codeManager (cancel i)) !! nonce options = None).
Proof.
  intros Hl. unfold cancel.
  destruct (isCancellationRequested (cancelTokenSource i)) eqn:Hc.
  { split_and!; try done. }
  destruct (isDisposed (cancelTokenSource i)) eqn:Hd.
  { split_and!; try done.
    destruct Hl as (Hp & Htk & Ho & Hh & Hdone & Hdisp & Hcanc & Hok & Herr).
    unfold Proxied.loose, settledCode in *; simpl.
    rewrite Hd in Hdisp. split_and!; try done. intros _. left. by apply Hdisp. }
  pose proof Hl as (Hp & Htk & Ho & Hh & Hdone & Hdisp & Hcanc & Hok & Herr).
  set (due := fun pr => CodeManager.cancellation pr =? token (cancelTokenSource i)).
  destruct (owns_reject_due _ _ _ due CodeManager.Cancelled _ Ho)
    as [Ho' Hto].
  assert (Hdue : due (CodeManager.entry p tk start) = true).
  { unfold due; simpl. rewrite Htk. apply Nat.eqb_refl. }
  unfold CodeManager.settles_to in Hto. rewrite Hdue in Hto.
  split_and!; try done.
  - destruct (advances_reject_due _ _ _ before _ Ho Hh due
                CodeManager.Cancelled) as (_ & Hh' & Hmono).
    unfold Proxied.loose, settledCode in *; fields. rewrite Hp in *.
    unfold CodeManager.cancellationRequested. fold due.
    split_and!; try done.
    + by rewrite <- Hd.
    + intros _. right. rewrite Hto.
      by destruct (CodeManager.settlements (codeManager i) !! p).
    + intros r Hr. destruct (Hok r Hr) as [? Hs]. split; [done|].
      by apply Hmono.
    + intros e He. by apply Hmono, Herr.
  - intros _ _ Hs. unfold settledCode in *; fields. rewrite Hp in *.
    unfold CodeManager.cancellationRequested. fold due.
    rewrite Hto, Hs. split; [done|].
    destruct Ho as (_ & _ & _ & Hpend).
    by rewrite reject_due_table, (Hpend Hs), Hdue.
Qed.

Lemma loose_finish i r :
  loose i -> phase i <> Done ->
  match r with
  | inl r => redirectUri r = PROXIED_REDIRECT_URI cfg
             /\ settledCode i = Some (CodeManager.Code (code r))
  | inr (Wait e) => settledCode i = Some (CodeManager.Fail e)
  | inr (Host _) => True
  end ->
  consistent (finish r i).
Proof.
  intros (Hp & Htk & Ho & Hh & Hdone & Hdisp & Hcanc & Hok & Herr) Hph Hr.
  split; [|done].
  unfold Proxied.loose, settledCode in *; simpl.
  split_and!; try done.
  - by left.
  - intros r' [= ->]. done.
  - intros e [= ->]. done.
Qed.

Lemma consistent_await_code i : loose i -> consistent (await_code cfg i).
Proof.
  intros Hl. unfold await_code.
  destruct (phase i) eqn:Hph; try (split; [done|]; by rewrite Hph).
  destruct (CodeManager.settlements (codeManager i) !! codePromise i)
    as [[c|e]|] eqn:Hs.
  - apply loose_finish; [done|by rewrite Hph|done].
  - apply loose_finish; [done|by rewrite Hph|done].
  - by split.
Qed.

Lemma loose_on_input ev i : loose i -> loose (on_input options ev i).
Proof.
  intros Hl. unfold on_input.
  destruct (prompt i) as [pr|]; [|done].
  destruct (pastedCode pr); [|done|done].
  destruct (snd (listeners _ ev _)) as [|pasted|[| |msg]].
  - by apply loose_with_prompt.
  - apply loose_with_prompt, loose_with_registry; [done|].
    destruct Hl as (Hp & Htk & Ho & Hh & _). by apply advances_resolveCode.
  - by apply loose_with_prompt.
  - apply loose_with_prompt. by apply loose_cancel.
  - by apply loose_with_prompt.
Qed.

Lemma loose_on_registry op i : loose i -> loose (on_registry op i).
Proof.
  intros Hl. pose proof Hl as (Hp & Htk & Ho & Hh & _). unfold on_registry.
  destruct op as [n tk'|n c|tk'|ms].
  - simpl. apply loose_with_registry; [done|]. by apply advances_waitForCode.
  - simpl. apply loose_with_registry; [done|]. by apply advances_resolveCode.
  - destruct (_ =? _); [done|].
    apply loose_with_registry; [done|]. by apply advances_reject_due.
  - simpl. apply loose_with_registry; [done|]. by apply advances_reject_due.
Qed.

Lemma consistent_handle ev i :
  consistent i -> consistent (handle cfg options ev i).
Proof.
  intros Hc. pose proof Hc as [Hl Hpend].
  destruct ev as [uri|msg|ok|msg|ev| |op]; simpl.
  - case_eq (phase i); intros Hph; try assumption.
    pose proof Hl as (Hp & Htk & Ho & Hh & Hdone & Hdisp & Hcanc & Hok & Herr).
    split; [|done]. unfold Proxied.loose, settledCode in *; simpl.
    rewrite Hph in *. split_and!; try done.
    + split; [done|]. intros Hout. by apply Hdone in Hout.
    + split; [|done]. intros Hd. by apply Hdisp in Hd.
    + intros Hcr. destruct (Hcanc Hcr) as [?|?]; [done|by right].
  - case_eq (phase i); intros Hph; try assumption.
    apply loose_finish; [done|by rewrite Hph|done].
  - case_eq (phase i); intros Hph; try assumption.
    apply consistent_await_code, loose_with_phase; [|simpl; by rewrite Hph|done].
    by apply loose_with_prompt.
  - case_eq (phase i); intros Hph; try assumption.
    apply loose_finish; [done|by rewrite Hph|done].
  - by apply consistent_await_code, loose_on_input.
  - by apply consistent_await_code, loose_cancel.
  - by apply consistent_await_code, loose_on_registry.
Qed.

Lemma consistent_after evs i :
  consistent i -> consistent (after cfg options evs i).
Proof.
  revert i. induction evs as [|ev evs IH]; intros i Hi; [done|].
  simpl. by apply IH, consistent_handle.
Qed.
End invocation.

Lemma consistent_trigger cfg options tk now cm :
  CodeManager.wf cm ->
  consistent cfg options tk now (CodeManager.resolveCalls cm)
    (CodeManager.next cm) (trigger options tk now cm).
Proof.
  intros Hwf. unfold trigger.
  destruct (CodeManager.waitForCode now (nonce options) tk cm) as [p cm'] eqn:Hw.
  assert (Hp : p = CodeManager.next cm).
  { unfold CodeManager.waitForCode in Hw.
    destruct (_ !! _); by injection Hw as <- _. }
  destruct (owns_registered (nonce options) p (CodeManager.entry p tk now)
              now tk cm Hwf) as [Ho Hs]; [by rewrite Hw|done|].
  rewrite Hw in Ho, Hs; simpl in Ho, Hs.
  split; [|done]. unfold loose, settledCode; simpl. rewrite <- Hp.
  split_and!; try done.
  exists []. split.
  - unfold CodeManager.waitForCode in Hw.
    destruct (_ !! _); injection Hw as _ <-; simpl; by rewrite app_nil_r.
  - rewrite Hs. destruct (CodeManager.table cm !! nonce options); [done|].
    intros c' Hin. by apply elem_of_nil in Hin.
Qed.

(** ** The wizard under the events *)

Lemma prompted_frame i i' :
  prompt i' = prompt i ->
  phase i' = phase i \/ phase i' = Done
  \/ (prompt i = None /\ phase i' <> AwaitingCode) ->
  prompted i -> prompted i'.
Proof.
  intros Hpr Hph (Hsome & Hphase & Hok). unfold prompted. rewrite Hpr.
  split_and!; [| |done].
  - intros Hw. destruct Hph as [Hph|[Hph|[_ Hph]]]; [|congruence..].
    apply Hsome. congruence.
  - intros Hp. destruct Hph as [->|[->|[Hph _]]]; [by apply Hphase|by right|done].
Qed.

Lemma await_code_frame cfg i :
  prompt (await_code cfg i) = prompt i
  /\ (phase (await_code cfg i) = phase i \/ phase (await_code cfg i) = Done).
Proof.
  unfold await_code. destruct (phase i) eqn:Hph;
    try (split; [done|by left]).
  destruct (CodeManager.settlements (codeManager i) !! codePromise i)
    as [[c|e]|];
    split; try done; first [by left | by right].
Qed.

Lemma prompted_await_code cfg i : prompted i -> prompted (await_code cfg i).
Proof.
  destruct (await_code_frame cfg i) as [Hpr [Hph|Hph]];
    apply prompted_frame; auto.
Qed.

Lemma cancel_frame i :
  prompt (cancel i) = prompt i /\ phase (cancel i) = phase i.
Proof.
  unfold cancel. destruct (isCancellationRequested _); [done|].
  by destruct (isDisposed _).
Qed.

Lemma on_registry_frame op i :
  prompt (on_registry op i) = prompt i /\ phase (on_registry op i) = phase i.
Proof.
  unfold on_registry. destruct op; simpl; try done. by destruct (_ =? _).
Qed.

Lemma listeners_frame opts ev w :
  visible (fst (listeners opts ev w)) = visible w
  /\ disposeCalls (fst (listeners opts ev w)) = disposeCalls w.
Proof.
  destruct ev as [text| | |b]; unfold listeners; simpl; try done.
  by destruct (decide (b = QuickInputButtons_Back)).
Qed.

(** The wizard as [promptForAuthorizationCode] starts it. *)
Lemma prompt_ok_started i pr :
  prompt (promptForAuthorizationCode i) = Some pr -> prompt_ok pr.
Proof.
  intros [= <-]. eexists. simpl. split_and!; reflexivity.
Qed.

(** An event of the box keeps the wizard in order: the box stays on screen
    while its promise is pending, and is disposed when the promise
    settles. *)
Lemma prompt_ok_on_input options ev i :
  (forall pr, prompt i = Some pr -> prompt_ok pr) ->
  forall pr, prompt (on_input options ev i) = Some pr -> prompt_ok pr.
Proof.
  intros Hok pr'. unfold on_input.
  destruct (prompt i) as [pr|] eqn:Hpr; [|by rewrite Hpr].
  specialize (Hok pr eq_refl).
  destruct pr as [[st cur ws inv] box wz]. unfold prompt_ok in Hok.
  simpl in *.
  destruct box; [|rewrite Hpr; intros [= <-]; exact Hok..].
  destruct Hok as (w & -> & -> & -> & -> & -> & Hvis & Hdisp).
  simpl.
  destruct (listeners_frame AUTHORIZATION_CODE_BOX ev w) as [Hv Hd].
  destruct (snd (listeners AUTHORIZATION_CODE_BOX ev w)) as [|pasted|[| |msg]];
    intros [= <-];
    [exists (fst (listeners AUTHORIZATION_CODE_BOX ev w))
    |exists (dispose (fst (listeners AUTHORIZATION_CODE_BOX ev w)))..];
    simpl; rewrite ?Hv, ?Hd, ?Hvis, ?Hdisp; by split_and!.
Qed.

Lemma on_input_phase options ev i : phase (on_input options ev i) = phase i.
Proof.
  unfold on_input. destruct (prompt i) as [pr|]; [|done].
  destruct (pastedCode pr); [|done..].
  destruct (snd _) as [|?|[| |?]]; simpl; try done.
  by destruct (cancel_frame i) as [_ ->].
Qed.

Lemma prompted_on_input options ev i :
  prompted i -> prompted (on_input options ev i).
Proof.
  intros (Hsome & Hphase & Hok). unfold prompted.
  rewrite on_input_phase. split_and!.
  - intros Hph. specialize (Hsome Hph). unfold on_input.
    destruct (prompt i) as [pr|] eqn:Hpr; [|done].
    destruct (pastedCode pr); [|by rewrite Hpr..].
    by destruct (snd _) as [|?|[| |?]].
  - intros Hp. apply Hphase. intros Hnone. apply Hp.
    unfold on_input. by rewrite Hnone.
  - by apply prompt_ok_on_input.
Qed.

Lemma prompted_handle cfg options ev i :
  prompted i -> prompted (handle cfg options ev i).
Proof.
  intros Hp. destruct ev as [uri|msg|ok|msg|ev| |op]; simpl.
  - case_eq (phase i); intros Hph; try assumption.
    apply (prompted_frame i); [done| |done]. right; right. split; [|done].
    destruct Hp as (_ & Hphase & _).
    destruct (prompt i); [|done].
    destruct Hphase as [?|?]; [done|congruence..].
  - case_eq (phase i); intros Hph; try assumption.
    apply (prompted_frame i); [done| |done]. by right; left.
  - case_eq (phase i); intros Hph; try assumption.
    apply prompted_await_code. split_and!; simpl; [done|by left|].
    apply (prompt_ok_started i).
  - case_eq (phase i); intros Hph; try assumption.
    apply (prompted_frame i); [done| |done]. by right; left.
  - by apply prompted_await_code, prompted_on_input.
  - apply prompted_await_code.
    destruct (cancel_frame i) as [? ?]. apply (prompted_frame i); auto.
  - apply prompted_await_code.
    destruct (on_registry_frame op i) as [? ?]. apply (prompted_frame i); auto.
Qed.

Lemma prompted_after cfg options evs i :
  prompted i -> prompted (after cfg options evs i).
Proof.
  revert i. induction evs as [|ev evs IH]; intros i Hi; [done|].
  simpl. by apply IH, prompted_handle.
Qed.

Lemma prompted_trigger options tk now cm : prompted (trigger options tk now cm).
Proof.
  unfold trigger. destruct (CodeManager.waitForCode _ _ _ _) as [p cm'].
  split_and!; simpl; try done.
Qed.

(** The wizard of [promptForAuthorizationCode], taken up when its step
    has settled, is a run of [MultiStepInput.run] on a step that shows the
    box and ends as the step did. *)
Lemma wizard_is_a_run w o p :
  let r := {| shown := [w]; MultiStep.outcome := o |} in
  let pr := leave_step o p
              (call authorizationCodeStep r
                 (enter authorizationCodeStep new_MultiStepInput)) in
  MultiStep.run (fun _ _ => r) 1 authorizationCodeStep = (wizard pr, input pr).
Proof. by destruct o as [[s|]|[| |message]]. Qed.

(** ** The claims on [trigger] *)

Lemma reachable cfg options tk now cm evs :
  CodeManager.wf cm ->
  let i := after cfg options evs (trigger options tk now cm) in
  consistent cfg options tk now (CodeManager.resolveCalls cm)
    (CodeManager.next cm) i
  /\ prompted i.
Proof.
  intros Hwf. split.
  - by apply consistent_after, consistent_trigger.
  - apply prompted_after, prompted_trigger.
Qed.

(** No entry of the table holds a settled promise. *)
Lemma settled_entry_gone nonce p mine cm s :
  CodeManager.owns nonce p mine cm ->
  CodeManager.settlements cm !! p = Some s ->
  forall n e, CodeManager.table cm !! n = Some e -> CodeManager.promise e <> p.
Proof.
  intros (_ & _ & Huniq & _) Hs n e Hn Hp.
  destruct (Huniq _ _ Hn Hp) as (_ & _ & Hnone). congruence.
Qed.

(** C1.  Whenever [trigger] resolves, on whatever flow object, at whatever
    time and after whatever events (whatever URI [asExternalUri] produced
    among them), its result carries as [redirectUri] the fixed
    [ColabApiDomain + "/vscode/redirect"], and as [code] the code of the
    first [resolveCode] call made for the nonce of the request after its
    registration. *)
Theorem trigger_resolves_with_proxied_redirect cfg options tk now cm evs r :
  CodeManager.wf cm ->
  let i := after cfg options evs (trigger options tk now cm) in
  outcome i = Some (inl r) ->
  redirectUri r = ColabApiDomain cfg +:+ "/vscode/redirect"
  /\ CodeManager.first_delivery (nonce options) (CodeManager.resolveCalls cm)
       (code r) (CodeManager.resolveCalls (codeManager i)).
Proof.
  intros Hwf i Hr.
  destruct (reachable cfg options tk now cm evs Hwf) as [[Hl _] _].
  fold i in Hl.
  destruct Hl as (Hp & _ & _ & (new & _ & Hheard) & _ & _ & _ & Hok & _).
  destruct (Hok r Hr) as [Huri Hs]. split; [done|].
  unfold settledCode in Hs. rewrite Hp in Hs. by rewrite Hs in Hheard.
Qed.

Lemma trigger_resolves_with_proxied_redirect_witness :
  let i := after ProxiedTests.TEST_CONFIG ProxiedTests.defaultTriggerOpts
             ProxiedTests.pastes_the_code ProxiedTests.triggered in
  redirectUri {| code := "42";
                 redirectUri := "https://colab.example/vscode/redirect" |}
  = ColabApiDomain ProxiedTests.TEST_CONFIG +:+ "/vscode/redirect"
  /\ CodeManager.first_delivery "nonce" [] "42"
       (CodeManager.resolveCalls (codeManager i)).
Proof.
  apply (trigger_resolves_with_proxied_redirect ProxiedTests.TEST_CONFIG
           ProxiedTests.defaultTriggerOpts 0 0 CodeManager.empty
           ProxiedTests.pastes_the_code
           {| code := "42";
              redirectUri := "https://colab.example/vscode/redirect" |}
           wf_empty).
  vm_compute. reflexivity.
Defined.

(** C2.  While [trigger] is pending and the manual-entry box is on screen,
    the wait in the registry observes the token of the invocation's one
    [CancellationTokenSource].  Dismissing the box rejects its promise
    with [InputFlowAction.cancel]; the step cancels that source (the
    wizard itself fulfils), the registry rejects the wait with [Cancelled]
    and drops its entry, and [trigger] rejects with [Cancelled]. *)
Theorem dismissing_the_box_cancels cfg options tk now cm evs pr :
  CodeManager.wf cm ->
  let i := after cfg options evs (trigger options tk now cm) in
  outcome i = None -> prompt i = Some pr -> pastedCode pr = Pending ->
  let i' := handle cfg options (Input DidHide) i in
  (exists e,
      CodeManager.table (codeManager i) !! nonce options = Some e
      /\ CodeManager.promise e = codePromise i
      /\ CodeManager.cancellation e = token (cancelTokenSource i)
      /\ isCancellationRequested (cancelTokenSource i) = false)
  /\ (exists pr',
       prompt i' = Some pr'
       /\ pastedCode pr' = Failed InputFlowAction_cancel
       /\ wizard pr' = Fulfilled)
  /\ isCancellationRequested (cancelTokenSource i') = true
  /\ settledCode i' = Some (CodeManager.Fail CodeManager.Cancelled)
  /\ CodeManager.table (codeManager i') !! nonce options = None
  /\ outcome i' = Some (inr (Wait CodeManager.Cancelled)).
Proof.
  intros Hwf i Hout Hpr Hbox i'.
  destruct (reachable cfg options tk now cm evs Hwf) as [[Hl Hpend] Hprompted].
  fold i in Hl, Hpend, Hprompted.
  pose proof Hl as (Hp & Htk & Ho & _ & Hdone & Hdisp & Hcanc & _).
  destruct Hprompted as (_ & Hphase & _).
  assert (Hph : phase i = AwaitingCode).
  { destruct Hphase as [?|Hd]; [by rewrite Hpr|done|].
    apply Hdone in Hd. done. }
  specialize (Hpend Hph).
  assert (Hnc : isCancellationRequested (cancelTokenSource i) = false).
  { destruct (isCancellationRequested _); [|done].
    destruct (Hcanc eq_refl) as [Hd|Hs]; [congruence|done]. }
  assert (Hnd : isDisposed (cancelTokenSource i) = false).
  { destruct (isDisposed _); [|done].
    assert (phase i = Done) by (by apply Hdisp). congruence. }
  destruct (loose_cancel cfg options tk now _ _ i Hl)
    as (_ & Hflag & Hcph & Hcout & _ & Hrej).
  destruct (Hrej Hnc Hnd Hpend) as [Hs Hgone].
  set (PR := leave_step (Return None) (Failed InputFlowAction_cancel)
               (on_current
                  (fun w => fst (listeners AUTHORIZATION_CODE_BOX DidHide w))
                  (input pr))).
  assert (Hi' : i' = finish (inr (Wait CodeManager.Cancelled))
                       (with_prompt PR (cancel i))).
  { subst i' PR. unfold handle, on_input. rewrite Hpr, Hbox.
    cbn [listeners configureNavigation snd]. unfold await_code. fields.
    rewrite Hcph, Hph.
    unfold settledCode in Hs. by rewrite Hs. }
  rewrite Hi'. unfold settledCode in *. fields. split_and!; try done.
  - exists (CodeManager.entry (CodeManager.next cm) tk now).
    destruct Ho as (_ & _ & _ & Hmine). rewrite Hp in Hpend.
    split_and!; [by apply Hmine|by rewrite Hp|by rewrite Htk|done].
  - by exists PR.
Qed.

Lemma dismissing_the_box_cancels_witness :
  let i := after ProxiedTests.TEST_CONFIG ProxiedTests.defaultTriggerOpts
             ProxiedTests.shows_the_box ProxiedTests.triggered in
  let i' := handle ProxiedTests.TEST_CONFIG ProxiedTests.defaultTriggerOpts
              (Input DidHide) i in
  (exists e,
      CodeManager.table (codeManager i) !! "nonce" = Some e
      /\ CodeManager.promise e = codePromise i
      /\ CodeManager.cancellation e = token (cancelTokenSource i)
      /\ isCancellationRequested (cancelTokenSource i) = false)
  /\ (exists pr',
       prompt i' = Some pr'
       /\ pastedCode pr' = Failed InputFlowAction_cancel
       /\ wizard pr' = Fulfilled)
  /\ isCancellationRequested (cancelTokenSource i') = true
  /\ settledCode i' = Some (CodeManager.Fail CodeManager.Cancelled)
  /\ CodeManager.table (codeManager i') !! "nonce" = None
  /\ outcome i' = Some (inr (Wait CodeManager.Cancelled)).
Proof.
  apply (dismissing_the_box_cancels ProxiedTests.TEST_CONFIG
           ProxiedTests.defaultTriggerOpts 0 0 CodeManager.empty
           ProxiedTests.shows_the_box
           {| input :=
                call authorizationCodeStep
                  {| shown := [configure AUTHORIZATION_CODE_BOX];
                     MultiStep.outcome := Return None |}
                  (enter authorizationCodeStep new_MultiStepInput);
              pastedCode := Pending; wizard := Running |}
           wf_empty); reflexivity.
Defined.

(** The end-to-end runs of the test-suite. *)
Example pasted_code_resolves :
  outcome (after ProxiedTests.TEST_CONFIG ProxiedTests.defaultTriggerOpts
             ProxiedTests.pastes_the_code ProxiedTests.triggered)
  = Some (inl {| code := "42";
                 redirectUri := "https://colab.example/vscode/redirect" |}).
Proof. reflexivity. Qed.

Example dismissal_rejects :
  outcome (after ProxiedTests.TEST_CONFIG ProxiedTests.defaultTriggerOpts
             ProxiedTests.dismisses_the_box ProxiedTests.triggered)
  = Some (inr (Wait CodeManager.Cancelled)).
Proof. reflexivity. Qed.

(** C7, as the code has it.  Every exit of [trigger] disposes the
    cancellation token source; when [trigger] exits on the settled wait
    (a code, [Cancelled], [Timeout], [DuplicateNonce]) no entry of the
    registry holds the wait any more, so its timeout is gone with it; and
    once the promise of the manual-entry box is settled (an accepted code,
    a dismissal, back) the wizard has ended and the box has been disposed,
    exactly once.  That is the [finally] of [MultiStepInput.step], which
    disposes the current widget whatever ends the loop of any wizard. *)
Theorem trigger_releases_what_it_holds cfg options tk now cm evs :
  CodeManager.wf cm ->
  let i := after cfg options evs (trigger options tk now cm) in
  (outcome i <> None -> isDisposed (cancelTokenSource i) = true)
  /\ (forall r,
       outcome i = Some r -> (forall message, r <> inr (Host message)) ->
       forall n e, CodeManager.table (codeManager i) !! n = Some e ->
                   CodeManager.promise e <> codePromise i)
  /\ (forall pr,
       prompt i = Some pr -> pastedCode pr <> Pending ->
       wizard pr <> Running
       /\ exists w, inputBox i = Some w
                    /\ visible w = false /\ disposeCalls w = 1)
  /\ (forall B fuel start this c final,
       MultiStep.step B fuel start this = (c, final) -> c <> Running ->
       forall k w, current final = Some k -> widgets final !! k = Some w ->
                   visible w = false /\ 0 < disposeCalls w).
Proof.
  intros Hwf i.
  destruct (reachable cfg options tk now cm evs Hwf) as [[Hl _] Hprompted].
  fold i in Hl, Hprompted.
  destruct Hl as (Hp & _ & Ho & _ & Hdone & Hdisp & _ & Hok & Herr).
  split_and!.
  - intros Hout. by apply Hdisp, Hdone.
  - intros r Hr Hhost. rewrite Hp.
    destruct r as [r|[e|message]].
    + destruct (Hok r Hr) as [_ Hs]. unfold settledCode in Hs.
      rewrite Hp in Hs. by eapply settled_entry_gone.
    + specialize (Herr e Hr). unfold settledCode in Herr.
      rewrite Hp in Herr. by eapply settled_entry_gone.
    + by destruct (Hhost message).
  - intros pr Hpr Hbox. destruct Hprompted as (_ & _ & Hpok).
    destruct (Hpok pr Hpr) as (w & Hcur & Hws & _ & Hstate).
    destruct (pastedCode pr); [done| |];
      destruct Hstate as (Hwz & Hvis & Hd); (split; [done|]);
      exists w; unfold inputBox; rewrite Hpr; simpl;
      rewrite Hcur; simpl; by rewrite Hws.
  - apply MultiStepFacts.step_disposes_current.
Qed.

Lemma trigger_releases_what_it_holds_witness :
  let i := after ProxiedTests.TEST_CONFIG ProxiedTests.defaultTriggerOpts
             ProxiedTests.dismisses_the_box ProxiedTests.triggered in
  (outcome i <> None -> isDisposed (cancelTokenSource i) = true)
  /\ (forall r,
       outcome i = Some r -> (forall message, r <> inr (Host message)) ->
       forall n e, CodeManager.table (codeManager i) !! n = Some e ->
                   CodeManager.promise e <> codePromise i)
  /\ (forall pr,
       prompt i = Some pr -> pastedCode pr <> Pending ->
       wizard pr <> Running
       /\ exists w, inputBox i = Some w
                    /\ visible w = false /\ disposeCalls w = 1)
  /\ (forall B fuel start this c final,
       MultiStep.step B fuel start this = (c, final) -> c <> Running ->
       forall k w, current final = Some k -> widgets final !! k = Some w ->
                   visible w = false /\ 0 < disposeCalls w).
Proof.
  apply (trigger_releases_what_it_holds ProxiedTests.TEST_CONFIG
           ProxiedTests.defaultTriggerOpts 0 0 CodeManager.empty
           ProxiedTests.dismisses_the_box wf_empty).
Defined.

(** The caller's cancellation rejects [trigger] and leaves the box on
    screen as well. *)
Example caller_cancellation_leaves_the_box :
  let i := after ProxiedTests.TEST_CONFIG ProxiedTests.defaultTriggerOpts
             (ProxiedTests.shows_the_box ++ [CallerCancels])
             ProxiedTests.triggered in
  outcome i = Some (inr (Wait CodeManager.Cancelled))
  /\ (visible <$> inputBox i) = Some true.
Proof. split; reflexivity. Qed.

(** C7, as stated, fails: when the wait times out with the box on screen,
    [trigger] rejects with [Timeout] and the box is still displayed,
    never disposed, its wizard still running. *)
Lemma timeout_leaves_the_box_on_screen :
  let i := after ProxiedTests.TEST_CONFIG ProxiedTests.defaultTriggerOpts
             ProxiedTests.waits_too_long ProxiedTests.triggered in
  outcome i = Some (inr (Wait CodeManager.Timeout))
  /\ (wizard <$> prompt i) = Some Running
  /\ exists w, inputBox i = Some w
               /\ visible w = true /\ disposeCalls w = 0.
Proof.
  split_and!; [reflexivity..|].
  eexists. split_and!; reflexivity.
Qed.

End ProxiedFacts.

Module JSONFacts.
Import JSON.

(** ** Strings *)

Lemma hexval_hex d : (d < 16)%N -> hexval (hex d) = Some d.
Proof.
  intros Hd.
  assert (Hall : forall m, m < 16 -> hexval (hex (N.of_nat m)) = Some (N.of_nat m)).
  { intros m Hm. do 16 (destruct m as [|m]; [reflexivity|]). lia. }
  rewrite <- (N2Nat.id d). apply Hall. lia.
Qed.

Lemma read_chars_escape n t :
  (n < 65536)%N -> read_chars (escape n t) = push n (read_chars t).
Proof.
  intros Hn. unfold escape.
  pose proof (N.div_mod n 16 ltac:(done)).
  pose proof (N.div_mod (n / 16) 16 ltac:(done)).
  pose proof (N.div_mod (n / 16 / 16) 16 ltac:(done)).
  pose proof (N.mod_lt n 16 ltac:(done)).
  pose proof (N.mod_lt (n / 16) 16 ltac:(done)).
  pose proof (N.mod_lt (n / 16 / 16) 16 ltac:(done)).
  set (a := (n / 16)%N) in *. set (b := (a / 16)%N) in *.
  set (c := (b / 16)%N) in *.
  set (d0 := (n mod 16)%N) in *. set (d1 := (a mod 16)%N) in *.
  set (d2 := (b mod 16)%N) in *.
  clearbody a b c d0 d1 d2.
  cbn [read_chars]. change (BACKSLASH =? QUOTE)%N with false.
  change (BACKSLASH =? BACKSLASH)%N with true. cbn match.
  change (117 =? QUOTE)%N with false. change (117 =? BACKSLASH)%N with false.
  change (117 =? 47)%N with false. change (117 =? 98)%N with false.
  change (117 =? 102)%N with false. change (117 =? 110)%N with false.
  change (117 =? 114)%N with false. change (117 =? 116)%N with false.
  change (117 =? 117)%N with true. cbn match.
  rewrite !hexval_hex by lia. f_equal. lia.
Qed.

Lemma read_chars_literal n t :
  (32 <= n)%N -> n <> QUOTE -> n <> BACKSLASH ->
  read_chars (n :: t) = push n (read_chars t).
Proof.
  intros Hn Hq Hb. cbn [read_chars].
  apply N.eqb_neq in Hq, Hb. rewrite Hq, Hb.
  by replace (n <? 32)%N with false by (symmetry; apply N.ltb_ge; lia).
Qed.

Lemma read_chars_write_unit n t :
  read_chars (write_unit n t) = push n (read_chars t).
Proof.
  unfold write_unit.
  destruct (N.eqb_spec n QUOTE) as [->|Hq]; [reflexivity|].
  destruct (N.eqb_spec n BACKSLASH) as [->|Hb]; [reflexivity|].
  destruct (N.eqb_spec n 8) as [->|?]; [reflexivity|].
  destruct (N.eqb_spec n 12) as [->|?]; [reflexivity|].
  destruct (N.eqb_spec n 10) as [->|?]; [reflexivity|].
  destruct (N.eqb_spec n 13) as [->|?]; [reflexivity|].
  destruct (N.eqb_spec n 9) as [->|?]; [reflexivity|].
  destruct (N.ltb_spec n 32) as [Hc|Hc].
  { apply read_chars_escape. lia. }
  destruct (is_high n || is_low n) eqn:Hs.
  - apply read_chars_escape. unfold is_high, is_low in Hs.
    apply orb_true_iff in Hs as [Hs|Hs]; apply andb_true_iff in Hs as [_ Hs];
      apply N.leb_le in Hs; lia.
  - by apply read_chars_literal.
Qed.

Lemma read_chars_surrogate n t :
  is_high n || is_low n = true ->
  read_chars (n :: t) = push n (read_chars t).
Proof.
  intros Hs. unfold is_high, is_low in Hs.
  assert (55296 <= n)%N.
  { apply orb_true_iff in Hs as [Hs|Hs]; apply andb_true_iff in Hs as [Hs _];
      apply N.leb_le in Hs; lia. }
  apply read_chars_literal; unfold QUOTE, BACKSLASH; lia.
Qed.

Lemma read_chars_write_chars_le len :
  forall s k, length s <= len ->
              read_chars (write_chars s (QUOTE :: k)) = Some (s, k).
Proof.
  induction len as [|len IH]; intros [|n s] k Hlen; try reflexivity.
  { simpl in Hlen. lia. }
  simpl in Hlen. cbn [write_chars]. destruct s as [|m s].
  - by rewrite read_chars_write_unit.
  - destruct (is_high n && is_low m) eqn:Hpair.
    + apply andb_true_iff in Hpair as [Hn Hm].
      rewrite read_chars_surrogate by (by rewrite Hn).
      rewrite read_chars_surrogate by (rewrite Hm; apply orb_true_r).
      rewrite IH by (simpl in Hlen; lia). done.
    + rewrite read_chars_write_unit, IH by lia. done.
Qed.

Lemma read_chars_write_chars s k :
  read_chars (write_chars s (QUOTE :: k)) = Some (s, k).
Proof. by apply (read_chars_write_chars_le (length s)). Qed.

Lemma length_write_unit n t : length t < length (write_unit n t).
Proof. unfold write_unit, escape. repeat case_match; simpl; lia. Qed.

Lemma length_write_chars s :
  forall k, length k <= length (write_chars s k).
Proof.
  assert (H : forall len s k, length s <= len ->
                length k <= length (write_chars s k)).
  { induction len as [|len IH]; intros [|n s'] k Hlen; simpl in *; try lia.
    destruct s' as [|m s''].
    - pose proof (length_write_unit n k). lia.
    - destruct (is_high n && is_low m).
      + pose proof (IH s'' k ltac:(simpl in Hlen; lia)). simpl. lia.
      + pose proof (IH (m :: s'') k ltac:(simpl in *; lia)).
        pose proof (length_write_unit n (write_chars (m :: s'') k)). lia. }
  intros k. by apply (H (length s)).
Qed.

(** ** Tokens *)

Lemma tokens_Arr x l k :
  tokens (Arr (x :: l)) k = LBracket :: tokens x (tokens_elements l k).
Proof. reflexivity. Qed.

Lemma tokens_Obj key x ms k :
  tokens (Obj ((key, x) :: ms)) k
  = LBrace :: TStr key :: Colon :: tokens x (tokens_members ms k).
Proof. reflexivity. Qed.

Lemma tokens_elements_cons y l k :
  tokens_elements (y :: l) k = Comma :: tokens y (tokens_elements l k).
Proof. reflexivity. Qed.

Lemma tokens_members_cons key y ms k :
  tokens_members ((key, y) :: ms) k
  = Comma :: TStr key :: Colon :: tokens y (tokens_members ms k).
Proof. reflexivity. Qed.

Lemma depth_Arr l : depth (Arr l) = S (depth_elements l).
Proof. reflexivity. Qed.

Lemma depth_Obj ms : depth (Obj ms) = S (depth_members ms).
Proof. reflexivity. Qed.

Lemma depth_elements_cons x l :
  depth_elements (x :: l) = S (depth x + depth_elements l).
Proof. reflexivity. Qed.

Lemma depth_members_cons key x ms :
  depth_members ((key, x) :: ms) = S (depth x + depth_members ms).
Proof. reflexivity. Qed.

(** A value does not start with a closing bracket. *)
Lemma tokens_head v k :
  exists t r, tokens v k = t :: r /\ t <> RBracket /\ t <> RBrace.
Proof.
  destruct v as [|[]|n|s|[|x l]|[|[key x] ms]];
    eexists _, _; (split; [reflexivity|]); split; discriminate.
Qed.

Lemma read_array f t r :
  t <> RBracket ->
  read (S f) (LBracket :: t :: r)
  = '(x, r1) ← read f (t :: r);
    '(xs, r2) ← read_elements f r1;
    Some (Arr (x :: xs), r2).
Proof. intros Ht. by destruct t. Qed.

(** Reading the tokens of a value gives the value back, with fuel for
    its depth. *)
Lemma read_tokens f :
  (forall v k, depth v <= f -> read f (tokens v k) = Some (v, k))
  /\ (forall l k, S (depth_elements l) <= f ->
       read_elements f (tokens_elements l k) = Some (l, k))
  /\ (forall ms k, S (depth_members ms) <= f ->
       read_members f (tokens_members ms k) = Some (ms, k)).
Proof.
  induction f as [|f (IHv & IHl & IHm)].
  { split_and!; [intros [] k H; simpl in H; lia | intros; lia..]. }
  split_and!.
  - intros v k Hd. destruct v as [|[]|n|s|[|x l]|[|[key x] ms]];
      try reflexivity.
    + rewrite depth_Arr, depth_elements_cons in Hd. rewrite tokens_Arr.
      destruct (tokens_head x (tokens_elements l k)) as (t & r & Heq & Ht & _).
      rewrite Heq, read_array by done. rewrite <- Heq.
      rewrite IHv by lia. cbn [mbind option_bind]. by rewrite IHl by lia.
    + rewrite depth_Obj, depth_members_cons in Hd. rewrite tokens_Obj.
      cbn [read]. rewrite IHv by lia. cbn [mbind option_bind].
      by rewrite IHm by lia.
  - intros [|y l] k Hd; [reflexivity|].
    rewrite depth_elements_cons in Hd.
    rewrite tokens_elements_cons. cbn [read_elements].
    rewrite IHv by lia. cbn [mbind option_bind]. by rewrite IHl by lia.
  - intros [|[key y] ms] k Hd; [reflexivity|].
    rewrite depth_members_cons in Hd.
    rewrite tokens_members_cons. cbn [read_members].
    rewrite IHv by lia. cbn [mbind option_bind]. by rewrite IHm by lia.
Qed.

(** A value has at least as many tokens as it is deep, and the tokens of
    a value without numbers are plain. *)
Lemma tokens_facts n :
  (forall v k, depth v <= n ->
     depth v + length k <= length (tokens v k)
     /\ (numberless v = true -> Forall (fun t => plain t = true) k ->
         Forall (fun t => plain t = true) (tokens v k)))
  /\ (forall l k, depth_elements l <= n ->
       depth_elements l + 1 + length k <= length (tokens_elements l k)
       /\ (forallb numberless l = true ->
           Forall (fun t => plain t = true) k ->
           Forall (fun t => plain t = true) (tokens_elements l k)))
  /\ (forall ms k, depth_members ms <= n ->
       depth_members ms + 1 + length k <= length (tokens_members ms k)
       /\ (forallb (fun m => numberless (snd m)) ms = true ->
           Forall (fun t => plain t = true) k ->
           Forall (fun t => plain t = true) (tokens_members ms k))).
Proof.
  induction n as [|n (IHv & IHl & IHm)].
  { split_and!.
    - intros [] k H; simpl in H; lia.
    - intros [|x l] k H; [|rewrite depth_elements_cons in H; lia].
      split; [simpl; lia|]. intros _ Hk. by constructor.
    - intros [|[key x] ms] k H; [|rewrite depth_members_cons in H; lia].
      split; [simpl; lia|]. intros _ Hk. by constructor. }
  split_and!.
  - intros v k Hd. destruct v as [|[]|lit|s|[|x l]|[|[key x] ms]];
      try (split; [simpl; lia|]; intros Hn Hk; try done;
           repeat constructor; done).
    + rewrite depth_Arr, depth_elements_cons in *. rewrite tokens_Arr.
      destruct (IHl l k ltac:(lia)) as [Hlen Hpl].
      destruct (IHv x (tokens_elements l k) ltac:(lia)) as [Hlen' Hpl'].
      split; [simpl; lia|]. intros Hn Hk. cbn [numberless forallb] in Hn.
      apply andb_true_iff in Hn as [Hx Hl].
      constructor; [done|]. by apply Hpl', Hpl.
    + rewrite depth_Obj, depth_members_cons in *. rewrite tokens_Obj.
      destruct (IHm ms k ltac:(lia)) as [Hlen Hpl].
      destruct (IHv x (tokens_members ms k) ltac:(lia)) as [Hlen' Hpl'].
      split; [simpl; lia|]. intros Hn Hk. cbn [numberless forallb snd] in Hn.
      apply andb_true_iff in Hn as [Hx Hl].
      repeat (constructor; [done|]). by apply Hpl', Hpl.
  - intros [|y l] k Hd.
    { split; [simpl; lia|]. intros _ Hk. by constructor. }
    rewrite depth_elements_cons in *. rewrite tokens_elements_cons.
    destruct (IHl l k ltac:(lia)) as [Hlen Hpl].
    destruct (IHv y (tokens_elements l k) ltac:(lia)) as [Hlen' Hpl'].
    split; [simpl; lia|]. intros Hn Hk. cbn [forallb] in Hn.
    apply andb_true_iff in Hn as [Hy Hl].
    constructor; [done|]. by apply Hpl', Hpl.
  - intros [|[key y] ms] k Hd.
    { split; [simpl; lia|]. intros _ Hk. by constructor. }
    rewrite depth_members_cons in *. rewrite tokens_members_cons.
    destruct (IHm ms k ltac:(lia)) as [Hlen Hpl].
    destruct (IHv y (tokens_members ms k) ltac:(lia)) as [Hlen' Hpl'].
    split; [simpl; lia|]. intros Hn Hk. cbn [forallb snd] in Hn.
    apply andb_true_iff in Hn as [Hy Hl].
    repeat (constructor; [done|]). by apply Hpl', Hpl.
Qed.

(** ** The tokens of a text *)

Lemma skip_ws_app g s :
  forallb is_ws g = true -> skip_ws (g ++ s) = skip_ws s.
Proof.
  induction g as [|c g IH]; [done|]. simpl.
  intros H. apply andb_true_iff in H as [-> Hg]. by apply IH.
Qed.

Lemma skip_ws_head c r : is_ws c = false -> skip_ws (c :: r) = c :: r.
Proof. simpl. by intros ->. Qed.

(** A plain token is read back from its text, which starts with no white
    space and is not empty. *)
Lemma scan_render t r :
  plain t = true ->
  scan (render t r) = Some (t, r)
  /\ skip_ws (render t r) = render t r
  /\ length r < length (render t r).
Proof.
  intros Hp. destruct t; try discriminate;
    try (split_and!; [reflexivity|reflexivity|simpl; lia]).
  split_and!.
  - unfold render, write_string. cbn [scan].
    change (QUOTE =? LBRACKET)%N with false.
    change (QUOTE =? RBRACKET)%N with false.
    change (QUOTE =? LBRACE)%N with false.
    change (QUOTE =? RBRACE)%N with false.
    change (QUOTE =? COMMA)%N with false.
    change (QUOTE =? COLON)%N with false.
    change (QUOTE =? QUOTE)%N with true. cbn match.
    by rewrite read_chars_write_chars.
  - reflexivity.
  - unfold render, write_string. simpl.
    pose proof (length_write_chars s (QUOTE :: r)). simpl in *. lia.
Qed.

Lemma lex_spaced gap :
  (forall j, forallb is_ws (gap j) = true) ->
  forall toks i f,
    Forall (fun t => plain t = true) toks ->
    length toks < f ->
    lex f (spaced gap i toks) = Some toks
    /\ length toks <= length (spaced gap i toks).
Proof.
  intros Hgap. induction toks as [|t toks IH]; intros i f Hpl Hf.
  - destruct f as [|f]; [simpl in Hf; lia|]. split; [|simpl; lia].
    cbn [spaced lex]. rewrite <- (app_nil_r (gap i)).
    by rewrite skip_ws_app.
  - destruct f as [|f]; [simpl in Hf; lia|].
    apply Forall_cons in Hpl as [Ht Hpl].
    destruct (IH (S i) f Hpl ltac:(simpl in Hf; lia)) as [Hlex Hlen].
    destruct (scan_render t (spaced gap (S i) toks) Ht) as (Hscan & Hskip & Hl).
    split.
    + cbn [spaced lex]. rewrite skip_ws_app, Hskip by done.
      destruct (render t (spaced gap (S i) toks)) as [|c r] eqn:Hr.
      { simpl in Hl. lia. }
      rewrite Hscan. cbn [mbind option_bind]. by rewrite Hlex.
    + cbn [spaced]. rewrite length_app. simpl. lia.
Qed.

(** [JSON.parse] reads the tokens of a value without numbers back as the
    value, whatever white space stands between them. *)
Lemma parse_spaced gap v :
  (forall j, forallb is_ws (gap j) = true) ->
  numberless v = true ->
  parse (spaced gap 0 (tokens v [])) = Some v.
Proof.
  intros Hgap Hv. unfold parse.
  destruct (tokens_facts (depth v)) as [Hfacts _].
  destruct (Hfacts v [] (le_n _)) as [Hdepth Hplain].
  specialize (Hplain Hv ltac:(constructor)).
  destruct (lex_spaced gap Hgap (tokens v []) 0
              (S (length (spaced gap 0 (tokens v [])))) Hplain)
    as [Hlex Hlen].
  { pose proof (proj2 (lex_spaced gap Hgap (tokens v []) 0
                         (S (length (tokens v []))) Hplain (Nat.lt_succ_diag_r _))).
    lia. }
  rewrite Hlex. cbn [mbind option_bind].
  destruct (read_tokens (S (length (tokens v [])))) as [Hread _].
  rewrite Hread; [done|]. simpl in Hdepth. lia.
Qed.

(** [JSON.parse(JSON.stringify(v))] is [v]. *)
Lemma parse_stringify v : numberless v = true -> parse (stringify v) = Some v.
Proof. intros Hv. by apply parse_spaced. Qed.

End JSONFacts.

Module JSONFuelFacts.
Import JSON.

(** ** The fuel of [parse] is enough *)

Lemma skip_ws_length s : length (skip_ws s) <= length s.
Proof.
  induction s as [|c s IH]; [done|]. simpl.
  destruct (is_ws c); simpl; lia.
Qed.

Lemma push_Some c o x r :
  push c o = Some (x, r) -> exists x', o = Some (x', r).
Proof. destruct o as [[x' r']|]; [|done]. intros [= <- <-]. by exists x'. Qed.

Lemma read_chars_shorter_le n :
  forall s x r, length s <= n -> read_chars s = Some (x, r) ->
                length r < length s.
Proof.
  induction n as [|n IH]; intros [|c s] x r Hlen; try done.
  { simpl in Hlen. lia. }
  simpl in Hlen. cbn [read_chars].
  assert (Hpush : forall d s', length s' <= n ->
            push d (read_chars s') = Some (x, r) -> length r < length s').
  { intros d s' Hs' H. apply push_Some in H as [x' H]. by apply (IH s' x'). }
  destruct (c =? QUOTE)%N.
  { intros [= <- <-]. simpl. lia. }
  destruct (c =? BACKSLASH)%N.
  - destruct s as [|e r1]; [done|]. simpl in Hlen.
    repeat (match goal with
            | |- (if ?b then _ else _) = _ -> _ =>
                destruct b;
                [try (intros H; apply Hpush in H; simpl in *; lia)|]
            end); [|done].
    destruct r1 as [|h1 [|h2 [|h3 [|h4 r2]]]]; try done.
    destruct (hexval h1), (hexval h2), (hexval h3), (hexval h4); try done.
    intros H. apply Hpush in H; simpl in *; lia.
  - destruct (c <? 32)%N; [done|].
    intros H. apply Hpush in H; simpl in *; lia.
Qed.

Lemma read_chars_shorter s x r :
  read_chars s = Some (x, r) -> length r < length s.
Proof. by apply (read_chars_shorter_le (length s)). Qed.

Lemma expect_shorter word s r : expect word s = Some r -> length r <= length s.
Proof.
  revert s. induction word as [|w word IH]; intros s.
  { destruct s; intros [= <-]; lia. }
  destruct s as [|c s]; [done|]. cbn [expect].
  destruct (w =? c)%N; [|done]. intros H. apply IH in H. simpl. lia.
Qed.

Lemma digits_shorter s : length (snd (digits s)) <= length s.
Proof.
  induction s as [|c s IH]; [done|]. cbn [digits].
  destruct (is_digit c); [|done].
  destruct (digits s) as [ds r]. simpl in *. lia.
Qed.

Lemma digits1_shorter s ds r : digits1 s = Some (ds, r) -> length r <= length s.
Proof.
  unfold digits1. pose proof (digits_shorter s) as H.
  destruct (digits s) as [[|d ds'] r']; [done|]. by intros [= <- <-].
Qed.

Lemma number_shorter s literal r :
  number s = Some (literal, r) -> length r < length s.
Proof.
  unfold number.
  set (signed := match s with
                 | c :: r0 => if (c =? 45)%N then ([c], r0) else ([], s)
                 | [] => ([], s)
                 end).
  assert (Hs1 : length (snd signed) <= length s).
  { subst signed. destruct s as [|c r0]; [done|].
    destruct (c =? 45)%N; simpl; lia. }
  destruct signed as [sign s1]. simpl in Hs1.
  set (int := match s1 with
              | c :: r0 =>
                  if (c =? 48)%N then Some ([c], r0)
                  else if is_digit c
                       then let '(ds, r') := digits r0 in Some (c :: ds, r')
                       else None
              | [] => None
              end).
  assert (Hs2 : forall i s2, int = Some (i, s2) -> length s2 < length s1).
  { subst int. intros i s2. destruct s1 as [|c r0]; [done|].
    destruct (c =? 48)%N; [intros [= <- <-]; simpl; lia|].
    destruct (is_digit c); [|done].
    pose proof (digits_shorter r0). destruct (digits r0) as [ds r'].
    intros [= <- <-]. simpl in *. lia. }
  destruct int as [[i s2]|]; [|done]. specialize (Hs2 i s2 eq_refl).
  cbn [mbind option_bind].
  set (frac := match s2 with
               | c :: r0 =>
                   if (c =? 46)%N
                   then '(ds, r') ← digits1 r0; Some (c :: ds, r')
                   else Some ([], s2)
               | [] => Some ([], s2)
               end).
  assert (Hs3 : forall fr s3, frac = Some (fr, s3) -> length s3 <= length s2).
  { subst frac. intros fr s3. destruct s2 as [|c r0]; [by intros [= <- <-]|].
    destruct (c =? 46)%N; [|by intros [= <- <-]].
    destruct (digits1 r0) as [[ds r']|] eqn:Hd; [|done].
    apply digits1_shorter in Hd. intros [= <- <-]. simpl. lia. }
  destruct frac as [[fr s3]|]; [|done]. specialize (Hs3 fr s3 eq_refl).
  cbn [mbind option_bind].
  destruct s3 as [|c r0]; cbn [mbind option_bind].
  { intros [= <- <-]. lia. }
  destruct ((c =? 101) || (c =? 69))%N; cbn [mbind option_bind].
  - set (esigned := match r0 with
                    | d :: r' =>
                        if ((d =? 43) || (d =? 45))%N then ([d], r') else ([], r0)
                    | [] => ([], r0)
                    end).
    assert (He : length (snd esigned) <= length r0).
    { subst esigned. destruct r0 as [|d r']; [done|].
      destruct ((d =? 43) || (d =? 45))%N; simpl; lia. }
    destruct esigned as [esign r1]. simpl in He.
    destruct (digits1 r1) as [[ds r']|] eqn:Hd; [|done].
    apply digits1_shorter in Hd. cbn [mbind option_bind].
    intros [= <- <-]. simpl in *. lia.
  - intros [= <- <-]. lia.
Qed.

(** A token takes at least one code unit. *)
Lemma scan_shorter s t r : scan s = Some (t, r) -> length r < length s.
Proof.
  destruct s as [|c s]; [done|]. cbn [scan].
  repeat (match goal with
          | |- (if ?b then _ else _) = _ -> _ =>
              destruct b; [try (intros [= <- <-]; simpl; lia)|]
          end); try done.
  - destruct (read_chars s) as [[str r']|] eqn:H; [|done].
    apply read_chars_shorter in H. intros [= <- <-]. simpl. lia.
  - destruct (expect _ s) as [r'|] eqn:H; [|done].
    apply expect_shorter in H. intros [= <- <-]. simpl. lia.
  - destruct (expect _ s) as [r'|] eqn:H; [|done].
    apply expect_shorter in H. intros [= <- <-]. simpl. lia.
  - destruct (expect _ s) as [r'|] eqn:H; [|done].
    apply expect_shorter in H. intros [= <- <-]. simpl. lia.
  - destruct (number (c :: s)) as [[literal r']|] eqn:H; [|done].
    apply number_shorter in H. by intros [= <- <-].
Qed.

(** The tokens that some fuel finds are found with any fuel above the
    length of the text. *)
Lemma lex_enough f :
  forall s ts f', lex f s = Some ts -> length s < f' -> lex f' s = Some ts.
Proof.
  induction f as [|f IH]; intros s ts f' Hlex Hf'; [done|].
  destruct f' as [|f']; [lia|]. cbn [lex] in *.
  pose proof (skip_ws_length s) as Hskip.
  destruct (skip_ws s) as [|c r]; [done|].
  destruct (scan (c :: r)) as [[t r']|] eqn:Hscan; [|done].
  apply scan_shorter in Hscan. cbn [mbind option_bind] in *.
  destruct (lex f r') as [ts'|] eqn:Hts; [|done].
  rewrite (IH r' ts' f' Hts); [done|]. simpl in *. lia.
Qed.

(** The value that some fuel reads is read with any fuel above the
    number of tokens, and a value takes at least one token. *)
Lemma read_enough f :
  (forall ts v r, read f ts = Some (v, r) ->
     length r < length ts
     /\ forall f', length ts < f' -> read f' ts = Some (v, r))
  /\ (forall ts l r, read_elements f ts = Some (l, r) ->
        length r < length ts
        /\ forall f', length ts < f' -> read_elements f' ts = Some (l, r))
  /\ (forall ts ms r, read_members f ts = Some (ms, r) ->
        length r < length ts
        /\ forall f', length ts < f' -> read_members f' ts = Some (ms, r)).
Proof.
  induction f as [|f (IHv & IHl & IHm)]; [done|].
  assert (Hseq : forall ts x r1 xs r2,
            read f ts = Some (x, r1) -> read_elements f r1 = Some (xs, r2) ->
            length r2 < length ts
            /\ forall f', length ts < f' ->
                 ('(x, r1) ← read f' ts; '(xs, r2) ← read_elements f' r1;
                  Some (x :: xs, r2)) = Some (x :: xs, r2)).
  { intros ts x r1 xs r2 Hx Hxs.
    apply IHv in Hx as [Hlx Hx]. apply IHl in Hxs as [Hlxs Hxs].
    split; [lia|]. intros f' Hf'. rewrite (Hx f') by lia.
    cbn [mbind option_bind]. by rewrite (Hxs f') by lia. }
  assert (Hmem : forall ts x r1 ms r2,
            read f ts = Some (x, r1) -> read_members f r1 = Some (ms, r2) ->
            length r2 < length ts
            /\ forall f', length ts < f' ->
                 forall key,
                 ('(x, r1) ← read f' ts; '(ms, r2) ← read_members f' r1;
                  Some ((key, x) :: ms, r2)) = Some ((key, x) :: ms, r2)).
  { intros ts x r1 ms r2 Hx Hms.
    apply IHv in Hx as [Hlx Hx]. apply IHm in Hms as [Hlms Hms].
    split; [lia|]. intros f' Hf' key. rewrite (Hx f') by lia.
    cbn [mbind option_bind]. by rewrite (Hms f') by lia. }
  split_and!.
  - intros ts v r. destruct ts as [|t ts]; [done|].
    destruct t; try done; cbn [read];
      try (intros [= <- <-]; split; [simpl; lia|];
           intros [|f'] Hf'; [simpl in Hf'; lia|done]).
    + destruct ts as [|t ts]; [by destruct f|].
      assert (Hcases : t = RBracket \/ t <> RBracket)
        by (destruct t; (by left) || (by right)).
      destruct Hcases as [->|Ht].
      { intros [= <- <-]. split; [simpl; lia|].
        intros [|f'] Hf'; [simpl in Hf'; lia|done]. }
      intros H.
      assert (H' : ('(x, r1) ← read f (t :: ts);
                    '(xs, r2) ← read_elements f r1;
                    Some (Arr (x :: xs), r2)) = Some (v, r))
        by (by destruct t).
      clear H. destruct (read f (t :: ts)) as [[x r1]|] eqn:Hx; [|done].
      cbn [mbind option_bind] in H'.
      destruct (read_elements f r1) as [[xs r2]|] eqn:Hxs; [|done].
      injection H' as <- <-.
      destruct (Hseq _ _ _ _ _ Hx Hxs) as [Hlen Hf]. split; [simpl in *; lia|].
      intros [|f'] Hf'; [simpl in Hf'; lia|].
      rewrite JSONFacts.read_array by done.
      specialize (Hf f' ltac:(simpl in *; lia)).
      destruct (read f' (t :: ts)) as [[x' r1']|]; [|done].
      cbn [mbind option_bind] in *.
      destruct (read_elements f' r1') as [[xs' r2']|]; [|done].
      by injection Hf as -> -> ->.
    + destruct ts as [|t ts]; [done|].
      destruct t; try done.
      { intros [= <- <-]. split; [simpl; lia|].
        intros [|f'] Hf'; [simpl in Hf'; lia|done]. }
      destruct ts as [|t ts]; [done|]. destruct t; try done.
      destruct (read f ts) as [[x r1]|] eqn:Hx; [|done].
      cbn [mbind option_bind].
      destruct (read_members f r1) as [[ms r2]|] eqn:Hms; [|done].
      intros [= <- <-].
      destruct (Hmem _ _ _ _ _ Hx Hms) as [Hlen Hf]. split; [simpl in *; lia|].
      intros [|f'] Hf'; [simpl in Hf'; lia|]. cbn [read].
      specialize (Hf f' ltac:(simpl in *; lia) s).
      destruct (read f' ts) as [[x' r1']|]; [|done].
      cbn [mbind option_bind] in *.
      destruct (read_members f' r1') as [[ms' r2']|]; [|done].
      by injection Hf as -> -> ->.
  - intros ts l r. destruct ts as [|t ts]; [done|].
    destruct t; try done; cbn [read_elements].
    + intros [= <- <-]. split; [simpl; lia|].
      intros [|f'] Hf'; [simpl in Hf'; lia|done].
    + destruct (read f ts) as [[x r1]|] eqn:Hx; [|done].
      cbn [mbind option_bind].
      destruct (read_elements f r1) as [[xs r2]|] eqn:Hxs; [|done].
      intros [= <- <-].
      destruct (Hseq _ _ _ _ _ Hx Hxs) as [Hlen Hf]. split; [simpl in *; lia|].
      intros [|f'] Hf'; [simpl in Hf'; lia|]. cbn [read_elements].
      apply Hf. simpl in *. lia.
  - intros ts ms r. destruct ts as [|t ts]; [done|].
    destruct t; try done; cbn [read_members].
    + intros [= <- <-]. split; [simpl; lia|].
      intros [|f'] Hf'; [simpl in Hf'; lia|done].
    + destruct ts as [|t ts]; [done|]. destruct t; try done.
      destruct ts as [|t ts]; [done|]. destruct t; try done.
      destruct (read f ts) as [[x r1]|] eqn:Hx; [|done].
      cbn [mbind option_bind].
      destruct (read_members f r1) as [[ms' r2]|] eqn:Hms; [|done].
      intros [= <- <-].
      destruct (Hmem _ _ _ _ _ Hx Hms) as [Hlen Hf]. split; [simpl in *; lia|].
      intros [|f'] Hf'; [simpl in Hf'; lia|]. cbn [read_members].
      apply Hf. simpl in *. lia.
Qed.

(** [JSON.parse] does not run out of fuel: a text that reads as a value
    with some fuel is parsed as that value. *)
Lemma parse_enough text f g ts v :
  lex f text = Some ts -> read g ts = Some (v, []) -> parse text = Some v.
Proof.
  intros Hlex Hread. unfold parse.
  rewrite (lex_enough f text ts (S (length text)) Hlex) by lia.
  cbn [mbind option_bind].
  destruct (read_enough g) as [Hv _].
  destruct (Hv ts v [] Hread) as [_ Hf].
  by rewrite (Hf (S (length ts))) by lia.
Qed.

End JSONFuelFacts.

Module StorageFacts.
Import Storage.

Lemma strings_parse_back l : mapM z_string (JSON.Str <$> l) = Some l.
Proof.
  induction l as [|x l IH]; [done|].
  rewrite fmap_cons. cbn [mapM z_string mbind option_bind].
  rewrite IH. done.
Qed.

(** ** The properties of an object *)

Lemma get_None key ms : key ∉ ms.*1 -> JSON.get key ms = None.
Proof.
  induction ms as [|[k v] ms IH]; [done|]. cbn [JSON.get fmap list_fmap fst].
  intros Hk. apply not_elem_of_cons in Hk as [Hne Hk].
  rewrite (IH Hk). by rewrite bool_decide_false.
Qed.

(** A property that an object has once is read as it was set. *)
Lemma get_Some key v ms :
  NoDup ms.*1 -> (key, v) ∈ ms -> JSON.get key ms = Some v.
Proof.
  induction ms as [|[k v'] ms IH]; intros Hnd Hin.
  { by apply elem_of_nil in Hin. }
  cbn [fmap list_fmap fst] in Hnd. apply NoDup_cons in Hnd as [Hk Hnd].
  cbn [JSON.get]. apply elem_of_cons in Hin as [[= -> ->]|Hin].
  - rewrite (get_None _ _ Hk). by rewrite bool_decide_true.
  - by rewrite (IH Hnd Hin).
Qed.

Lemma account_member_names a : Inj (=) (=) (fst ∘ account_member a).
Proof. intros [] [] H; done || (vm_compute in H; discriminate). Qed.

Lemma member_names account_order s :
  Inj (=) (=) (fst ∘ member account_order s).
Proof. intros [] [] H; done || (vm_compute in H; discriminate). Qed.

Lemma get_account_member a order p :
  order ≡ₚ ACCOUNT_PROPERTIES ->
  JSON.get (fst (account_member a p)) (account_member a <$> order)
  = Some (snd (account_member a p)).
Proof.
  intros Hp. apply get_Some.
  - rewrite <- list_fmap_compose.
    pose proof (account_member_names a).
    apply (NoDup_fmap_2 _), (NoDup_Permutation_proper _ _ Hp).
    apply (bool_decide_unpack _). vm_compute. exact I.
  - rewrite <- surjective_pairing. apply list_elem_of_fmap_2.
    rewrite Hp. destruct p; set_solver.
Qed.

Lemma get_member account_order s order p :
  order ≡ₚ PROPERTIES ->
  JSON.get (fst (member account_order s p)) (member account_order s <$> order)
  = Some (snd (member account_order s p)).
Proof.
  intros Hp. apply get_Some.
  - rewrite <- list_fmap_compose.
    pose proof (member_names account_order s).
    apply (NoDup_fmap_2 _), (NoDup_Permutation_proper _ _ Hp).
    apply (bool_decide_unpack _). vm_compute. exact I.
  - rewrite <- surjective_pairing. apply list_elem_of_fmap_2.
    rewrite Hp. destruct p; set_solver.
Qed.

Lemma schema_account a order :
  order ≡ₚ ACCOUNT_PROPERTIES ->
  AuthenticationSessionAccountInformationSchema
    (JSON.Obj (account_member a <$> order)) = Some a.
Proof.
  intros Hp. unfold AuthenticationSessionAccountInformationSchema, z_property.
  pose proof (get_account_member a order P_account_id Hp) as Hid.
  pose proof (get_account_member a order P_account_label Hp) as Hlabel.
  cbn [account_member fst snd] in Hid, Hlabel. rewrite Hid, Hlabel.
  by destruct a.
Qed.

(** The element schema reads an object of a session as the session. *)
Lemma schema_object order account_order s :
  order ≡ₚ PROPERTIES -> account_order ≡ₚ ACCOUNT_PROPERTIES ->
  AuthenticationSessionSchema (object order account_order s) = Some s.
Proof.
  intros Hp Ha. unfold AuthenticationSessionSchema, object, z_property.
  pose proof (get_member account_order s order P_id Hp) as Hid.
  pose proof (get_member account_order s order P_accessToken Hp) as Htoken.
  pose proof (get_member account_order s order P_account Hp) as Haccount.
  pose proof (get_member account_order s order P_scopes Hp) as Hscopes.
  cbn [member fst snd] in Hid, Htoken, Haccount, Hscopes.
  rewrite Hid, Htoken, Haccount, Hscopes.
  cbn [mbind option_bind z_string z_array].
  rewrite (schema_account _ _ Ha), strings_parse_back.
  by destruct s.
Qed.

Lemma schema_is_session o s :
  is_session o s -> AuthenticationSessionsSchema (JSON.Arr [o]) = Some [s].
Proof.
  intros (order & account_order & Hp & Ha & ->).
  unfold AuthenticationSessionsSchema, z_array. cbn [mapM].
  by rewrite (schema_object _ _ _ Hp Ha).
Qed.

Lemma numberless_strings l : forallb JSON.numberless (JSON.Str <$> l) = true.
Proof. by induction l. Qed.

(** An object of a session holds no number. *)
Lemma numberless_is_session o s : is_session o s -> JSON.numberless o = true.
Proof.
  intros (order & account_order & _ & _ & ->).
  unfold object. cbn [JSON.numberless].
  induction order as [|p order IH]; [done|].
  cbn [fmap list_fmap forallb]. rewrite IH, andb_true_r.
  destruct p; cbn [member snd JSON.numberless]; try done.
  - clear IH. induction account_order as [|q ? IHa]; [done|].
    cbn [fmap list_fmap forallb]. rewrite IHa. by destruct q.
  - apply numberless_strings.
Qed.

(** ** getSession *)

(** [getSession] reads the text of an array of one session object,
    whatever the order of the properties and the white space between the
    tokens, as the session. *)
Lemma getSession_spaced provider gap o s st :
  (forall j, forallb JSON.is_ws (gap j) = true) ->
  is_session o s ->
  secrets st !! SESSIONS_KEY provider
  = Some (JSON.spaced gap 0 (JSON.tokens (JSON.Arr [o]) [])) ->
  getSession provider st
  = (inr (Some s),
     {| secrets := secrets st;
        calls := calls st ++ [Get (SESSIONS_KEY provider)] |}).
Proof.
  intros Hgap Ho Hst. unfold getSession, bind, secrets_get. rewrite Hst.
  assert (Hparse : JSON.parse (JSON.spaced gap 0 (JSON.tokens (JSON.Arr [o]) []))
                   = Some (JSON.Arr [o])).
  { apply JSONFacts.parse_spaced; [done|].
    cbn [JSON.numberless forallb]. by rewrite (numberless_is_session o s Ho). }
  destruct (JSON.spaced gap 0 (JSON.tokens (JSON.Arr [o]) [])) as [|c text]
    eqn:Htext.
  { discriminate. }
  unfold parseAuthenticationSessions.
  by rewrite Hparse, (schema_is_session o s Ho).
Qed.

(** What [getSession] does on a storage that holds a session object. *)
Lemma getSession_holds provider o s st :
  is_session o s -> holds provider o st ->
  getSession provider st
  = (inr (Some s),
     {| secrets := secrets st;
        calls := calls st ++ [Get (SESSIONS_KEY provider)] |}).
Proof. intros Ho Hh. by apply (getSession_spaced provider (fun _ => []) o). Qed.

Lemma getSession_nothing provider st :
  secrets st !! SESSIONS_KEY provider = None ->
  getSession provider st
  = (inr None,
     {| secrets := secrets st;
        calls := calls st ++ [Get (SESSIONS_KEY provider)] |}).
Proof. intros Hn. unfold getSession, bind, secrets_get. by rewrite Hn. Qed.

Lemma storeSession_holds provider o st :
  holds provider o (snd (storeSession provider o st)).
Proof. unfold holds, storeSession, secrets_store. simpl. apply lookup_insert_eq. Qed.

(** [getSession] never writes. *)
Lemma getSession_reads provider st :
  secrets (snd (getSession provider st)) = secrets st
  /\ calls (snd (getSession provider st))
     = calls st ++ [Get (SESSIONS_KEY provider)].
Proof.
  unfold getSession, bind, secrets_get.
  destruct (secrets st !! SESSIONS_KEY provider) as [[|c text]|]; [done| |done].
  unfold parseAuthenticationSessions, throw, ret.
  destruct (JSON.parse (c :: text)) as [v|]; [|done].
  destruct (AuthenticationSessionsSchema v) as [l|]; [|done].
  by destruct (negb _).
Qed.

(** C9.  For every session, with strings of any code units, and for every
    order in which the properties of the session object and of its
    account were set, [storeSession] followed by [getSession] returns
    the session, on every secret storage: the text written by
    [JSON.stringify([session])] is read by [JSON.parse] and accepted by
    [AuthenticationSessionsSchema] as the one session it was. *)
Theorem storeSession_getSession provider order account_order s st :
  order ≡ₚ PROPERTIES -> account_order ≡ₚ ACCOUNT_PROPERTIES ->
  fst (getSession provider
         (snd (storeSession provider (object order account_order s) st)))
  = inr (Some s).
Proof.
  intros Hp Ha.
  rewrite (getSession_holds provider (object order account_order s) s);
    [done| |apply storeSession_holds].
  by exists order, account_order.
Qed.

Lemma storeSession_getSession_witness :
  fst (getSession StorageTests.PROVIDER_ID
         (snd (storeSession StorageTests.PROVIDER_ID
                 StorageTests.DEFAULT_SESSION_OBJECT
                 StorageTests.emptyStorage)))
  = inr (Some StorageTests.DEFAULT_SESSION).
Proof.
  apply (storeSession_getSession StorageTests.PROVIDER_ID
           [P_id; P_accessToken; P_account; P_scopes]
           [P_account_id; P_account_label]
           StorageTests.DEFAULT_SESSION StorageTests.emptyStorage);
    reflexivity.
Defined.

(** The text [storeSession] writes for the fixture. *)
Example stored_text_of_the_fixture :
  secrets (snd (storeSession StorageTests.PROVIDER_ID
                  StorageTests.DEFAULT_SESSION_OBJECT
                  StorageTests.emptyStorage)) !! "google.sessions"
  = Some (StorageTests.text
            "[{'id':'1','accessToken':'42','account':{'id':'foo','label':'bar'},'scopes':['baz']}]").
Proof. reflexivity. Qed.

(** A session whose strings hold a quotation mark, a line feed, a code
    unit above 255, a surrogate pair and a lone surrogate, with its
    properties in another order. *)
Example round_trip_of_any_code_units :
  let s := {| id := [34; 10; 26085]%N; accessToken := [55357; 56832]%N;
              account := {| Account.id := [55357]%N; Account.label := [] |};
              scopes := [[92; 8]%N; []] |} in
  let o := object [P_scopes; P_account; P_accessToken; P_id]
             [P_account_label; P_account_id] s in
  fst (getSession StorageTests.PROVIDER_ID
         (snd (storeSession StorageTests.PROVIDER_ID o
                 StorageTests.emptyStorage)))
  = inr (Some s).
Proof. reflexivity. Qed.

(** C10.  [removeSession(sessionId)], on every secret storage, by what
    [getSession] reads of it.  A session whose id is [sessionId]: the
    entry is deleted and the session returned.  A session with another
    id, or nothing: [undefined] is returned, the entries are as they
    were and [delete] is not called.  A text that is not that of one
    session: the error of [getSession] is thrown, and nothing is deleted
    either.  [getSession] reads a session from every storage that holds
    an object of it, and nothing when nothing is stored under the key.
    So a session is returned if and only if [getSession] reads it and
    its id is [sessionId], and [delete] is called if and only if a
    session is returned. *)
Theorem removeSession_removes_the_matching_session provider sessionId st :
  let key := SESSIONS_KEY provider in
  let r := removeSession provider sessionId st in
  match fst (getSession provider st) with
  | inr (Some s) =>
      if decide (id s = sessionId)
      then fst r = inr (Some s)
           /\ secrets (snd r) = delete key (secrets st)
           /\ calls (snd r) = calls st ++ [Get key; Delete key]
      else fst r = inr None
           /\ secrets (snd r) = secrets st
           /\ calls (snd r) = calls st ++ [Get key]
  | inr None =>
      fst r = inr None
      /\ secrets (snd r) = secrets st
      /\ calls (snd r) = calls st ++ [Get key]
  | inl e =>
      fst r = inl e
      /\ secrets (snd r) = secrets st
      /\ calls (snd r) = calls st ++ [Get key]
  end
  /\ (forall o s, is_session o s -> holds provider o st ->
        fst (getSession provider st) = inr (Some s))
  /\ (secrets st !! key = None -> fst (getSession provider st) = inr None)
  /\ (forall s, fst r = inr (Some s)
                <-> fst (getSession provider st) = inr (Some s)
                    /\ id s = sessionId)
  /\ ((exists s, fst r = inr (Some s))
      <-> calls (snd r) = calls st ++ [Get key; Delete key]).
Proof.
  intros key r. subst r. unfold removeSession, bind.
  destruct (getSession_reads provider st) as [Hsec Hcalls].
  split_and!.
  - destruct (getSession provider st) as [[e|[s|]] st'];
      simpl in Hsec, Hcalls; simpl; try done.
    destruct (decide (id s = sessionId)) as [Hid|Hid].
    + rewrite bool_decide_true by done. simpl.
      by rewrite Hsec, Hcalls, <- app_assoc.
    + rewrite bool_decide_false by done. done.
  - intros o s Ho Hh. by rewrite (getSession_holds provider o s st Ho Hh).
  - intros Hn. by rewrite (getSession_nothing provider st Hn).
  - intros s. destruct (getSession provider st) as [[e|[s'|]] st']; simpl;
      try (split; [done|by intros [? _]]).
    case_bool_decide as Hid; simpl.
    + split; [by intros [= ->]|by intros [[= ->] _]].
    + split; [done|]. intros [[= ->] ?]. done.
  - assert (Hne : calls st ++ [Get key] <> calls st ++ [Get key; Delete key]).
    { intros H. by apply app_inv_head in H. }
    destruct (getSession provider st) as [[e|[s'|]] st'];
      simpl in Hsec, Hcalls; simpl;
      try (rewrite Hcalls; split; [by intros [? ?]|done]).
    case_bool_decide as Hid; simpl.
    + rewrite Hcalls, <- app_assoc. split; [done|]. by exists s'.
    + rewrite Hcalls. split; [by intros [? ?]|done].
Qed.

Lemma removeSession_removes_the_matching_session_witness :
  let st := snd (storeSession StorageTests.PROVIDER_ID
                   StorageTests.DEFAULT_SESSION_OBJECT
                   StorageTests.emptyStorage) in
  let r := removeSession StorageTests.PROVIDER_ID (JS.of_string "1") st in
  fst r = inr (Some StorageTests.DEFAULT_SESSION)
  /\ secrets (snd r) = delete "google.sessions" (secrets st)
  /\ calls (snd r)
     = calls st ++ [Get "google.sessions"; Delete "google.sessions"].
Proof.
  exact (proj1 (removeSession_removes_the_matching_session
                  StorageTests.PROVIDER_ID (JS.of_string "1")
                  (snd (storeSession StorageTests.PROVIDER_ID
                          StorageTests.DEFAULT_SESSION_OBJECT
                          StorageTests.emptyStorage)))).
Defined.

(** The cases of the test-suite. *)
Example remove_unknown_session :
  let st := snd (storeSession StorageTests.PROVIDER_ID
                   StorageTests.DEFAULT_SESSION_OBJECT
                   StorageTests.emptyStorage) in
  let r := removeSession StorageTests.PROVIDER_ID
             (JS.of_string "does not exist") st in
  fst r = inr None /\ secrets (snd r) = secrets st
  /\ Delete "google.sessions" ∉ calls (snd r).
Proof.
  split_and!; [reflexivity..|].
  vm_compute. intros H. repeat (apply elem_of_cons in H as [H|H]; [done|]).
  by apply elem_of_nil in H.
Qed.

Example malformed_sessions_are_rejected :
  fst (getSession StorageTests.PROVIDER_ID
         (snd (storeSession StorageTests.PROVIDER_ID
                 StorageTests.MALFORMED_SESSION_OBJECT
                 StorageTests.emptyStorage)))
  = inl ZodError.
Proof. reflexivity. Qed.

End StorageFacts.

Module ProviderFacts.
Import Provider.

(** ** The order of the sort *)

Lemma ascii_compare_lt_trans a b c :
  Ascii.compare a b = Lt -> Ascii.compare b c = Lt -> Ascii.compare a c = Lt.
Proof.
  unfold Ascii.compare. rewrite !N.compare_lt_iff. lia.
Qed.

Lemma compare_lt_trans s1 :
  forall s2 s3,
    String.compare s1 s2 = Lt -> String.compare s2 s3 = Lt ->
    String.compare s1 s3 = Lt.
Proof.
  induction s1 as [|a s1 IH]; intros [|b s2] [|c s3]; simpl; try done.
  destruct (Ascii.compare a b) eqn:Hab; [|intros _|done].
  - apply Ascii.compare_eq_iff in Hab as ->.
    destruct (Ascii.compare b c) eqn:Hbc; [|done..]. apply IH.
  - destruct (Ascii.compare b c) eqn:Hbc; [|intros _|done].
    + apply Ascii.compare_eq_iff in Hbc as <-. by rewrite Hab.
    + by rewrite (ascii_compare_lt_trans a b c).
Qed.

Lemma ltb_trans s1 s2 s3 :
  String.ltb s1 s2 = true -> String.ltb s2 s3 = true -> String.ltb s1 s3 = true.
Proof.
  unfold String.ltb.
  destruct (String.compare s1 s2) eqn:H12; try done.
  destruct (String.compare s2 s3) eqn:H23; try done.
  by rewrite (compare_lt_trans _ _ _ H12 H23).
Qed.

Lemma leb_ne_ltb s1 s2 :
  String.leb s1 s2 = true -> s1 <> s2 -> String.ltb s1 s2 = true.
Proof.
  unfold String.leb, String.ltb.
  destruct (String.compare s1 s2) eqn:H; try done.
  apply String.compare_eq_iff in H. done.
Qed.

Lemma not_leb_ltb s1 s2 : String.leb s1 s2 = false -> String.ltb s2 s1 = true.
Proof.
  unfold String.leb, String.ltb. rewrite (String.compare_antisym s1 s2).
  by destruct (String.compare s2 s1).
Qed.

(** ** The set and the sort *)

Lemma Array_from_Set_acc (l : list string) :
  forall acc : list string,
    NoDup acc ->
    let r := foldl (fun (acc : list string) x =>
                      if bool_decide (x ∈ acc) then acc else acc ++ [x])
               acc l in
    NoDup r /\ forall x, x ∈ r <-> x ∈ acc \/ x ∈ l.
Proof.
  induction l as [|y l IH]; intros acc Hnd; simpl.
  - split; [done|]. intros x. rewrite elem_of_nil. tauto.
  - case_bool_decide as Hy.
    + destruct (IH acc Hnd) as [Hr Hin]. split; [done|].
      intros x. rewrite Hin, elem_of_cons. split; [tauto|].
      intros [?|[->|?]]; auto.
    + destruct (IH (acc ++ [y])) as [Hr Hin].
      { apply NoDup_app. split_and!; [done| |apply NoDup_singleton].
        intros x Hx ->%list_elem_of_singleton. done. }
      split; [done|]. intros x.
      rewrite Hin, elem_of_app, list_elem_of_singleton, elem_of_cons. tauto.
Qed.

Lemma Array_from_Set_spec l :
  NoDup (Array_from_Set l) /\ forall x, x ∈ Array_from_Set l <-> x ∈ l.
Proof.
  destruct (Array_from_Set_acc l [] (NoDup_nil_2)) as [Hnd Hin].
  split; [done|]. intros x. rewrite Hin, elem_of_nil. tauto.
Qed.

Lemma elem_of_insert x y l : x ∈ insert y l <-> x = y \/ x ∈ l.
Proof.
  induction l as [|z l IH]; simpl.
  - rewrite list_elem_of_singleton, elem_of_nil. tauto.
  - destruct (String.leb y z).
    + by rewrite elem_of_cons.
    + rewrite !elem_of_cons, IH. tauto.
Qed.

Lemma elem_of_sort x l : x ∈ sort l <-> x ∈ l.
Proof.
  induction l as [|y l IH]; simpl; [done|].
  by rewrite elem_of_insert, elem_of_cons, IH.
Qed.

Lemma insert_increasing x l :
  x ∉ l -> increasing l -> increasing (insert x l).
Proof.
  unfold increasing. induction l as [|y l IH]; intros Hx Hl; simpl.
  - repeat constructor.
  - apply not_elem_of_cons in Hx as [Hxy Hxl].
    apply StronglySorted_inv in Hl as [Hl Hy].
    destruct (String.leb x y) eqn:Hleb.
    + pose proof (leb_ne_ltb _ _ Hleb Hxy) as Hlt.
      constructor; [by constructor|].
      constructor; [done|].
      eapply Forall_impl; [exact Hy|]. intros z Hz. by eapply ltb_trans.
    + constructor; [by apply IH|].
      apply Forall_forall. intros z Hz.
      apply elem_of_insert in Hz as [->|Hz].
      * by apply not_leb_ltb.
      * rewrite Forall_forall in Hy. by apply Hy.
Qed.

Lemma sort_increasing l : NoDup l -> increasing (sort l).
Proof.
  induction 1 as [|x l Hx Hnd IH]; simpl; [constructor|].
  apply insert_increasing; [|done]. by rewrite elem_of_sort.
Qed.

(** [sortedScopes] is the sorted, duplicate-free union of the requested
    and the required scopes. *)
Lemma sortedScopes_spec scopes :
  increasing (sortedScopes scopes)
  /\ forall x, x ∈ sortedScopes scopes <-> x ∈ scopes \/ x ∈ REQUIRED_SCOPES.
Proof.
  unfold sortedScopes.
  destruct (Array_from_Set_spec (scopes ++ REQUIRED_SCOPES)) as [Hnd Hin].
  split; [by apply sort_increasing|].
  intros x. by rewrite elem_of_sort, Hin, elem_of_app.
Qed.

Section client.
Variable Url : Type.
Variable generateAuthUrl : list (string * string) -> Url.
Variable searchParams : Url -> list (string * string).

(** What is asked of the OAuth2 client library: the query of the URL it
    generates carries the options it is given. *)
Hypothesis generateAuthUrl_carries : forall opts name value,
  (name, value) ∈ opts -> (name, value) ∈ searchParams (generateAuthUrl opts).

End client.


(** The scope parameter of the test-suite. *)
Example required_scopes_only :
  String.concat " " (sortedScopes ["profile"; "email"]) = "email profile".
Proof. reflexivity. Qed.

Example scopes_are_merged :
  String.concat " " (sortedScopes ["openid"; "email"; "drive"; "openid"])
  = "drive email openid profile".
Proof. reflexivity. Qed.

End ProviderFacts.

Module MultiStepRunFacts.
Import MultiStep MultiStepRuns MultiStepFacts.

(** ** One widget on screen *)

Lemma lookup_on_current f this k :
  widgets (on_current f this) !! k
  = if decide (current this = Some k) then f <$> widgets this !! k
    else widgets this !! k.
Proof.
  unfold on_current. destruct (current this) as [c|] eqn:Hc; simpl.
  - rewrite list_lookup_alter. destruct (decide (c = k)) as [->|Hne].
    + by case_decide.
    + case_decide; [congruence|done].
  - done.
Qed.

Lemma on_current_current f this : current (on_current f this) = current this.
Proof. unfold on_current. by destruct (current this) eqn:E. Qed.

Lemma exclusive_on_current f this :
  (forall w, visible (f w) = true -> visible w = true) ->
  exclusive this -> exclusive (on_current f this).
Proof.
  intros Hf Hex k w. rewrite lookup_on_current, on_current_current.
  destruct (decide (current this = Some k)) as [Hc|Hc]; [done|].
  intros Hk Hv. by apply (Hex k w).
Qed.

Lemma cleared_on_current_dispose this :
  exclusive this -> cleared (on_current dispose this).
Proof.
  intros Hex. apply Forall_lookup. intros k w.
  rewrite lookup_on_current.
  destruct (decide (current this = Some k)) as [Hc|Hc].
  - destruct (widgets this !! k); simpl; [|done]. by intros [= <-].
  - intros Hk. destruct (visible w) eqn:Hv; [|done].
    by destruct Hc; apply (Hex k w).
Qed.

Lemma exclusive_make_current w this :
  exclusive this -> exclusive (make_current w this).
Proof.
  intros Hex k w'. unfold make_current; simpl.
  pose proof (cleared_on_current_dispose this Hex) as Hcl.
  intros Hk Hv.
  destruct (decide (k < length (widgets (on_current dispose this)))) as [Hlt|Hge].
  - rewrite lookup_app_l in Hk by done.
    eapply Forall_lookup_1 in Hcl; [|exact Hk]. simpl in Hcl. congruence.
  - apply lookup_lt_Some in Hk. rewrite length_app in Hk. simpl in Hk.
    f_equal. lia.
Qed.

Lemma exclusive_shows ws this :
  exclusive this -> exclusive (foldl (fun acc w => make_current w acc) this ws).
Proof.
  revert this. induction ws as [|w ws IH]; intros this Hex; [done|].
  simpl. by apply IH, exclusive_make_current.
Qed.

Lemma exclusive_call_enter s r this :
  exclusive this -> exclusive (call s r (enter s this)).
Proof.
  intros Hex.
  assert (He : exclusive (enter s this)).
  { unfold enter. apply exclusive_on_current; [done|]. exact Hex. }
  pose proof (exclusive_shows (shown r) _ He) as H.
  intros k w Hk Hv. exact (H k w Hk Hv).
Qed.

Lemma exclusive_settled o this ctl this' :
  settled o this = (ctl, this') -> exclusive this -> exclusive this'.
Proof.
  unfold settled, pop. destruct o as [next|[| |msg]]; simpl.
  - by intros [= _ <-].
  - destruct (_ =? _)%nat; by intros [= _ <-].
  - by intros [= _ <-].
  - by intros [= _ <-].
Qed.

Lemma exclusive_step_loop B fuel :
  forall step this c final,
    step_loop B fuel step this = (c, final) ->
    exclusive this -> exclusive final.
Proof.
  induction fuel as [|fuel IH]; intros [s|] this c final Hrun Hex;
    try (simpl in Hrun; by injection Hrun as <- <-).
  rewrite step_loop_eq in Hrun.
  pose proof (exclusive_call_enter s (B (invoked this) s) this Hex) as Hex1.
  destruct (settled _ _) as [[next|e] t'] eqn:Hset;
    pose proof (exclusive_settled _ _ _ _ Hset Hex1) as Hex2.
  - by eapply IH.
  - by injection Hrun as <- <-.
Qed.

Lemma exclusive_new : exclusive new_MultiStepInput.
Proof. intros k w Hk. done. Qed.

(** X1.  Only one widget is on screen at a time.  While a run goes on, a
    widget that is visible is the current one: showing a widget has
    disposed the one before.  When the run has ended, fulfilled or
    rejected, no widget it showed is left on screen. *)
Theorem one_widget_on_screen B fuel start :
  match run B fuel start with
  | (Running, this) => exclusive this
  | (_, this) => cleared this
  end.
Proof.
  unfold run, step.
  destruct (step_loop B fuel (Some start) new_MultiStepInput) as [c t] eqn:Hloop.
  pose proof (exclusive_step_loop _ _ _ _ _ _ Hloop exclusive_new) as Hex.
  destruct c; [by apply cleared_on_current_dispose..|done].
Qed.


(** ** Errors of the steps *)

(** What the calls of one run add to the log: a call that throws an error
    other than the two sentinels is the last one, and the loop has thrown
    that error. *)
Lemma step_loop_throws B fuel :
  forall step this c final,
    step_loop B fuel step this = (c, final) ->
    exists l,
      invoked final = invoked this ++ l /\
      forall k s msg,
        l !! k = Some s ->
        outcome (B (invoked this ++ take k l) s) = Throw (OtherError msg) ->
        c = Rejected (OtherError msg) /\ length l = S k.
Proof.
  induction fuel as [|fuel IH]; intros [s|] this c final Hrun;
    try (simpl in Hrun; injection Hrun as <- <-; exists []; split;
         [by rewrite app_nil_r | intros k s' msg Hk; by rewrite lookup_nil in Hk]).
  set (r := B (invoked this) s).
  set (t := call s r (enter s this)).
  assert (Hit : invoked t = invoked this ++ [s]) by apply call_enter_invoked.
  rewrite step_loop_eq in Hrun. fold r t in Hrun.
  destruct (settled (outcome r) t) as [[next|e] t'] eqn:Hset;
    pose proof (settled_invoked _ _ _ _ Hset) as Hit'.
  - destruct (IH _ _ _ _ Hrun) as (l' & Hl' & Hlast).
    exists (s :: l'). split.
    + by rewrite Hl', Hit', Hit, <- app_assoc.
    + intros [|k] s' msg Hk Hthrow; simpl in Hk, Hthrow.
      { injection Hk as <-. rewrite app_nil_r in Hthrow. fold r in Hthrow.
        rewrite Hthrow in Hset. discriminate. }
      destruct (Hlast k s' msg Hk) as [-> Hlen].
      { by rewrite Hit', Hit, <- app_assoc. }
      simpl. by rewrite Hlen.
  - injection Hrun as <- <-. exists [s]. split; [by rewrite Hit', Hit|].
    intros [|k] s' msg Hk Hthrow; simpl in Hk, Hthrow.
    + injection Hk as <-. rewrite app_nil_r in Hthrow. fold r in Hthrow.
      rewrite Hthrow in Hset. by injection Hset as <- _.
    + by destruct k.
Qed.

(** X2.  An error of a step other than [InputFlowAction.back] and
    [InputFlowAction.cancel] leaves the run at once: [run] rejects with
    that very error, the step that threw is the last one called, and the
    widget on screen has been disposed. *)
Theorem other_errors_reject_the_run B fuel start c final k s msg :
  run B fuel start = (c, final) ->
  invoked final !! k = Some s ->
  outcome (B (take k (invoked final)) s) = Throw (OtherError msg) ->
  c = Rejected (OtherError msg)
  /\ length (invoked final) = S k
  /\ cleared final.
Proof.
  intros Hrun Hk Hthrow.
  unfold run, step in Hrun.
  destruct (step_loop B fuel (Some start) new_MultiStepInput)
    as [c0 t] eqn:Hloop.
  pose proof (exclusive_step_loop _ _ _ _ _ _ Hloop exclusive_new) as Hex.
  destruct (step_loop_throws _ _ _ _ _ _ Hloop) as (l & Hl & Hlast).
  simpl in Hl.
  assert (Hfin : invoked final = l).
  { destruct c0; injection Hrun as <- <-; by rewrite ?finally_invoked. }
  rewrite Hfin in *.
  destruct (Hlast k s msg Hk Hthrow) as [-> Hlen].
  injection Hrun as <- <-. split_and!; [done..|].
  by apply cleared_on_current_dispose.
Qed.

Lemma other_errors_reject_the_run_witness :
  let r := run shows_a_box_and_fails 1 MultiStepTests.first in
  fst r = Rejected (OtherError "unexpected")
  /\ length (invoked (snd r)) = 1
  /\ cleared (snd r).
Proof.
  apply (other_errors_reject_the_run shows_a_box_and_fails 1
           MultiStepTests.first
           (fst (run shows_a_box_and_fails 1 MultiStepTests.first))
           (snd (run shows_a_box_and_fails 1 MultiStepTests.first))
           0 MultiStepTests.first "unexpected");
    reflexivity.
Defined.


(** ** Chains of steps *)

Lemma step_loop_follows B fuel rest :
  forall s this,
    follows B (invoked this) s rest ->
    exists final,
      step_loop B (S (length rest) + fuel) (Some s) this = (Fulfilled, final)
      /\ invoked final = invoked this ++ s :: rest
      /\ steps final = steps this ++ s :: rest
      /\ (exclusive this -> exclusive final).
Proof.
  induction rest as [|s' rest IH]; intros s this Hf; simpl in Hf.
  - eexists. simpl length. rewrite (loop_return _ _ _ _ _ Hf), step_loop_done.
    split_and!; [done|apply call_enter_invoked|apply call_enter_steps|].
    apply exclusive_call_enter.
  - destruct Hf as [Hs Hf]. simpl length.
    replace (S (S (length rest)) + fuel) with (S (S (length rest) + fuel)) by lia.
    rewrite (loop_return _ _ _ _ _ Hs).
    set (t := call s _ (enter s this)).
    assert (Hit : invoked t = invoked this ++ [s]) by apply call_enter_invoked.
    assert (Hst : steps t = steps this ++ [s]) by apply call_enter_steps.
    destruct (IH s' t) as (final & -> & Hi & Hsteps & Hex); [by rewrite Hit|].
    exists final. rewrite Hi, Hsteps, Hit, Hst, <- !app_assoc.
    split_and!; try done.
    intros He. by apply Hex, exclusive_call_enter.
Qed.

(** X3.  A flow whose steps chain each other without going back runs every
    step once, in the order of the chain, and fulfils: the calls and the
    stack are the chain, and no widget is left on screen. *)
Theorem chained_steps_run_in_order B fuel s rest :
  follows B [] s rest ->
  exists final,
    run B (S (length rest) + fuel) s = (Fulfilled, final)
    /\ invoked final = s :: rest
    /\ steps final = s :: rest
    /\ cleared final.
Proof.
  intros Hf. unfold run, step.
  destruct (step_loop_follows B fuel rest s new_MultiStepInput Hf)
    as (final & -> & Hi & Hs & Hex).
  eexists. split; [reflexivity|].
  rewrite finally_invoked, finally_steps.
  split_and!; [done..|].
  by apply cleared_on_current_dispose, Hex, exclusive_new.
Qed.

Lemma chained_steps_run_in_order_witness :
  exists final,
    run runs_multiple_steps 2 MultiStepTests.first = (Fulfilled, final)
    /\ invoked final = [MultiStepTests.first; MultiStepTests.second]
    /\ steps final = [MultiStepTests.first; MultiStepTests.second]
    /\ cleared final.
Proof.
  apply (chained_steps_run_in_order runs_multiple_steps 0
           MultiStepTests.first [MultiStepTests.second]).
  simpl. split; reflexivity.
Defined.

(** ** The message of an input box *)

Lemma message_is_current_pending opts evs :
  snd (showInputBox opts evs) = Pending ->
  message_is_current opts (fst (showInputBox opts evs)).
Proof.
  induction evs as [|ev evs IH] using rev_ind.
  - intros _. by left.
  - rewrite showInputBox_snoc. unfold input_event.
    destruct (snd (showInputBox opts evs)) as [|v|e] eqn:Hp.
    + specialize (IH eq_refl).
      destruct ev as [text| | |b]; unfold listeners; simpl.
      * intros _. by right.
      * intros _. exact IH.
      * discriminate.
      * destruct (decide (b = QuickInputButtons_Back)); [discriminate|].
        intros _. exact IH.
    + destruct ev; simpl; rewrite ?Hp; discriminate.
    + destruct ev; simpl; rewrite ?Hp; discriminate.
Qed.

(** X4.  While an input box shows a validation message, the message is what
    [validate] says of the current text, and an accept does not resolve
    the box: the promise stays pending and the box is enabled again, its
    text and its message as they were. *)
Theorem shown_message_blocks_accept opts evs :
  snd (showInputBox opts evs) = Pending ->
  truthy (validationMessage (fst (showInputBox opts evs))) = true ->
  let before := fst (showInputBox opts evs) in
  let st := showInputBox opts (evs ++ [DidAccept]) in
  validationMessage before = o_validate opts (value before)
  /\ snd st = Pending
  /\ enabled (fst st) = true /\ busy (fst st) = false
  /\ value (fst st) = value before
  /\ validationMessage (fst st) = validationMessage before.
Proof.
  intros Hp Hm. simpl.
  destruct (message_is_current_pending opts evs Hp) as [Hnone|Hcur].
  { by rewrite Hnone in Hm. }
  split; [done|].
  rewrite showInputBox_snoc. unfold input_event. rewrite Hp.
  unfold listeners; simpl. by rewrite <- Hcur, Hm.
Qed.

Lemma shown_message_blocks_accept_witness :
  let before := fst (showInputBox MultiStepTests.ENTER_FOO [DidChangeValue "fo"]) in
  let st := showInputBox MultiStepTests.ENTER_FOO
              ([DidChangeValue "fo"] ++ [DidAccept]) in
  validationMessage before = o_validate MultiStepTests.ENTER_FOO (value before)
  /\ snd st = Pending
  /\ enabled (fst st) = true /\ busy (fst st) = false
  /\ value (fst st) = value before
  /\ validationMessage (fst st) = validationMessage before.
Proof.
  apply (shown_message_blocks_accept MultiStepTests.ENTER_FOO
           [DidChangeValue "fo"]); reflexivity.
Defined.

End MultiStepRunFacts.

Module QuickPickFacts.
Import MultiStep QuickPick.

Lemma showQuickPick_snoc {T} (opts : QuickPickOptions T) evs ev :
  snd (showQuickPick opts (evs ++ [ev]))
  = pick_event ev (snd (showQuickPick opts evs)).
Proof. unfold showQuickPick; simpl. by rewrite foldl_app. Qed.

Lemma showQuickPick_quiet {T} (opts : QuickPickOptions T) evs :
  forallb quiet evs = true -> snd (showQuickPick opts evs) = Pending.
Proof.
  induction evs as [|ev evs IH] using rev_ind; [done|].
  rewrite forallb_app, andb_true_iff. cbn [forallb]. rewrite andb_true_r.
  intros [Hq Hev]. rewrite showQuickPick_snoc, (IH Hq).
  destruct ev as [sel|[text| | |[|tooltip]]]; done.
Qed.

Lemma pick_events_settled {T} (p : Promise (option T)) evs :
  p <> Pending -> foldl (fun p ev => pick_event ev p) p evs = p.
Proof.
  intros Hp. induction evs as [|ev evs IH] using rev_ind; [done|].
  rewrite foldl_app, IH. simpl. by destruct p.
Qed.

Lemma showQuickPick_cons {T} (opts : QuickPickOptions T) evs ev evs' :
  snd (showQuickPick opts (evs ++ ev :: evs'))
  = foldl (fun p ev => pick_event ev p)
      (pick_event ev (snd (showQuickPick opts evs))) evs'.
Proof. unfold showQuickPick; simpl. by rewrite foldl_app. Qed.

(** X5.  The promise of [showQuickPick] is settled by the first event that is
    a change of the selection, a hide or the Back button, whatever comes
    after it: it resolves with the first selected item ([undefined] when
    the selection is empty), rejects with [InputFlowAction.cancel] on a
    hide and with [InputFlowAction.back] on Back.  Accepts, changes of the
    text and other buttons leave it pending. *)
Theorem quick_pick_settles_on_the_first_event {T} (opts : QuickPickOptions T)
    evs ev evs' :
  forallb quiet evs = true ->
  let p := snd (showQuickPick opts (evs ++ ev :: evs')) in
  snd (showQuickPick opts evs) = Pending
  /\ match ev with
     | DidChangeSelection selectedItems => p = Resolved (head selectedItems)
     | OnQuickInput DidHide => p = Failed InputFlowAction_cancel
     | OnQuickInput (DidTriggerButton QuickInputButtons_Back) =>
         p = Failed InputFlowAction_back
     | _ => p = snd (showQuickPick opts evs')
     end.
Proof.
  intros Hq. cbv zeta. pose proof (showQuickPick_quiet opts evs Hq) as Hp.
  split; [done|]. rewrite showQuickPick_cons, Hp.
  destruct ev as [sel|[text| | |[|tooltip]]]; simpl;
    try (by apply pick_events_settled); done.
Qed.


Lemma quick_pick_settles_on_the_first_event_witness :
  let p := snd (showQuickPick MultiStepRuns.ONLY_FOO
                  ([OnQuickInput DidAccept;
                    OnQuickInput (DidTriggerButton (CustomButton "help"))]
                   ++ DidChangeSelection ["foo"]
                   :: [OnQuickInput DidHide; DidChangeSelection []])) in
  snd (showQuickPick MultiStepRuns.ONLY_FOO
         [OnQuickInput DidAccept;
          OnQuickInput (DidTriggerButton (CustomButton "help"))]) = Pending
  /\ p = Resolved (Some "foo").
Proof.
  apply (quick_pick_settles_on_the_first_event MultiStepRuns.ONLY_FOO
           [OnQuickInput DidAccept;
            OnQuickInput (DidTriggerButton (CustomButton "help"))]
           (DidChangeSelection ["foo"])
           [OnQuickInput DidHide; DidChangeSelection []]).
  reflexivity.
Defined.

End QuickPickFacts.

Module ProxiedRunFacts.
Import MultiStep Proxied ProxiedRuns.
Import CodeManagerFacts ProxiedFacts.

(** ** What the handlers leave alone *)

Lemma cancel_keeps i :
  outcome (cancel i) = outcome i /\ opened (cancel i) = opened i
  /\ CodeManager.resolveCalls (codeManager (cancel i))
     = CodeManager.resolveCalls (codeManager i).
Proof.
  unfold cancel. destruct (isCancellationRequested _); [done|].
  by destruct (isDisposed _).
Qed.

Lemma on_registry_keeps op i :
  outcome (on_registry op i) = outcome i /\ opened (on_registry op i) = opened i.
Proof.
  unfold on_registry. destruct op; simpl; try done. by destruct (_ =? _).
Qed.

Lemma on_input_keeps options ev i :
  outcome (on_input options ev i) = outcome i
  /\ opened (on_input options ev i) = opened i.
Proof.
  unfold on_input. destruct (prompt i) as [pr|]; [|done].
  destruct (pastedCode pr); [|done..].
  destruct (snd _) as [|?|[| |?]]; simpl; try done.
  by destruct (cancel_keeps i) as (-> & -> & _).
Qed.

Lemma await_code_keeps cfg i :
  opened (await_code cfg i) = opened i
  /\ CodeManager.resolveCalls (codeManager (await_code cfg i))
     = CodeManager.resolveCalls (codeManager i)
  /\ codeManager (await_code cfg i) = codeManager i.
Proof.
  unfold await_code. destruct (phase i); try done.
  by destruct (CodeManager.settlements (codeManager i) !! codePromise i)
    as [[c|e]|].
Qed.

Lemma await_code_done cfg i : phase i = Done -> await_code cfg i = i.
Proof. unfold await_code. by intros ->. Qed.

Lemma await_code_cases cfg i :
  await_code cfg i = i
  \/ exists r, phase i = AwaitingCode /\ await_code cfg i = finish r i.
Proof.
  unfold await_code. destruct (phase i) eqn:Hph; try by left.
  destruct (CodeManager.settlements (codeManager i) !! codePromise i)
    as [[c|e]|]; [right|right|by left]; by eexists.
Qed.

(** ** The promise of [trigger] settles once *)

Lemma handle_done cfg options ev i :
  phase i = Done ->
  phase (handle cfg options ev i) = Done
  /\ outcome (handle cfg options ev i) = outcome i.
Proof.
  intros Hph. destruct ev as [uri|msg|ok|msg|ev| |op]; simpl;
    rewrite ?Hph; try done.
  - rewrite await_code_done by (by rewrite on_input_phase).
    rewrite on_input_phase. by destruct (on_input_keeps options ev i) as [-> _].
  - destruct (cancel_frame i) as [_ Hp]. destruct (cancel_keeps i) as [Ho _].
    rewrite await_code_done by congruence. by rewrite Hp, Ho.
  - destruct (on_registry_frame op i) as [_ Hp].
    destruct (on_registry_keeps op i) as [Ho _].
    rewrite await_code_done by congruence. by rewrite Hp, Ho.
Qed.

Lemma running_await_code cfg i :
  outcome i = None -> phase i <> Done -> running (await_code cfg i).
Proof.
  intros Ho Hph. destruct (await_code_cases cfg i) as [->|(r & _ & ->)].
  - by left.
  - by right.
Qed.

Lemma running_handle cfg options ev i :
  running i -> running (handle cfg options ev i).
Proof.
  intros [[Ho Hph]|[Ho Hph]].
  2: { destruct (handle_done cfg options ev i Hph) as [Hp' Ho'].
       right. by rewrite Ho'. }
  destruct ev as [uri|msg|ok|msg|ev| |op]; simpl.
  - destruct (phase i) eqn:E; try (left; by rewrite ?E).
  - destruct (phase i) eqn:E; try (left; by rewrite ?E). by right.
  - destruct (phase i) eqn:E; try (left; by rewrite ?E).
    by apply running_await_code.
  - destruct (phase i) eqn:E; try (left; by rewrite ?E). by right.
  - apply running_await_code.
    + by destruct (on_input_keeps options ev i) as [-> _].
    + by rewrite on_input_phase.
  - destruct (cancel_frame i) as [_ Hp]. destruct (cancel_keeps i) as [Hc _].
    apply running_await_code; congruence.
  - destruct (on_registry_frame op i) as [_ Hp].
    destruct (on_registry_keeps op i) as [Hc _].
    apply running_await_code; congruence.
Qed.

Lemma after_app cfg options evs evs' i :
  after cfg options (evs ++ evs') i
  = after cfg options evs' (after cfg options evs i).
Proof. unfold after. by rewrite foldl_app. Qed.

Lemma running_after cfg options evs i :
  running i -> running (after cfg options evs i).
Proof.
  revert i. induction evs as [|ev evs IH]; intros i Hi; [done|].
  simpl. by apply IH, running_handle.
Qed.

Lemma running_trigger options tk now cm : running (trigger options tk now cm).
Proof.
  unfold trigger. destruct (CodeManager.waitForCode _ _ _ _) as [p cm'].
  by left.
Qed.

Lemma after_done cfg options evs i :
  phase i = Done ->
  phase (after cfg options evs i) = Done
  /\ outcome (after cfg options evs i) = outcome i.
Proof.
  revert i. induction evs as [|ev evs IH]; intros i Hi; [done|].
  simpl. destruct (handle_done cfg options ev i Hi) as [Hp Ho].
  destruct (IH _ Hp) as [Hp' Ho']. by rewrite Ho', Ho.
Qed.

(** X6.  Once the promise of [trigger] has settled, with a result or with a
    rejection, no later event changes it: neither further input on the
    box, nor a cancellation by the caller, nor a code that arrives late,
    nor the timeout. *)
Theorem trigger_settles_once cfg options tk now cm evs evs' r :
  outcome (after cfg options evs (trigger options tk now cm)) = Some r ->
  outcome (after cfg options (evs ++ evs') (trigger options tk now cm))
  = Some r.
Proof.
  intros Hr. rewrite after_app.
  set (i := after cfg options evs (trigger options tk now cm)) in *.
  assert (Hrun : running i) by apply running_after, running_trigger.
  destruct Hrun as [[Ho _]|[_ Hph]]; [congruence|].
  destruct (after_done cfg options evs' i Hph) as [_ ->]. done.
Qed.

Lemma trigger_settles_once_witness :
  outcome (after ProxiedTests.TEST_CONFIG ProxiedTests.defaultTriggerOpts
             (ProxiedTests.pastes_the_code ++ goes_on_after_the_code)
             ProxiedTests.triggered)
  = Some (inl {| code := ProxiedTests.CODE;
                 redirectUri := "https://colab.example/vscode/redirect" |}).
Proof.
  apply (trigger_settles_once ProxiedTests.TEST_CONFIG
           ProxiedTests.defaultTriggerOpts 0 0 CodeManager.empty
           ProxiedTests.pastes_the_code goes_on_after_the_code).
  reflexivity.
Defined.


(** ** The browser *)

Lemma authUrlOptions_built_for cfg options uri :
  built_for cfg options uri (authUrlOptions cfg options uri).
Proof.
  unfold built_for, authUrlOptions. split_and!.
  - rewrite !lookup_insert_ne by done. apply lookup_insert_eq.
  - rewrite !lookup_insert_ne by done. apply lookup_insert_eq.
  - rewrite !lookup_insert_ne by done. apply lookup_insert_eq.
  - apply lookup_insert_eq.
  - intros key Hkey.
    repeat (apply not_elem_of_cons in Hkey as [? Hkey]).
    by rewrite !lookup_insert_ne by done.
Qed.

Lemma browser_frame cfg options evs ev i i' :
  browser cfg options evs i ->
  opened i' = opened i -> (prompt i = None -> prompt i' = None) ->
  phase i' = phase i \/ phase i' = Done ->
  browser cfg options (evs ++ [ev]) i'.
Proof.
  intros [(Hop & Hp & Hphase)|(uri & Hin & Hop & Hphase)] Ho Hpr Hph.
  - left. rewrite Ho, Hpr by done. split_and!; [done..|].
    destruct Hph as [->| ->]; [done|by right].
  - right. exists uri. rewrite Ho. split_and!; [|done|].
    + apply elem_of_app. by left.
    + by destruct Hph as [->| ->].
Qed.

Lemma browser_await_code cfg options evs ev i :
  browser cfg options evs i ->
  browser cfg options (evs ++ [ev]) (await_code cfg i).
Proof.
  intros Hb. destruct (await_code_keeps cfg i) as (Ho & _).
  destruct (await_code_frame cfg i) as [Hp Hph].
  apply (browser_frame _ _ _ _ i); [done..|congruence|done].
Qed.

Lemma browser_handle cfg options evs ev i :
  browser cfg options evs i ->
  browser cfg options (evs ++ [ev]) (handle cfg options ev i).
Proof.
  intros Hb.
  assert (Hsame : browser cfg options (evs ++ [ev]) i).
  { apply (browser_frame _ _ _ _ i); auto. }
  assert (Hafter : forall i',
             opened i' = opened i -> (prompt i = None -> prompt i' = None) ->
             phase i' = phase i ->
             browser cfg options (evs ++ [ev]) (await_code cfg i')).
  { intros i' Ho Hp Hph.
    destruct (await_code_keeps cfg i') as (Ho' & _).
    destruct (await_code_frame cfg i') as [Hp' Hph'].
    apply (browser_frame _ _ _ _ i); [done|congruence| |].
    - intros Hn. rewrite Hp'. by apply Hp.
    - destruct Hph' as [?|?]; [left; congruence|by right]. }
  destruct ev as [uri|msg|ok|msg|ev| |op]; simpl.
  - case_eq (phase i); intros E; try exact Hsame.
    right. exists uri. simpl. split_and!; [| |done].
    + apply elem_of_app. right. apply list_elem_of_here.
    + destruct Hb as [(-> & _)|(u & _ & _ & ?)]; done.
  - case_eq (phase i); intros E; try exact Hsame.
    destruct Hb as [(Hop & Hp & _)|(u & _ & _ & ?)]; [|done].
    left. simpl. split_and!; [done..|by right].
  - case_eq (phase i); intros E; try exact Hsame.
    destruct Hb as [(_ & _ & [?|?])|(u & Hin & Hop & _)]; [congruence..|].
    right. exists u.
    destruct (await_code_keeps cfg
                (with_phase AwaitingCode (promptForAuthorizationCode i)))
      as (-> & _).
    split_and!; [apply elem_of_app; by left|done|].
    destruct (await_code_frame cfg
                (with_phase AwaitingCode (promptForAuthorizationCode i)))
      as [_ [->| ->]]; done.
  - case_eq (phase i); intros E; try exact Hsame.
    destruct Hb as [(_ & _ & [?|?])|(u & Hin & Hop & _)]; [congruence..|].
    right. exists u. simpl. split_and!; [apply elem_of_app; by left|done..].
  - apply Hafter.
    + by destruct (on_input_keeps options ev i) as [_ ->].
    + intros Hp. unfold on_input. by rewrite Hp.
    + apply on_input_phase.
  - destruct (cancel_frame i) as [? ?]. destruct (cancel_keeps i) as (_ & ? & _).
    apply Hafter; [done|congruence|done].
  - destruct (on_registry_frame op i) as [? ?].
    destruct (on_registry_keeps op i) as (_ & ?).
    apply Hafter; [done|congruence|done].
Qed.

Lemma browser_after cfg options evs :
  forall i evs0,
    browser cfg options evs0 i ->
    browser cfg options (evs0 ++ evs) (after cfg options evs i).
Proof.
  induction evs as [|ev evs IH]; intros i evs0 Hb.
  - by rewrite app_nil_r.
  - simpl. replace (evs0 ++ ev :: evs) with ((evs0 ++ [ev]) ++ evs)
      by (by rewrite <- app_assoc).
    by apply IH, browser_handle.
Qed.

Lemma browser_trigger cfg options tk now cm :
  browser cfg options [] (trigger options tk now cm).
Proof.
  unfold trigger. destruct (CodeManager.waitForCode _ _ _ _) as [p cm'].
  left. simpl. split_and!; [done..|by left].
Qed.

(** X7.  [trigger] opens the browser at most once, and before it shows the
    prompt.  The URL is built for a URI that [asExternalUri] resolved
    with: its [state] is that URI, its [redirect_uri] the fixed proxied
    address, its [scope] and [code_challenge] those of the caller, and
    every other option is the default. *)
Theorem browser_is_opened_once cfg options tk now cm evs :
  let i := after cfg options evs (trigger options tk now cm) in
  length (opened i) <= 1
  /\ (prompt i <> None -> opened i <> [])
  /\ Forall (fun o => exists uri,
                 AsExternalUriResolved uri ∈ evs
                 /\ built_for cfg options uri o) (opened i).
Proof.
  simpl.
  destruct (browser_after cfg options evs _ [] (browser_trigger cfg options tk now cm))
    as [(Hop & Hp & _)|(uri & Hin & Hop & _)]; rewrite Hop.
  - split_and!; [simpl; lia|done|constructor].
  - split_and!; [simpl; lia|done|].
    constructor; [|constructor]. exists uri. split; [done|].
    apply authUrlOptions_built_for.
Qed.

(** ** Errors of the host *)

Lemma handle_done_prompt cfg options ev i :
  phase i = Done -> prompt i = None ->
  prompt (handle cfg options ev i) = None.
Proof.
  intros Hph Hp. destruct ev as [uri|msg|ok|msg|ev| |op]; simpl;
    rewrite ?Hph; try done.
  - destruct (await_code_frame cfg (on_input options ev i)) as [-> _].
    unfold on_input. by rewrite Hp.
  - destruct (await_code_frame cfg (cancel i)) as [-> _].
    by destruct (cancel_frame i) as [-> _].
  - destruct (await_code_frame cfg (on_registry op i)) as [-> _].
    by destruct (on_registry_frame op i) as [-> _].
Qed.

Lemma after_done_prompt cfg options evs i :
  phase i = Done -> prompt i = None ->
  prompt (after cfg options evs i) = None.
Proof.
  revert i. induction evs as [|ev evs IH]; intros i Hph Hp; [done|].
  simpl. apply IH.
  - by destruct (handle_done cfg options ev i Hph).
  - by apply handle_done_prompt.
Qed.

(** X8.  When [asExternalUri] or [openExternal] fails, [trigger] rejects
    with the error of the host and disposes its token source.  The prompt
    has not been shown and is never shown afterwards, and the registry is
    left as it is: the wait stays registered until it times out or is
    resolved. *)
Theorem host_errors_end_the_flow cfg options tk now cm evs ev message evs' :
  let i := after cfg options evs (trigger options tk now cm) in
  (phase i = AwaitingExternalUri /\ ev = AsExternalUriRejected message)
  \/ (phase i = AwaitingOpenExternal /\ ev = OpenExternalRejected message) ->
  failed_on_host message (codeManager i) (handle cfg options ev i)
  /\ (let i' := after cfg options evs' (handle cfg options ev i) in
      outcome i' = Some (inr (Host message)) /\ prompt i' = None).
Proof.
  intros i Hev.
  assert (Hp : prompt i = None).
  { pose proof (prompted_after cfg options evs _ (prompted_trigger options tk now cm))
      as (_ & Hphase & _). fold i in Hphase.
    destruct (prompt i); [|done].
    destruct Hphase as [?|?]; [done|..]; destruct Hev as [[? _]|[? _]]; congruence. }
  assert (Hf : failed_on_host message (codeManager i) (handle cfg options ev i)).
  { destruct Hev as [[Hph ->]|[Hph ->]]; simpl; rewrite Hph; by split_and!. }
  split; [done|]. simpl.
  destruct Hf as (Ho & Hph & _ & Hpr & _).
  destruct (after_done cfg options evs' _ Hph) as [_ ->].
  split; [done|]. by apply after_done_prompt.
Qed.

Lemma host_errors_end_the_flow_witness :
  let i := after ProxiedTests.TEST_CONFIG ProxiedTests.defaultTriggerOpts
             [AsExternalUriResolved ProxiedTests.EXTERNAL_CALLBACK_URI]
             ProxiedTests.triggered in
  let ev := OpenExternalRejected "no browser" in
  failed_on_host "no browser" (codeManager i)
    (handle ProxiedTests.TEST_CONFIG ProxiedTests.defaultTriggerOpts ev i)
  /\ (let i' := after ProxiedTests.TEST_CONFIG ProxiedTests.defaultTriggerOpts
                  [OpenExternalResolved true; Input DidAccept]
                  (handle ProxiedTests.TEST_CONFIG
                     ProxiedTests.defaultTriggerOpts ev i) in
      outcome i' = Some (inr (Host "no browser")) /\ prompt i' = None).
Proof.
  apply (host_errors_end_the_flow ProxiedTests.TEST_CONFIG
           ProxiedTests.defaultTriggerOpts 0 0 CodeManager.empty
           [AsExternalUriResolved ProxiedTests.EXTERNAL_CALLBACK_URI]
           (OpenExternalRejected "no browser") "no browser"
           [OpenExternalResolved true; Input DidAccept]).
  right. split; reflexivity.
Defined.




(** ** The code the prompt delivers *)

Lemma accepted_not_empty ev w v :
  snd (listeners AUTHORIZATION_CODE_BOX ev w) = Resolved v -> v <> "".
Proof.
  destruct ev as [text| | |b]; unfold listeners; simpl; try discriminate.
  - destruct (value w) as [|c rest]; simpl; [discriminate|].
    by intros [= <-].
  - by destruct (decide (b = QuickInputButtons_Back)).
Qed.

Lemma acceptedCode_frame i i' : prompt i' = prompt i -> acceptedCode i' = acceptedCode i.
Proof. unfold acceptedCode. by intros ->. Qed.

Lemma pasted_frame options before i i' :
  prompt i' = prompt i ->
  CodeManager.resolveCalls (codeManager i')
  = CodeManager.resolveCalls (codeManager i) ->
  pasted options before i -> pasted options before i'.
Proof.
  unfold pasted. intros Hp Hc. by rewrite (acceptedCode_frame i i' Hp), Hc.
Qed.

Lemma pasted_await_code cfg options before i :
  pasted options before i -> pasted options before (await_code cfg i).
Proof.
  destruct (await_code_frame cfg i) as [Hp _].
  destruct (await_code_keeps cfg i) as (_ & Hc & _).
  by apply pasted_frame.
Qed.

Lemma leave_step_pastedCode o p this : pastedCode (leave_step o p this) = p.
Proof.
  unfold leave_step. by destruct (settled o this) as [[[s|]|e] this'].
Qed.

Lemma pasted_on_input options before ev i :
  pasted options before i -> pasted options before (on_input options ev i).
Proof.
  unfold on_input. destruct (prompt i) as [pr|] eqn:Hpr; [|done].
  destruct (pastedCode pr) eqn:Hpc; [|done..].
  intros Hpa. unfold pasted, acceptedCode in Hpa. rewrite Hpr in Hpa.
  simpl in Hpa. rewrite Hpc in Hpa.
  destruct (snd (listeners _ ev _)) as [|v|[| |msg]] eqn:Hl;
    unfold pasted, acceptedCode; simpl; rewrite ?leave_step_pastedCode; try done.
  - split; [by eapply accepted_not_empty|].
    by rewrite resolveCode_calls, Hpa.
  - by destruct (cancel_keeps i) as (_ & _ & ->).
Qed.

Lemma pasted_handle cfg options before ev i :
  delivers ev = false -> prompted i ->
  pasted options before i -> pasted options before (handle cfg options ev i).
Proof.
  intros Hev (_ & Hphase & _) Hpa.
  destruct ev as [uri|msg|ok|msg|ev| |op]; simpl.
  - by case_eq (phase i).
  - by case_eq (phase i).
  - case_eq (phase i); intros E; try done.
    apply pasted_await_code. unfold pasted, acceptedCode in *. simpl.
    destruct (prompt i) as [pr|]; [|done].
    destruct Hphase as [?|?]; [done|congruence..].
  - by case_eq (phase i).
  - by apply pasted_await_code, pasted_on_input.
  - apply pasted_await_code.
    destruct (cancel_frame i) as [? _]. destruct (cancel_keeps i) as (_ & _ & ?).
    by apply (pasted_frame _ _ i).
  - apply pasted_await_code.
    destruct (on_registry_frame op i) as [? _].
    apply (pasted_frame _ _ i); [done| |done].
    unfold on_registry. destruct op as [n tk'|n c|tk'|ms]; simpl; try done.
    + unfold CodeManager.waitForCode. by destruct (_ !! _).
    + by destruct (_ =? _).
Qed.

Lemma pasted_after cfg options before evs :
  forall i,
    Forall (fun ev => delivers ev = false) evs -> prompted i ->
    pasted options before i ->
    pasted options before (after cfg options evs i).
Proof.
  induction evs as [|ev evs IH]; intros i Hevs Hpr Hpa; [done|].
  apply Forall_cons in Hevs as [Hev Hevs]. simpl.
  apply IH; [done|by apply prompted_handle|by apply pasted_handle].
Qed.

(** X9.  The prompt delivers at most one code, for the nonce of its own
    invocation, and never an empty one: when nobody else calls
    [resolveCode], the registry has seen no call at all, or the single
    call [resolveCode(nonce, pasted)] with the non-empty text the box was
    accepted with. *)
Theorem prompt_delivers_one_code cfg options tk now cm evs :
  Forall (fun ev => delivers ev = false) evs ->
  let i := after cfg options evs (trigger options tk now cm) in
  match acceptedCode i with
  | Some pasted =>
      pasted <> ""
      /\ CodeManager.resolveCalls (codeManager i)
         = CodeManager.resolveCalls cm ++ [(nonce options, pasted)]
  | None => CodeManager.resolveCalls (codeManager i) = CodeManager.resolveCalls cm
  end.
Proof.
  intros Hevs. simpl.
  apply (pasted_after cfg options (CodeManager.resolveCalls cm) evs);
    [done|apply prompted_trigger|].
  unfold trigger, pasted, CodeManager.waitForCode.
  by destruct (_ !! _).
Qed.

Lemma prompt_delivers_one_code_witness :
  let i := after ProxiedTests.TEST_CONFIG ProxiedTests.defaultTriggerOpts
             (ProxiedTests.shows_the_box
              ++ [Input DidAccept; Input (DidChangeValue ProxiedTests.CODE);
                  Input DidAccept; Input DidAccept])
             ProxiedTests.triggered in
  ProxiedTests.CODE <> ""
  /\ CodeManager.resolveCalls (codeManager i)
     = [] ++ [(ProxiedTests.NONCE, ProxiedTests.CODE)].
Proof.
  apply (prompt_delivers_one_code ProxiedTests.TEST_CONFIG
           ProxiedTests.defaultTriggerOpts 0 0 CodeManager.empty
           (ProxiedTests.shows_the_box
            ++ [Input DidAccept; Input (DidChangeValue ProxiedTests.CODE);
                Input DidAccept; Input DidAccept])).
  repeat constructor.
Defined.

End ProxiedRunFacts.

Module SessionFacts.
Import Storage StorageFacts.

(** What the schema accepts is an array of one element, which the
    element schema reads as the one session. *)
Lemma schema_one_session v l :
  AuthenticationSessionsSchema v = Some l ->
  exists o s, v = JSON.Arr [o] /\ AuthenticationSessionSchema o = Some s
              /\ l = [s].
Proof.
  unfold AuthenticationSessionsSchema, z_array.
  destruct v as [| | | |xs|]; try done.
  destruct xs as [|o [|o' xs]]; cbn [mapM]; [by cbn| |].
  - destruct (AuthenticationSessionSchema o) as [s|] eqn:Ho; [|done].
    cbn. intros [= <-]. by exists o, s.
  - destruct (AuthenticationSessionSchema o) as [s|]; [|done].
    destruct (AuthenticationSessionSchema o') as [s'|]; [|done].
    by destruct (mapM AuthenticationSessionSchema xs) as [l1|]; cbn.
Qed.

(** X10.  What [getSession] returns, case by case: [undefined] when nothing or
    the empty text is stored, a [SyntaxError] for a text that is not JSON,
    a [ZodError] for JSON that is not an array of one session object, and
    the session that the element schema reads otherwise.  The error on
    the number of sessions is never thrown, as the comment in the code
    expects, and nothing is written.  The session is read from every
    text of an array of one session object, whatever the order of the
    properties and whatever white space stands between the tokens, and
    a [SyntaxError] is thrown only for a text that reads as a value with
    no fuel at all. *)
Theorem getSession_case_by_case provider st :
  let r := fst (getSession provider st) in
  match secrets st !! SESSIONS_KEY provider with
  | None | Some [] => r = inr None
  | Some text =>
      match JSON.parse text with
      | None => r = inl SyntaxError
      | Some v =>
          match AuthenticationSessionsSchema v with
          | None => r = inl ZodError
          | Some l =>
              exists o s, v = JSON.Arr [o]
                          /\ AuthenticationSessionSchema o = Some s
                          /\ r = inr (Some s)
          end
      end
  end
  /\ (forall n, r <> inl (UnexpectedNumberOfSessions n))
  /\ secrets (snd (getSession provider st)) = secrets st
  /\ (forall gap o s,
        (forall j, forallb JSON.is_ws (gap j) = true) ->
        is_session o s ->
        secrets st !! SESSIONS_KEY provider
        = Some (JSON.spaced gap 0 (JSON.tokens (JSON.Arr [o]) [])) ->
        r = inr (Some s))
  /\ (r = inl SyntaxError ->
      forall text f g ts v,
        secrets st !! SESSIONS_KEY provider = Some text ->
        JSON.lex f text = Some ts -> JSON.read g ts <> Some (v, [])).
Proof.
  simpl. split_and!; [| |apply getSession_reads| |].
  - unfold getSession, bind, secrets_get; simpl.
    destruct (secrets st !! SESSIONS_KEY provider) as [[|c text]|]; [done| |done].
    unfold parseAuthenticationSessions.
    destruct (JSON.parse (c :: text)) as [v|]; [|done].
    destruct (AuthenticationSessionsSchema v) as [l|] eqn:Hl; [|done].
    destruct (schema_one_session v l Hl) as (o & s & -> & Ho & ->).
    by exists o, s.
  - intros n. unfold getSession, bind, secrets_get; simpl.
    destruct (secrets st !! SESSIONS_KEY provider) as [[|c text]|]; [done| |done].
    unfold parseAuthenticationSessions.
    destruct (JSON.parse (c :: text)) as [v|]; [|done].
    destruct (AuthenticationSessionsSchema v) as [l|] eqn:Hl; [|done].
    by destruct (schema_one_session v l Hl) as (o & s & -> & Ho & ->).
  - intros gap o s Hgap Ho Hst.
    by rewrite (getSession_spaced provider gap o s st Hgap Ho Hst).
  - intros Hr text f g ts v Hst Hlex Hread. revert Hr.
    unfold getSession, bind, secrets_get; simpl. rewrite Hst.
    pose proof (JSONFuelFacts.parse_enough text f g ts v Hlex Hread) as Hparse.
    destruct text as [|c text]; [done|].
    unfold parseAuthenticationSessions. rewrite Hparse.
    destruct (AuthenticationSessionsSchema v) as [l|]; [|done].
    simpl. by destruct (negb _).
Qed.

(** The text of the fixture with a space after each colon and comma, and
    with line feeds around it. *)
Example getSession_skips_white_space :
  let text :=
    [10%N] ++ StorageTests.text
      "[{'id': '1', 'accessToken': '42', 'account': {'id': 'foo', 'label': 'bar'}, 'scopes': ['baz']}]"
    ++ [10%N] in
  fst (getSession StorageTests.PROVIDER_ID
         {| secrets := {[ "google.sessions" := text ]}; calls := [] |})
  = inr (Some StorageTests.DEFAULT_SESSION).
Proof. reflexivity. Qed.

(** Escapes are read as the code units they denote, above 255 too. *)
Example getSession_reads_escapes :
  let text :=
    StorageTests.text
      "[{'id':'\u65E5\ud83d\/\n','accessToken':'42','account':{'id':'foo','label':'bar'},'scopes':['baz']}]" in
  fst (getSession StorageTests.PROVIDER_ID
         {| secrets := {[ "google.sessions" := text ]}; calls := [] |})
  = inr (Some {| id := [26085; 55357; 47; 10]%N;
                 accessToken := accessToken StorageTests.DEFAULT_SESSION;
                 account := account StorageTests.DEFAULT_SESSION;
                 scopes := scopes StorageTests.DEFAULT_SESSION |}).
Proof. reflexivity. Qed.

(** Unknown properties are stripped, and the last of two properties of
    the same name counts. *)
Example getSession_strips_unknown_properties :
  let text :=
    StorageTests.text
      "[{'id':'0','n':-1.5e3,'id':'1','accessToken':'42','account':{'id':'foo','label':'bar','x':null},'scopes':['baz']}]" in
  fst (getSession StorageTests.PROVIDER_ID
         {| secrets := {[ "google.sessions" := text ]}; calls := [] |})
  = inr (Some StorageTests.DEFAULT_SESSION).
Proof. reflexivity. Qed.

(** Texts that are JSON and not an array of one session. *)
Example getSession_rejects_other_json :
  Forall (fun text =>
            fst (getSession StorageTests.PROVIDER_ID
                   {| secrets := {[ "google.sessions" := StorageTests.text text ]};
                      calls := [] |})
            = inl ZodError)
    ["[1]"; "[] "; "[{}]"; "{}"; "null"; " 12 "; "'[]'";
     "[{'id':1,'accessToken':'42','account':{'id':'foo','label':'bar'},'scopes':['baz']}]"].
Proof. repeat constructor. Qed.

(** Texts that are not JSON. *)
Example getSession_rejects_other_texts :
  Forall (fun text =>
            fst (getSession StorageTests.PROVIDER_ID
                   {| secrets := {[ "google.sessions" := StorageTests.text text ]};
                      calls := [] |})
            = inl SyntaxError)
    [" "; "[1,]"; "[01]"; "{'id'}"; "[] []"; "undefined"; "'\u12'"].
Proof. repeat constructor. Qed.

(** X11.  A session [removeSession] returned is gone: it had the given id, a
    [getSession] that follows finds nothing, and a second [removeSession]
    returns [undefined]. *)
Theorem removed_session_is_gone provider sessionId st s :
  fst (removeSession provider sessionId st) = inr (Some s) ->
  let st' := snd (removeSession provider sessionId st) in
  id s = sessionId
  /\ secrets st' !! SESSIONS_KEY provider = None
  /\ fst (getSession provider st') = inr None
  /\ fst (removeSession provider sessionId st') = inr None.
Proof.
  unfold removeSession at 1 2. unfold bind.
  destruct (getSession provider st) as [[e|[s0|]] st1] eqn:Hg; try done.
  case_bool_decide as Hid; simpl; [|done].
  intros [= ->].
  set (st' := {| secrets := delete (SESSIONS_KEY provider) (secrets st1);
                calls := calls st1 ++ [Delete (SESSIONS_KEY provider)] |}).
  assert (Hgone : secrets st' !! SESSIONS_KEY provider = None)
    by apply lookup_delete_eq.
  split_and!; [done|done| |].
  - by rewrite (getSession_nothing _ _ Hgone).
  - unfold removeSession, bind. by rewrite (getSession_nothing _ _ Hgone).
Qed.

Lemma removed_session_is_gone_witness :
  let st := snd (storeSession StorageTests.PROVIDER_ID
                   StorageTests.DEFAULT_SESSION_OBJECT
                   StorageTests.emptyStorage) in
  let st' := snd (removeSession StorageTests.PROVIDER_ID (JS.of_string "1") st) in
  id StorageTests.DEFAULT_SESSION = JS.of_string "1"
  /\ secrets st' !! SESSIONS_KEY StorageTests.PROVIDER_ID = None
  /\ fst (getSession StorageTests.PROVIDER_ID st') = inr None
  /\ fst (removeSession StorageTests.PROVIDER_ID (JS.of_string "1") st')
     = inr None.
Proof.
  apply (removed_session_is_gone StorageTests.PROVIDER_ID (JS.of_string "1")
           (snd (storeSession StorageTests.PROVIDER_ID
                   StorageTests.DEFAULT_SESSION_OBJECT
                   StorageTests.emptyStorage))
           StorageTests.DEFAULT_SESSION).
  reflexivity.
Defined.

End SessionFacts.

Module ScopeFacts.
Import Provider ProviderFacts.

Lemma ltb_irrefl s : String.ltb s s = false.
Proof.
  unfold String.ltb. pose proof (String.compare_antisym s s) as H.
  destruct (String.compare s s); try done.
Qed.

(** Two strictly increasing lists with the same elements are equal. *)
Lemma increasing_ext l1 :
  forall l2, increasing l1 -> increasing l2 ->
             (forall x, x ∈ l1 <-> x ∈ l2) -> l1 = l2.
Proof.
  induction l1 as [|x1 l1 IH]; intros [|x2 l2] H1 H2 Hel.
  - done.
  - pose proof (proj2 (Hel x2) (list_elem_of_here _ _)) as H.
    by apply elem_of_nil in H.
  - pose proof (proj1 (Hel x1) (list_elem_of_here _ _)) as H.
    by apply elem_of_nil in H.
  - apply StronglySorted_inv in H1 as [H1 Hx1].
    apply StronglySorted_inv in H2 as [H2 Hx2].
    rewrite Forall_forall in Hx1, Hx2.
    assert (Hx : x1 = x2).
    { pose proof (proj1 (Hel x1) (list_elem_of_here _ _)) as Ha.
      pose proof (proj2 (Hel x2) (list_elem_of_here _ _)) as Hb.
      apply elem_of_cons in Ha as [?|Ha]; [done|].
      apply elem_of_cons in Hb as [?|Hb]; [done|].
      pose proof (ltb_trans _ _ _ (Hx1 _ Hb) (Hx2 _ Ha)) as Hc.
      by rewrite ltb_irrefl in Hc. }
    subst x2. f_equal. apply IH; [done..|].
    intros x. split; intros Hin.
    + pose proof (proj1 (Hel x) (list_elem_of_further _ _ _ Hin)) as Ha.
      apply elem_of_cons in Ha as [->|Ha]; [|done].
      pose proof (Hx1 _ Hin) as Hc. by rewrite ltb_irrefl in Hc.
    + pose proof (proj2 (Hel x) (list_elem_of_further _ _ _ Hin)) as Ha.
      apply elem_of_cons in Ha as [->|Ha]; [|done].
      pose proof (Hx2 _ Hin) as Hc. by rewrite ltb_irrefl in Hc.
Qed.

(** X12.  The scopes of a session do not depend on the order of the requested
    scopes nor on repetitions among them: two requests for the same
    scopes give the same list, the one sent to Google and stored in the
    session.  Asking again for the scopes of a session gives the same
    scopes. *)
Theorem sortedScopes_canonical a b :
  a ⊆ b -> b ⊆ a ->
  sortedScopes a = sortedScopes b
  /\ sortedScopes (sortedScopes a) = sortedScopes a.
Proof.
  intros Hab Hba.
  destruct (sortedScopes_spec a) as [Ia Ha].
  destruct (sortedScopes_spec b) as [Ib Hb].
  destruct (sortedScopes_spec (sortedScopes a)) as [Iaa Haa].
  split.
  - apply increasing_ext; [done..|]. intros x. rewrite Ha, Hb.
    split; (intros [?|?]; [left|by right]); auto.
  - apply increasing_ext; [done..|]. intros x. rewrite Haa, Ha. tauto.
Qed.

Lemma sortedScopes_canonical_witness :
  sortedScopes ["openid"; "email"; "drive"; "openid"]
  = sortedScopes ["drive"; "openid"; "email"]
  /\ sortedScopes (sortedScopes ["openid"; "email"; "drive"; "openid"])
     = sortedScopes ["openid"; "email"; "drive"; "openid"].
Proof.
  apply (sortedScopes_canonical ["openid"; "email"; "drive"; "openid"]
           ["drive"; "openid"; "email"]);
    apply (bool_decide_unpack _); vm_compute; exact I.
Defined.

End ScopeFacts.

Module GoogleAuthProviderFacts.
Import GoogleAuthProvider.
Import StorageFacts.

(** ** What the methods leave alone *)

Lemma on_storage_frame {A} env (m : Storage.M A) st :
  let st' := snd (on_storage env m st) in
  storage st' = snd (m (storage st))
  /\ fired st' = fired st /\ errorMessages st' = errorMessages st
  /\ informationMessages st' = informationMessages st
  /\ uuids st' = uuids st /\ opened st' = opened st.
Proof. unfold on_storage. by destruct (m (storage st)) as [r s]. Qed.

Lemma on_storage_result {A} env (m : Storage.M A) st a :
  fst (m (storage st)) = inr a -> fst (on_storage env m st) = inr a.
Proof. unfold on_storage. destruct (m (storage st)) as [r s]. simpl. by intros ->. Qed.

(** ** getSessions *)

Lemma getSessions_eq env scopes st :
  getSessions env scopes st
  = (match fst (Storage.getSession PROVIDER_ID (storage st)) with
     | inr (Some s) => inr [s]
     | inr None => inr []
     | inl e => inl (Error (message_of env e))
     end,
     {| storage := snd (Storage.getSession PROVIDER_ID (storage st));
        fired := fired st; errorMessages := errorMessages st;
        informationMessages := informationMessages st; uuids := uuids st;
        opened := opened st |}).
Proof.
  unfold getSessions, bind, on_storage.
  by destruct (Storage.getSession PROVIDER_ID (storage st)) as [[e|[s|]] s'].
Qed.

(** X13.  [getSessions] returns at most one session, whatever scopes it is
    asked for: the stored session when the storage holds an object of
    one, with its properties in any order, and nothing when nothing is
    stored.  It writes nothing, fires no event and shows
    no message. *)
Theorem getSessions_at_most_one env scopes st :
  let r := getSessions env scopes st in
  (forall l, fst r = inr l -> length l <= 1)
  /\ (forall o s, Storage.is_session o s ->
        Storage.holds PROVIDER_ID o (storage st) -> fst r = inr [s])
  /\ (Storage.secrets (storage st) !! Storage.SESSIONS_KEY PROVIDER_ID = None ->
      fst r = inr [])
  /\ Storage.secrets (storage (snd r)) = Storage.secrets (storage st)
  /\ fired (snd r) = fired st
  /\ errorMessages (snd r) = errorMessages st
  /\ informationMessages (snd r) = informationMessages st.
Proof.
  cbv zeta. rewrite getSessions_eq. simpl.
  destruct (getSession_reads PROVIDER_ID (storage st)) as [Hsec _].
  split_and!; try done.
  - intros l.
    destruct (fst (Storage.getSession PROVIDER_ID (storage st))) as [e|[s|]];
      intros [= <-]; simpl; lia.
  - intros o s Ho Hh. by rewrite (getSession_holds _ _ _ _ Ho Hh).
  - intros Hn. by rewrite (getSession_nothing _ _ Hn).
Qed.

(** ** removeSession *)

Lemma removeSession_eq env sessionId st :
  removeSession env sessionId st
  = let r := Storage.removeSession PROVIDER_ID sessionId (storage st) in
    (match fst r with
     | inr _ => inr tt
     | inl e => inl (Error (message_of env e))
     end,
     {| storage := snd r;
        fired := fired st
                 ++ match fst r with
                    | inr (Some s) =>
                        [{| added := []; removed := [s]; changed := [] |}]
                    | _ => []
                    end;
        errorMessages := errorMessages st;
        informationMessages := informationMessages st; uuids := uuids st;
        opened := opened st |}).
Proof.
  unfold removeSession, bind, on_storage. simpl.
  destruct (Storage.removeSession PROVIDER_ID sessionId (storage st))
    as [[e|[s|]] s']; simpl; by rewrite ?app_nil_r.
Qed.

Lemma storage_removeSession_holds o s sessionId st :
  Storage.is_session o s -> Storage.holds PROVIDER_ID o st ->
  Storage.removeSession PROVIDER_ID sessionId st
  = if bool_decide (Storage.id s = sessionId)
    then (inr (Some s),
          {| Storage.secrets :=
               delete (Storage.SESSIONS_KEY PROVIDER_ID) (Storage.secrets st);
             Storage.calls :=
               (Storage.calls st
                ++ [Storage.Get (Storage.SESSIONS_KEY PROVIDER_ID)])
               ++ [Storage.Delete (Storage.SESSIONS_KEY PROVIDER_ID)] |})
    else (inr None,
          {| Storage.secrets := Storage.secrets st;
             Storage.calls :=
               Storage.calls st
               ++ [Storage.Get (Storage.SESSIONS_KEY PROVIDER_ID)] |}).
Proof.
  intros Ho Hh. unfold Storage.removeSession, Storage.bind.
  rewrite (getSession_holds _ _ _ _ Ho Hh).
  by case_bool_decide.
Qed.

(** X14.  [removeSession] notifies of a removal, and of nothing else.  On a
    storage that holds an object of a session, with its properties in
    any order, the id of that session removes it and fires one event,
    whose [removed] is the session; any other id leaves the object
    stored and fires nothing.  On a storage that holds
    nothing, nothing is fired. *)
Theorem removeSession_notifies_of_the_removal env sessionId st :
  let r := removeSession env sessionId st in
  let key := Storage.SESSIONS_KEY PROVIDER_ID in
  (forall o s, Storage.is_session o s ->
     Storage.holds PROVIDER_ID o (storage st) ->
     fst r = inr tt
     /\ if bool_decide (Storage.id s = sessionId)
        then fired (snd r)
             = fired st ++ [{| added := []; removed := [s]; changed := [] |}]
             /\ Storage.secrets (storage (snd r)) !! key = None
        else fired (snd r) = fired st
             /\ Storage.holds PROVIDER_ID o (storage (snd r)))
  /\ (Storage.secrets (storage st) !! key = None ->
      fst r = inr tt /\ fired (snd r) = fired st
      /\ Storage.secrets (storage (snd r)) = Storage.secrets (storage st)).
Proof.
  cbv zeta. rewrite removeSession_eq. cbv zeta. split.
  - intros o s Ho Hh.
    rewrite (storage_removeSession_holds o s sessionId _ Ho Hh).
    case_bool_decide; simpl.
    + split_and!; [done..|]. apply lookup_delete_eq.
    + split_and!; [done|by rewrite app_nil_r|done].
  - intros Hn. unfold Storage.removeSession, Storage.bind.
    rewrite (getSession_nothing _ _ Hn). simpl.
    split_and!; [done|by rewrite app_nil_r|done].
Qed.

(** ** createSession *)

(** [login] either throws, having written nothing and told the user
    nothing, or returns a token that is not empty, having opened one URL
    and told the user that they are signed in. *)
Lemma login_cases env scopes st :
  let r := login env scopes st in
  storage (snd r) = storage st /\ fired (snd r) = fired st
  /\ errorMessages (snd r) = errorMessages st
  /\ match fst r with
     | inl _ => informationMessages (snd r) = informationMessages st
     | inr token =>
         token <> ""
         /\ informationMessages (snd r)
            = informationMessages st ++ ["Signed in to Google!"]
         /\ uuids (snd r) = S (uuids st)
         /\ exists callbackUri codeChallenge,
              opened (snd r)
              = opened st
                ++ [Provider.authorizeUrlOptions scopes callbackUri
                      codeChallenge]
     end.
Proof.
  cbv zeta. unfold login, bind, uuid_v4, getCallbackUri, await, open_external,
    showInformationMessage, throw, ret. simpl.
  destruct (waitForCode env _) as [e|promisedCode]; [done|].
  destruct (asExternalUri env _) as [e|callbackUri]; [done|].
  destruct (generateCodeVerifierAsync env) as [e|[verifier challenge]]; [done|].
  simpl. destruct (openExternal env _) as [e|ok]; [done|].
  destruct promisedCode as [e|code]; [done|].
  destruct (getToken env code verifier) as [e|[status token]]; [done|].
  simpl. destruct (negb (bool_decide (status = Some 200))); [done|]. simpl.
  destruct token as [token|]; simpl; [|done].
  destruct (String.eqb token "") eqn:Hempty; simpl; [done|].
  apply String.eqb_neq in Hempty. split_and!; try done. by eexists _, _.
Qed.

Lemma getUserInfo_frame env token st : snd (getUserInfo env token st) = st.
Proof.
  unfold getUserInfo, bind, await, throw, ret.
  destruct (fetch env _ _) as [e|response]; [done|].
  destruct (ok response); simpl.
  - destruct (json response) as [e|v]; [done|].
    by destruct (UserInfoSchema v).
  - by destruct (text response).
Qed.

(** The object literal of [createSession] is an object of the session. *)
Lemma session_object_is_session session :
  Storage.is_session (session_object session) session.
Proof.
  eexists _, _. split_and!; [done| |done]. apply perm_swap.
Qed.

Lemma of_string_not_empty s : s <> "" -> JS.of_string s <> [].
Proof. by destruct s. Qed.

(** The session the [try] block of [createSession] builds, stores and
    announces, when nothing in it throws; when it throws, what the user
    was told depends on whether [login] had returned. *)
Lemma createSession_try_cases env scopes st :
  let r := createSession_try env scopes st in
  let logged_in :=
    login env (String.concat " " (Provider.sortedScopes scopes)) st in
  errorMessages (snd r) = errorMessages st
  /\ match fst r with
     | inl err =>
         storage (snd r) = storage st /\ fired (snd r) = fired st
         /\ match fst logged_in with
            | inl e =>
                err = e
                /\ informationMessages (snd r) = informationMessages st
            | inr _ =>
                informationMessages (snd logged_in)
                = informationMessages st ++ ["Signed in to Google!"]
                /\ errorMessages (snd logged_in) = errorMessages st
                /\ informationMessages (snd r)
                   = informationMessages (snd logged_in)
            end
     | inr session =>
         Storage.scopes session = JS.of_string <$> Provider.sortedScopes scopes
         /\ Storage.accessToken session <> []
         /\ Storage.id session = JS.of_string (uuid env (S (uuids st)))
         /\ storage (snd r)
            = snd (Storage.storeSession PROVIDER_ID (session_object session)
                     (storage st))
         /\ fired (snd r)
            = fired st ++ [{| added := [session]; removed := [];
                              changed := [] |}]
         /\ informationMessages (snd r)
            = informationMessages st ++ ["Signed in to Google!"]
         /\ exists callbackUri codeChallenge,
              opened (snd r)
              = opened st
                ++ [Provider.authorizeUrlOptions
                      (String.concat " " (Provider.sortedScopes scopes))
                      callbackUri codeChallenge]
     end.
Proof.
  cbv zeta. unfold createSession_try, bind.
  pose proof (login_cases env (String.concat " " (Provider.sortedScopes scopes)) st)
    as (Hs & Hf & He & Hl).
  cbv zeta in *.
  destruct (login env _ st) as [[e|token] st1]; simpl in *.
  { by split_and!. }
  destruct Hl as (Htoken & Hi & Hu & Hopened).
  destruct (String.eqb token "") eqn:Hempty.
  { by apply String.eqb_eq in Hempty. }
  pose proof (getUserInfo_frame env token st1) as Hframe.
  destruct (getUserInfo env token st1) as [[e|user] st2]; simpl in *; subst st2.
  { by split_and!. }
  unfold on_storage, Storage.storeSession, Storage.secrets_store, fire, uuid_v4.
  simpl. rewrite Hs, Hf, He, Hi, Hu. split_and!; try done.
  by apply of_string_not_empty.
Qed.

(** X15.  A successful [createSession] returns a session with a token that is
    not empty and with the sorted scopes.  The session is stored, so that
    [getSessions] returns it from then on; one event announces it as
    added; one URL was opened, asking for these scopes; and the user is
    told that they are signed in, and of no error. *)
Theorem createSession_signs_in env scopes st session :
  fst (createSession env scopes st) = inr session ->
  let st' := snd (createSession env scopes st) in
  Storage.scopes session = JS.of_string <$> Provider.sortedScopes scopes
  /\ Storage.accessToken session <> []
  /\ Storage.holds PROVIDER_ID (session_object session) (storage st')
  /\ fst (getSessions env None st') = inr [session]
  /\ fired st'
     = fired st ++ [{| added := [session]; removed := []; changed := [] |}]
  /\ errorMessages st' = errorMessages st
  /\ informationMessages st'
     = informationMessages st ++ ["Signed in to Google!"]
  /\ exists callbackUri codeChallenge,
       opened st'
       = opened st
         ++ [Provider.authorizeUrlOptions
               (String.concat " " (Provider.sortedScopes scopes))
               callbackUri codeChallenge].
Proof.
  unfold createSession.
  pose proof (createSession_try_cases env scopes st) as [He Hr].
  cbv zeta in *.
  destruct (createSession_try env scopes st) as [[e|s] st1]; simpl in *; [done|].
  intros [= ->].
  destruct Hr as (Hsc & Htok & _ & Hst & Hf & Hi & Ho).
  assert (Hh : Storage.holds PROVIDER_ID (session_object session)
                 (storage st1)).
  { rewrite Hst. apply storeSession_holds. }
  split_and!; try done.
  rewrite getSessions_eq. simpl.
  by rewrite (getSession_holds _ _ _ _ (session_object_is_session session) Hh).
Qed.

Lemma createSession_signs_in_witness :
  let st' := snd (createSession GoogleAuthProviderTests.succeeds
                    ["profile"; "email"] GoogleAuthProviderTests.fresh) in
  let session :=
    {| Storage.id := JS.of_string "9b2d7c1a-5e3f-4c8b-8f6a-1d2e3f4a5b6c";
       Storage.accessToken := JS.of_string "123";
       Storage.account :=
         {| Storage.Account.id := JS.of_string "foo@example.com";
            Storage.Account.label := JS.of_string "Foo Bar" |};
       Storage.scopes := [JS.of_string "email"; JS.of_string "profile"] |} in
  Storage.scopes session
  = JS.of_string <$> Provider.sortedScopes ["profile"; "email"]
  /\ Storage.accessToken session <> []
  /\ Storage.holds PROVIDER_ID (session_object session) (storage st')
  /\ fst (getSessions GoogleAuthProviderTests.succeeds None st') = inr [session]
  /\ fired st' = [] ++ [{| added := [session]; removed := []; changed := [] |}]
  /\ errorMessages st' = []
  /\ informationMessages st' = [] ++ ["Signed in to Google!"]
  /\ exists callbackUri codeChallenge,
       opened st'
       = [] ++ [Provider.authorizeUrlOptions
                  (String.concat " " (Provider.sortedScopes ["profile"; "email"]))
                  callbackUri codeChallenge].
Proof.
  apply (createSession_signs_in GoogleAuthProviderTests.succeeds
           ["profile"; "email"] GoogleAuthProviderTests.fresh).
  reflexivity.
Defined.

(** X16.  A failed [createSession] rethrows what was thrown and shows one
    error message, "Sign in failed: " with the message of the error (or
    "unknown error").  Nothing is stored and no event is fired.  When
    [login] itself failed, its error is the one rethrown and the user
    was told nothing else.  When the failure comes after [login]
    returned, the user had been told that they are signed in by the time
    [login] returned, when no error had been shown yet, and that message
    stays. *)
Theorem createSession_warns_when_it_fails env scopes st err :
  fst (createSession env scopes st) = inl err ->
  let st' := snd (createSession env scopes st) in
  let logged_in :=
    login env (String.concat " " (Provider.sortedScopes scopes)) st in
  errorMessages st'
  = errorMessages st ++ ["Sign in failed: " +:+ reason err]
  /\ storage st' = storage st
  /\ fired st' = fired st
  /\ match fst logged_in with
     | inl e => err = e /\ informationMessages st' = informationMessages st
     | inr _ =>
         informationMessages (snd logged_in)
         = informationMessages st ++ ["Signed in to Google!"]
         /\ errorMessages (snd logged_in) = errorMessages st
         /\ informationMessages st'
            = informationMessages st ++ ["Signed in to Google!"]
     end.
Proof.
  unfold createSession.
  pose proof (createSession_try_cases env scopes st) as [He Hr].
  cbv zeta in *.
  destruct (createSession_try env scopes st) as [[e|s] st1]; simpl in *; [|done].
  intros [= ->]. destruct Hr as (Hs & Hf & Hi).
  rewrite He. split_and!; try done.
  destruct (fst (login env _ st)); [done|].
  destruct Hi as (Hi1 & Hi2 & Hi3). by rewrite Hi3.
Qed.

Lemma createSession_warns_when_it_fails_witness :
  let env := GoogleAuthProviderTests.user_info_fails in
  let st' := snd (createSession env [] GoogleAuthProviderTests.fresh) in
  let logged_in :=
    login env (String.concat " " (Provider.sortedScopes []))
      GoogleAuthProviderTests.fresh in
  errorMessages st'
  = [] ++ ["Sign in failed: "
           +:+ reason (Error "Failed to fetch user info: Unauthorized. Response: invalid token")]
  /\ storage st' = storage GoogleAuthProviderTests.fresh
  /\ fired st' = []
  /\ match fst logged_in with
     | inl e =>
         Error "Failed to fetch user info: Unauthorized. Response: invalid token"
         = e
         /\ informationMessages st' = []
     | inr _ =>
         informationMessages (snd logged_in) = [] ++ ["Signed in to Google!"]
         /\ errorMessages (snd logged_in) = []
         /\ informationMessages st' = [] ++ ["Signed in to Google!"]
     end.
Proof.
  apply (createSession_warns_when_it_fails
           GoogleAuthProviderTests.user_info_fails []
           GoogleAuthProviderTests.fresh
           (Error "Failed to fetch user info: Unauthorized. Response: invalid token")).
  reflexivity.
Defined.

(** "warns when login fails": the error of [waitForCode] is rethrown,
    one error message is shown and the user is not told that they are
    signed in. *)
Example warns_when_login_fails :
  let r := createSession GoogleAuthProviderTests.login_fails
             ["profile"; "email"] GoogleAuthProviderTests.fresh in
  fst r = inl (Error "Barf")
  /\ errorMessages (snd r) = ["Sign in failed: Barf"]
  /\ informationMessages (snd r) = []
  /\ storage (snd r) = storage GoogleAuthProviderTests.fresh
  /\ fired (snd r) = [].
Proof. repeat split. Qed.

(** The login succeeds and the user info is refused: the user is told
    that they are signed in, and then that the sign-in failed. *)
Example signed_in_and_failed :
  let r := createSession GoogleAuthProviderTests.user_info_fails []
             GoogleAuthProviderTests.fresh in
  fst r = inl (Error "Failed to fetch user info: Unauthorized. Response: invalid token")
  /\ informationMessages (snd r) = ["Signed in to Google!"]
  /\ errorMessages (snd r)
     = ["Sign in failed: Failed to fetch user info: Unauthorized. Response: invalid token"]
  /\ storage (snd r) = storage GoogleAuthProviderTests.fresh.
Proof. repeat split. Qed.

End GoogleAuthProviderFacts.

Module FakeAuthenticationProviderManagerFacts.
Import GoogleAuthProvider FakeAuthenticationProviderManager.
Import StorageFacts GoogleAuthProviderFacts.

(** X17.  Registrations and disposals keep the two maps of the fake in step:
    an id is registered at most once, the disposable of a registration
    unregisters the id, and the id can then be registered again.  So a
    second [GoogleAuthProvider] on the same host fails while the first is
    registered. *)
Theorem one_provider_per_id id label label' provider provider' this :
  match registerAuthenticationProvider id label provider this with
  | inr (disposable, this') =>
      providers this !! id = None
      /\ providers this' !! id = Some provider
      /\ (forall other, other <> id ->
            providers this' !! other = providers this !! other)
      /\ registerAuthenticationProvider id label' provider' this'
         = inl (Error ("An authentication provider with id " +:+ quote +:+ id
                       +:+ quote +:+ " is already registered."))
      /\ providers (dispose disposable this') !! id = None
      /\ (forall other, other <> id ->
            providers (dispose disposable this') !! other
            = providers this !! other)
      /\ exists disposable' this'',
           registerAuthenticationProvider id label' provider'
             (dispose disposable this')
           = inr (disposable', this'')
  | inl e =>
      is_Some (providers this !! id)
      /\ e = Error ("An authentication provider with id " +:+ quote +:+ id
                    +:+ quote +:+ " is already registered.")
  end.
Proof.
  unfold registerAuthenticationProvider.
  case_bool_decide as Hreg; [done|].
  assert (Hnone : providers this !! id = None).
  { destruct (providers this !! id) eqn:E; [|done]. destruct Hreg. by eexists. }
  simpl. split_and!; try done.
  - apply lookup_insert_eq.
  - intros other Hne. by apply lookup_insert_ne.
  - rewrite bool_decide_true; [done|]. rewrite lookup_insert_eq. by eexists.
  - apply lookup_delete_eq.
  - intros other Hne. rewrite lookup_delete_ne, lookup_insert_ne; done.
  - rewrite bool_decide_false; [by eexists _, _|].
    rewrite lookup_delete_eq. by intros [? ?].
Qed.

Lemma fake_getSession_registered this providerId provider scopes st :
  providers this !! providerId = Some provider ->
  getSession this providerId scopes st
  = (let* sessions := provider_getSessions provider scopes in
     let* sessions :=
       (if Nat.eqb (length sessions) 0 then
          let* _ := provider_createSession provider scopes in
          provider_getSessions provider scopes
        else ret sessions) in
     if Nat.ltb 1 (length sessions) then
       throw (Error "The fake implementation for getSession does not support multiple sessions")
     else if negb (Nat.eqb (length sessions) 1) then
       throw (Error "The provider failed to create a session for the requested scopes")
     else
       match sessions with
       | session :: _ => ret session
       | [] =>
           throw (Error "The provider failed to create a session for the requested scopes")
       end) st.
Proof. unfold getSession. by intros ->. Qed.

(** X18.  [GoogleAuthProvider.getSession(vs)] on the fake host signs in only
    when no session is stored.  With a stored session, an object with
    its properties in any order, it returns that session and neither
    opens a URL nor shows a message.  With nothing
    stored it runs [createSession] for the required scopes: it returns
    the session created, which is stored from then on, or throws what
    [createSession] threw.  Without a registered provider it throws. *)
Theorem getSession_signs_in_when_needed env this st :
  let r := GoogleAuthProvider_getSession this st in
  (providers this !! PROVIDER_ID = None ->
   r = (inl (Error "No provider registered for id: google"), st))
  /\ (providers this !! PROVIDER_ID = Some (GoogleAuthProvider env) ->
      (forall o s, Storage.is_session o s ->
         Storage.holds PROVIDER_ID o (storage st) ->
         fst r = inr s
         /\ opened (snd r) = opened st
         /\ fired (snd r) = fired st
         /\ errorMessages (snd r) = errorMessages st
         /\ informationMessages (snd r) = informationMessages st)
      /\ (Storage.secrets (storage st) !! Storage.SESSIONS_KEY PROVIDER_ID
          = None ->
          let st1 := snd (getSessions env (Some Provider.REQUIRED_SCOPES) st) in
          match fst (createSession env Provider.REQUIRED_SCOPES st1) with
          | inr session =>
              fst r = inr session
              /\ Storage.scopes session
                 = [JS.of_string "email"; JS.of_string "profile"]
              /\ Storage.holds PROVIDER_ID (session_object session)
                   (storage (snd r))
          | inl err =>
              fst r = inl err
              /\ Storage.secrets (storage (snd r))
                 = Storage.secrets (storage st)
          end)).
Proof.
  cbv zeta. unfold GoogleAuthProvider_getSession. split.
  { intros Hn. unfold getSession. by rewrite Hn. }
  intros Hreg. rewrite (fake_getSession_registered _ _ _ _ _ Hreg).
  unfold bind. simpl provider_getSessions. simpl provider_createSession.
  split.
  - intros o s Ho Hh. rewrite getSessions_eq. simpl.
    by rewrite (getSession_holds _ _ _ _ Ho Hh).
  - intros Hn. rewrite getSessions_eq. simpl.
    rewrite (getSession_nothing _ _ Hn). simpl.
    set (st1 := {| storage := _ |}).
    pose proof (createSession_try_cases env Provider.REQUIRED_SCOPES st1)
      as [He Hr].
    cbv zeta in *. unfold createSession.
    destruct (createSession_try env Provider.REQUIRED_SCOPES st1)
      as [[e|session] st2]; simpl in *.
    + destruct Hr as (Hs & _). by rewrite Hs.
    + destruct Hr as (Hsc & _ & _ & Hst & _).
      assert (Hh : Storage.holds PROVIDER_ID (session_object session)
                     (storage st2)).
      { rewrite Hst. apply storeSession_holds. }
      rewrite getSessions_eq. simpl.
      rewrite (getSession_holds _ _ _ _ (session_object_is_session session) Hh).
      simpl. split_and!; [done|by rewrite Hsc|].
      unfold Storage.holds in *. simpl. exact Hh.
Qed.

(** The static [getSession] on a host with the provider registered: the
    stored session when there is one, a new one otherwise. *)
Example getSession_on_the_fake :
  match new_GoogleAuthProvider GoogleAuthProviderTests.succeeds empty with
  | inr (_, host) =>
      fst (GoogleAuthProvider_getSession host GoogleAuthProviderTests.signed_in)
      = inr GoogleAuthProviderTests.DEFAULT_SESSION
      /\ match fst (GoogleAuthProvider_getSession host
                         GoogleAuthProviderTests.fresh) with
         | inr session =>
             Storage.accessToken session = JS.of_string "123"
             /\ Storage.scopes session
                = [JS.of_string "email"; JS.of_string "profile"]
         | inl _ => False
         end
  | inl _ => False
  end.
Proof. repeat split. Qed.

End FakeAuthenticationProviderManagerFacts.

Module CancellationFacts.
Import MultiStep Proxied ProxiedRuns.
Import CodeManagerFacts ProxiedFacts ProxiedRunFacts.

(** X19.  A cancellation by the caller while [trigger] waits for the host is
    noticed only at the [await] of the code: the browser is opened and
    the prompt is shown all the same, and only then does [trigger] reject
    with [Cancelled], leaving the input box on screen. *)
Theorem early_cancellation_still_prompts cfg options tk now cm uri ok :
  CodeManager.wf cm ->
  CodeManager.table cm !! nonce options = None ->
  let i := after cfg options
             [CallerCancels; AsExternalUriResolved uri; OpenExternalResolved ok]
             (trigger options tk now cm) in
  outcome i = Some (inr (Wait CodeManager.Cancelled))
  /\ opened i = [authUrlOptions cfg options uri]
  /\ (visible <$> inputBox i) = Some true
  /\ (wizard <$> prompt i) = Some Running.
Proof.
  intros Hwf Hfree.
  pose proof (consistent_trigger cfg options tk now cm Hwf) as [Hl _].
  set (i0 := trigger options tk now cm) in *.
  assert (H0 : phase i0 = AwaitingExternalUri /\ opened i0 = []
               /\ isCancellationRequested (cancelTokenSource i0) = false
               /\ isDisposed (cancelTokenSource i0) = false
               /\ settledCode i0 = None).
  { subst i0. unfold trigger, CodeManager.waitForCode, settledCode.
    rewrite Hfree. simpl. split_and!; try done.
    destruct Hwf as [_ Hsettled].
    destruct (CodeManager.settlements cm !! CodeManager.next cm) eqn:E; [|done].
    apply Hsettled in E. lia. }
  destruct H0 as (Hph & Hop & Hc & Hd & Hs).
  destruct (loose_cancel cfg options tk now _ _ i0 Hl)
    as (_ & _ & Hph1 & _ & _ & Hrej).
  destruct (Hrej Hc Hd Hs) as [Hs1 _].
  destruct (cancel_keeps i0) as (_ & Hop1 & _).
  rewrite Hph in Hph1. rewrite Hop in Hop1.
  clearbody i0. cbv zeta.
  change (after cfg options
            [CallerCancels; AsExternalUriResolved uri; OpenExternalResolved ok]
            i0)
    with (handle cfg options (OpenExternalResolved ok)
            (handle cfg options (AsExternalUriResolved uri)
               (handle cfg options CallerCancels i0))).
  assert (E1 : handle cfg options CallerCancels i0 = cancel i0).
  { simpl. unfold await_code. by rewrite Hph1. }
  rewrite E1. set (i1 := cancel i0) in *. clearbody i1.
  assert (E2 : handle cfg options (AsExternalUriResolved uri) i1
               = {| clock := clock i1; codeManager := codeManager i1;
                    cancelTokenSource := cancelTokenSource i1;
                    codePromise := codePromise i1;
                    phase := AwaitingOpenExternal;
                    opened := [authUrlOptions cfg options uri];
                    prompt := prompt i1; outcome := outcome i1 |}).
  { simpl. by rewrite Hph1, Hop1. }
  rewrite E2. simpl. unfold await_code. simpl.
  unfold settledCode in Hs1. rewrite Hs1. simpl.
  split_and!; reflexivity.
Qed.

Lemma early_cancellation_still_prompts_witness :
  let i := after ProxiedTests.TEST_CONFIG ProxiedTests.defaultTriggerOpts
             [CallerCancels;
              AsExternalUriResolved ProxiedTests.EXTERNAL_CALLBACK_URI;
              OpenExternalResolved true]
             ProxiedTests.triggered in
  outcome i = Some (inr (Wait CodeManager.Cancelled))
  /\ opened i = [authUrlOptions ProxiedTests.TEST_CONFIG
                   ProxiedTests.defaultTriggerOpts
                   ProxiedTests.EXTERNAL_CALLBACK_URI]
  /\ (visible <$> inputBox i) = Some true
  /\ (wizard <$> prompt i) = Some Running.
Proof.
  apply (early_cancellation_still_prompts ProxiedTests.TEST_CONFIG
           ProxiedTests.defaultTriggerOpts 0 0 CodeManager.empty
           ProxiedTests.EXTERNAL_CALLBACK_URI true wf_empty).
  reflexivity.
Defined.

End CancellationFacts.
